(** * deno-amqp code generator ([src/codegen/utils.ts])

    The module under verification turns an AMQP schema into TypeScript
    text: interface declarations, one encode and one decode function per
    method, one per class header, and two dispatch functions.

    The development has four layers.
    - [Js]: the fragment of the JavaScript runtime the generator and the
      emitted code rely on (strings, values, exceptions).
    - the generator itself, function by function, producing text exactly as
      the template literals of the source do;
    - [Emitted]: the structure of the emitted declarations and functions,
      the printer that gives their text, and the proof that the printer
      applied to the structure gives the text the generator produced;
    - the behaviour of the emitted functions over the external field codec
      [enc], which is taken as a parameter with its round-trip contract. *)

From Stdlib Require Import ZArith Ascii String List Lia Bool.
From Stdlib Require Strings.Byte.
From stdpp Require Import base option list strings pretty gmap.

Set Warnings "-register-all".
Open Scope string_scope.
Open Scope Z_scope.
Open Scope list_scope.

(** ** Exceptions and the error monad

    A [throw] of the source, or a runtime error of the JavaScript engine,
    ends the enclosing call: [result] with first-error-wins sequencing. *)

Inductive exn : Type :=
  | Error (message : string)
  | TypeError (message : string)
  | SyntaxError (message : string)
  | ReferenceError (message : string).

Inductive result (A : Type) : Type :=
  | Ok (a : A)
  | Throw (e : exn).
Arguments Ok {A} a.
Arguments Throw {A} e.

#[global] Instance result_ret : MRet result := fun A a => Ok a.
#[global] Instance result_bind : MBind result := fun A B f m =>
  match m with
  | Ok a => f a
  | Throw e => Throw e
  end.
#[global] Instance result_fmap : FMap result := fun A B f m =>
  match m with
  | Ok a => Ok (f a)
  | Throw e => Throw e
  end.

(** [arr.map((x, i) => ...)] with a callback that may throw. *)
Fixpoint imapM_from {A B : Type} (i : nat) (f : nat -> A -> result B)
    (l : list A) : result (list B) :=
  match l with
  | [] => Ok []
  | x :: l' => y ← f i x; ys ← imapM_from (S i) f l'; Ok (y :: ys)
  end.

Definition imapM {A B : Type} (f : nat -> A -> result B) (l : list A)
    : result (list B) :=
  imapM_from 0 f l.

(** ** The JavaScript fragment *)

Module Js.

(** Text is modelled as [string] (8-bit characters): the identifiers and
    type names of a schema are ASCII. *)

(** The double quote and the line feed, as one-character strings. *)
Definition dq : string := String "034"%char EmptyString.
Definition nl : string := String "010"%char EmptyString.

(** Values.  [VNumber] holds the integral numbers (class ids, method ids,
    integer defaults); [VBigInt] is the 64-bit storage type of the
    emitted code; [VFunction] is a built-in function, known by its name. *)
Inductive value : Type :=
  | VUndefined
  | VNumber (n : Z)
  | VBigInt (n : Z)
  | VBoolean (b : bool)
  | VString (s : string)
  | VObject (fields : list (string * value))
  | VFunction (name : string).

(** [v !== undefined] *)
Definition isDefined (v : value) : bool :=
  match v with
  | VUndefined => false
  | _ => true
  end.

(** The members of [Object.prototype], which every object written as a
    literal inherits: the constructor [Object] and the built-in methods,
    those of the standard's annex on legacy features included. *)
Definition objectPrototype : list (string * value) :=
  [("constructor", VFunction "Object");
   ("__defineGetter__", VFunction "__defineGetter__");
   ("__defineSetter__", VFunction "__defineSetter__");
   ("hasOwnProperty", VFunction "hasOwnProperty");
   ("__lookupGetter__", VFunction "__lookupGetter__");
   ("__lookupSetter__", VFunction "__lookupSetter__");
   ("isPrototypeOf", VFunction "isPrototypeOf");
   ("propertyIsEnumerable", VFunction "propertyIsEnumerable");
   ("toString", VFunction "toString");
   ("valueOf", VFunction "valueOf");
   ("toLocaleString", VFunction "toLocaleString")].

(** What [o.k] gives when [o] has no property [k] of its own: the member
    of [Object.prototype] of that name ([__proto__] is the prototype
    itself), and [undefined] only when there is none. *)
Definition inherited (k : string) : value :=
  match List.find (fun m => String.eqb (fst m) k) objectPrototype with
  | Some m => snd m
  | None =>
      if String.eqb k "__proto__" then VObject objectPrototype
      else VUndefined
  end.

(** The property read [o.k]: the own property when [o] has one, the
    inherited member otherwise. *)
Definition get (o : gmap string value) (k : string) : value :=
  match o !! k with
  | Some v => v
  | None => inherited k
  end.

(** An object literal [{ k0: e0, k1: e1, ... }]: properties are defined
    left to right, a repeated key keeps the last value.  (The key
    [__proto__], which a literal does not define as a property, is not
    treated apart: no camel form of an identifier of lowercase letters,
    digits, hyphens and dots spells it.) *)
Definition objectLiteral (kvs : list (string * value)) : gmap string value :=
  fold_left (fun o kv => <[kv.1 := kv.2]> o) kvs ∅.

(** [fields[i]]: [undefined] past the end of the array. *)
Definition index (a : list value) (i : nat) : value :=
  nth i a VUndefined.

(** [String.prototype.toUpperCase], on ASCII. *)
Definition toUpperChar (c : ascii) : ascii :=
  let n := nat_of_ascii c in
  if (97 <=? n)%nat && (n <=? 122)%nat then ascii_of_nat (n - 32) else c.

Fixpoint toUpperCase (s : string) : string :=
  match s with
  | EmptyString => EmptyString
  | String c s' => String (toUpperChar c) (toUpperCase s')
  end.

(** [s.charAt(i)]: the character at [i] as a string, empty out of range. *)
Definition charAt (i : nat) (s : string) : string :=
  match String.get i s with
  | Some c => String c EmptyString
  | None => EmptyString
  end.

(** [s.slice(a, b)] for [0 <= a] and [0 <= b]. *)
Definition slice (a b : nat) (s : string) : string :=
  String.substring a (b - a) s.

(** [s.split(re)] for a regular expression [re] that is a character
    class: [sep] tells whether a character is in the class. *)
Fixpoint split (sep : ascii -> bool) (s : string) : list string :=
  match s with
  | EmptyString => [EmptyString]
  | String c s' =>
      if sep c then EmptyString :: split sep s'
      else match split sep s' with
           | seg :: segs => String c seg :: segs
           | [] => [String c EmptyString]
           end
  end.

(** [arr.join(sep)] *)
Fixpoint join (sep : string) (l : list string) : string :=
  match l with
  | [] => EmptyString
  | [x] => x
  | x :: l' => x +:+ sep +:+ join sep l'
  end.

(** [s.replace(re, by)] for a global single-character class [re]. *)
Fixpoint replace (sep : ascii -> bool) (by_ : string) (s : string) : string :=
  match s with
  | EmptyString => EmptyString
  | String c s' =>
      if sep c then by_ +:+ replace sep by_ s'
      else String c (replace sep by_ s')
  end.

(** Number to string conversion of an integral number: [`${n}`],
    ["..." + n]; decimal digits, as JavaScript prints the integers a
    schema or a 16-bit field can hold. *)
Definition numberToString (n : Z) : string := pretty n.

End Js.

Import Js.

(** ** The schema ([Spec] and its parts) *)

Record PropertyDefinition := {
  prop_type : string;
  prop_name : string;
}.

(** [type?] and [domain?] are optional; ["default-value"] is tested against
    [undefined] by the generator, so it is a value that may be
    [VUndefined]. *)
Record ArgumentDefinition := {
  arg_type : option string;
  arg_domain : option string;
  arg_name : string;
  arg_default_value : value;
}.

Record MethodDefinition := {
  method_id : Z;
  method_arguments : list ArgumentDefinition;
  method_synchronous : bool;
  method_response : option string;
  method_name : string;
  method_content : bool;
}.

Record ClassDefinition := {
  class_id : Z;
  class_methods : list MethodDefinition;
  class_name : string;
  class_properties : option (list PropertyDefinition);
}.

Record ConstantDefinition := {
  const_name : string;
  const_value : Z;
  const_class : string;
}.

(** [domains] is searched with [find(d => d[0] === arg.domain)] and the
    result is read with [domain![1]]: each entry [d] is a pair of a domain
    name and a primitive type name, as in the schema document (the
    interface writes the type of one such pair, [[string, string]], for the
    whole table). *)
Record Spec := {
  classes : list ClassDefinition;
  domains : list (string * string);
  constants : list ConstantDefinition;
}.

(** ** Type resolution *)

(** [`Cannot determine type ${arg}`]: an object interpolates as
    [[object Object]]. *)
Definition UnresolvedType : exn :=
  Error "Cannot determine type [object Object]".

(** [domain![1]] when [find] returned [undefined]: the non-null assertion
    is erased, the property read throws. *)
Definition UnknownDomain : exn :=
  TypeError "Cannot read properties of undefined (reading '1')".

Definition resolveType (spec : Spec) (arg : ArgumentDefinition) : result string :=
  match arg_type arg with
  | Some t => Ok t
  | None =>
      match arg_domain arg with
      | Some dom =>
          let domain := List.find (fun d => String.eqb (fst d) dom) (domains spec) in
          match domain with
          | Some d => Ok (snd d)
          | None => Throw UnknownDomain
          end
      | None => Throw UnresolvedType
      end
  end.

Definition UnknownPrimitiveType (type : string) : exn :=
  Error ("Unknown type '" +:+ type +:+ "'").

Definition resolveTypescriptType (type : string) : result string :=
  if String.eqb type "longlong" then Ok "bigint"
  else if String.eqb type "long" then Ok "number"
  else if String.eqb type "short" then Ok "number"
  else if String.eqb type "octet" then Ok "number"
  else if String.eqb type "bit" then Ok "boolean"
  else if String.eqb type "shortstr" then Ok "string"
  else if String.eqb type "longstr" then Ok "string"
  else if String.eqb type "table" then Ok "Record<string, unknown>"
  else if String.eqb type "timestamp" then Ok "bigint"
  else Throw (UnknownPrimitiveType type).

(** The type names [resolveTypescriptType] has a [case] for. *)
Definition primitiveTypes : list string :=
  ["longlong"; "long"; "short"; "octet"; "bit"; "shortstr"; "longstr";
   "table"; "timestamp"].

(** ** Identifier forms *)

Definition capitalize (word : string) : string :=
  let first := toUpperCase (charAt 0 word) in
  let rest := slice 1 (String.length word) word in
  first +:+ rest.

(** The character class [[-\.]]. *)
Definition hyphenOrDot (c : ascii) : bool :=
  Ascii.eqb c "-" || Ascii.eqb c ".".

(** The character class of [/-/]. *)
Definition hyphen (c : ascii) : bool := Ascii.eqb c "-".

(** [const [first, ...rest] = name.split(...)]; [split] never returns an
    empty array, where [first] would be [undefined]. *)
Definition camelCase (name : string) : string :=
  match split hyphenOrDot name with
  | first :: rest => first +:+ join "" (map capitalize rest)
  | [] => "undefined"
  end.

Definition pascalCase (name : string) : string :=
  join "" (map capitalize (split hyphenOrDot name)).

Definition constantName (name : string) : string :=
  toUpperCase (replace hyphen "_" name).

(** ** The generator: emitted text

    Each function builds the text of its template literal; [nl] stands for
    a line break of the template and [dq] for a double quote.  A callback
    of [map] that throws ends the whole call ([mapM]). *)

Section Generator.

(** [JSON.stringify], a function of the runtime. *)
Variable JSON_stringify : value -> string.

Definition printClassPropertyInterface (clazz : ClassDefinition)
    : result string :=
  props ← mapM (fun prop =>
      tsType ← resolveTypescriptType (prop_type prop);
      Ok (camelCase (prop_name prop) +:+ "?: " +:+ tsType))
    (default [] (class_properties clazz));
  Ok (nl +:+ "  export interface " +:+ pascalCase (class_name clazz)
      +:+ "Properties {" +:+ nl +:+ "    "
      +:+ join nl props
      +:+ nl +:+ "  }" +:+ nl).

Definition printMethodArgsInterface (spec : Spec) (clazz : ClassDefinition)
    (method : MethodDefinition) : result string :=
  let name := pascalCase (class_name clazz) +:+ pascalCase (method_name method)
              +:+ "Args" in
  fields ← mapM (fun arg =>
      let isOptional := isDefined (arg_default_value arg) in
      let comment :=
        if isOptional
        then "/** Default " +:+ JSON_stringify (arg_default_value arg) +:+ " */"
        else "" in
      type ← (t ← resolveType spec arg; resolveTypescriptType t);
      Ok (comment +:+ camelCase (arg_name arg)
          +:+ (if isOptional then "?" else "") +:+ ": " +:+ type +:+ ";"))
    (method_arguments method);
  Ok (nl +:+ "export interface " +:+ name +:+ " {" +:+ nl +:+ "    "
      +:+ join nl fields
      +:+ nl +:+ "}" +:+ nl +:+ "    ").

Definition printMethodValueInterface (spec : Spec) (clazz : ClassDefinition)
    (method : MethodDefinition) : result string :=
  let name := pascalCase (class_name clazz) +:+ pascalCase (method_name method) in
  fields ← mapM (fun arg =>
      type ← (t ← resolveType spec arg; resolveTypescriptType t);
      Ok (camelCase (arg_name arg) +:+ ": " +:+ type +:+ ";"))
    (method_arguments method);
  Ok (nl +:+ "export interface " +:+ name +:+ " extends " +:+ name
      +:+ "Args {" +:+ nl +:+ "    "
      +:+ join nl fields
      +:+ nl +:+ "}" +:+ nl +:+ "    ").

(** Returns [undefined] ([None]) when the argument has no default. *)
Definition getDefaultValue (spec : Spec) (a : ArgumentDefinition)
    : result (option string) :=
  if negb (isDefined (arg_default_value a)) then Ok None
  else
    type ← resolveType spec a;
    tsType ← resolveTypescriptType type;
    if String.eqb tsType "bigint"
    then Ok (Some ("BigInt(" +:+ JSON_stringify (arg_default_value a) +:+ ")"))
    else Ok (Some (JSON_stringify (arg_default_value a))).

(** [`${x}`] for an [x] that may be [undefined]. *)
Definition interpolate (x : option string) : string :=
  match x with
  | Some s => s
  | None => "undefined"
  end.

Definition printEncodeMethodFunction (spec : Spec) (clazz : ClassDefinition)
    (method : MethodDefinition) : result string :=
  let name := "encode" +:+ (pascalCase (class_name clazz)
                            +:+ pascalCase (method_name method)) in
  let argsName := (pascalCase (class_name clazz)
                   +:+ pascalCase (method_name method)) +:+ "Args" in
  fields ← mapM (fun arg =>
      type ← resolveType spec arg;
      let name := camelCase (arg_name arg) in
      defaultValue ← getDefaultValue spec arg;
      let value :=
        if isDefined (arg_default_value arg)
        then "args." +:+ name +:+ " !== undefined ? args." +:+ name +:+ " : "
             +:+ interpolate defaultValue
        else "args." +:+ name in
      Ok ("{ type: " +:+ dq +:+ type +:+ dq +:+ " as const, value: "
          +:+ value +:+ " }"))
    (method_arguments method);
  Ok (nl +:+ "export function " +:+ name +:+ "(args: " +:+ argsName
      +:+ "): Uint8Array {" +:+ nl
      +:+ "  const w = new Deno.Buffer();" +:+ nl
      +:+ "  w.writeSync(enc.encodeShortUint("
      +:+ numberToString (class_id clazz) +:+ "));" +:+ nl
      +:+ "  w.writeSync(enc.encodeShortUint("
      +:+ numberToString (method_id method) +:+ "));" +:+ nl
      +:+ "  w.writeSync(enc.encodeFields([" +:+ nl +:+ "    "
      +:+ join "," fields
      +:+ nl +:+ "  ]));" +:+ nl
      +:+ "  return w.bytes();" +:+ nl
      +:+ "}" +:+ nl +:+ "  ").

Definition printDecodeMethodFunction (spec : Spec) (clazz : ClassDefinition)
    (method : MethodDefinition) : result string :=
  let name := "decode" +:+ (pascalCase (class_name clazz)
                            +:+ pascalCase (method_name method)) in
  let returnName := pascalCase (class_name clazz)
                    +:+ pascalCase (method_name method) in
  types ← mapM (fun a => t ← resolveType spec a; Ok (dq +:+ t +:+ dq))
    (method_arguments method);
  args ← imapM (fun i a =>
      tsType ← (t ← resolveType spec a; resolveTypescriptType t);
      Ok (camelCase (arg_name a) +:+ ": fields["
          +:+ numberToString (Z.of_nat i) +:+ "] as " +:+ tsType))
    (method_arguments method);
  Ok (nl +:+ "function " +:+ name +:+ "(r: Deno.SyncReader): " +:+ returnName
      +:+ " {" +:+ nl
      +:+ "  const fields = enc.decodeFields(r, [" +:+ join "," types
      +:+ "]);" +:+ nl
      +:+ "  const args = { " +:+ join "," args +:+ "}" +:+ nl
      +:+ "  return args;" +:+ nl
      +:+ "}").

Definition printMethodDecoder (spec : Spec) : string :=
  nl +:+ "export function decodeMethod(data: Uint8Array): ReceiveMethod {" +:+ nl
  +:+ "  const r = new Deno.Buffer(data);" +:+ nl
  +:+ "  const classId = enc.decodeShortUint(r);" +:+ nl
  +:+ "  const methodId = enc.decodeShortUint(r);" +:+ nl
  +:+ "  switch(classId) {" +:+ nl +:+ "    "
  +:+ join nl (map (fun clazz =>
        nl +:+ "      case " +:+ numberToString (class_id clazz) +:+ ": { " +:+ nl
        +:+ "        switch(methodId) {" +:+ nl +:+ "          "
        +:+ join nl (map (fun method =>
              let name := "decode" +:+ (pascalCase (class_name clazz)
                                        +:+ pascalCase (method_name method)) in
              "case " +:+ numberToString (method_id method)
              +:+ ": return { classId, methodId, args: " +:+ name +:+ "(r) };")
            (class_methods clazz))
        +:+ nl +:+ "          default:" +:+ nl
        +:+ "            throw new Error(" +:+ dq +:+ "Unknown method " +:+ dq
        +:+ " + methodId + " +:+ dq +:+ " for class '" +:+ class_name clazz
        +:+ "'" +:+ dq +:+ ")" +:+ nl
        +:+ "        }" +:+ nl
        +:+ "      }" +:+ nl +:+ "     ")
      (classes spec))
  +:+ nl +:+ "    default:" +:+ nl
  +:+ "      throw new Error(" +:+ dq +:+ "Unknown class " +:+ dq
  +:+ " + classId);" +:+ nl
  +:+ "  }" +:+ nl
  +:+ "}" +:+ nl +:+ "  ".

Definition printEncodeHeaderFunction (clazz : ClassDefinition) : string :=
  let name := "encode" +:+ pascalCase (class_name clazz) +:+ "Header" in
  let argName := pascalCase (class_name clazz) +:+ "Properties" in
  nl +:+ "export function " +:+ name +:+ "(size: bigint, props: " +:+ argName
  +:+ "): Uint8Array {" +:+ nl
  +:+ "  const w = new Deno.Buffer();" +:+ nl
  +:+ "  w.writeSync(enc.encodeShortUint("
  +:+ numberToString (class_id clazz) +:+ "));" +:+ nl
  +:+ "  w.writeSync(enc.encodeShortUint(0));" +:+ nl
  +:+ "  w.writeSync(enc.encodeLongLongUint(size));" +:+ nl
  +:+ "  w.writeSync(enc.encodeOptionalFields([" +:+ nl +:+ "    "
  +:+ join "," (map (fun prop =>
        let name := camelCase (prop_name prop) in
        "{ type: " +:+ dq +:+ prop_type prop +:+ dq +:+ ", value: props."
        +:+ name +:+ " }")
      (default [] (class_properties clazz)))
  +:+ nl +:+ "  ]));" +:+ nl
  +:+ "  return w.bytes();" +:+ nl
  +:+ "}" +:+ nl +:+ "  ".

Definition printDecodeHeaderFunction (clazz : ClassDefinition)
    : result string :=
  let name := "decode" +:+ pascalCase (class_name clazz) +:+ "Header" in
  let types := map (fun p => dq +:+ prop_type p +:+ dq)
                 (default [] (class_properties clazz)) in
  props ← imapM (fun i p =>
      tsType ← resolveTypescriptType (prop_type p);
      Ok (camelCase (prop_name p) +:+ ": fields["
          +:+ numberToString (Z.of_nat i) +:+ "] as " +:+ tsType))
    (default [] (class_properties clazz));
  Ok (nl +:+ "function " +:+ name +:+ "(r: Deno.SyncReader): "
      +:+ pascalCase (class_name clazz) +:+ "Header {" +:+ nl
      +:+ "  const weight = enc.decodeShortUint(r);" +:+ nl
      +:+ "  const size = enc.decodeLongLongUint(r); " +:+ nl
      +:+ "  const fields = enc.decodeOptionalFields(r, [" +:+ join "," types
      +:+ "]);" +:+ nl
      +:+ "  const props = { " +:+ join "," props +:+ "};" +:+ nl
      +:+ nl
      +:+ "  return { classId: " +:+ numberToString (class_id clazz)
      +:+ ", size, props };" +:+ nl
      +:+ "}" +:+ nl +:+ "  ").

Definition printHeaderDecoder (spec : Spec) : string :=
  nl +:+ "export function decodeHeader(data: Uint8Array) : Header {" +:+ nl
  +:+ "  const r = new Deno.Buffer(data);" +:+ nl
  +:+ "  const classId = enc.decodeShortUint(r);" +:+ nl
  +:+ "  switch(classId) {" +:+ nl +:+ "    "
  +:+ join nl (map (fun clazz =>
        "case " +:+ numberToString (class_id clazz) +:+ ": return decode"
        +:+ pascalCase (class_name clazz) +:+ "Header(r);")
      (classes spec))
  +:+ nl +:+ "    default:" +:+ nl
  +:+ "      throw new Error(" +:+ dq +:+ "Unknown class " +:+ dq
  +:+ " + classId);" +:+ nl
  +:+ "  }" +:+ nl
  +:+ "}" +:+ nl +:+ "  ".

End Generator.

(** ** The generator: received messages, headers and their unions *)

Definition printReceiveMethodDefinition (clazz : ClassDefinition)
    (method : MethodDefinition) : string :=
  nl +:+ "  export interface Receive" +:+ pascalCase (class_name clazz)
  +:+ pascalCase (method_name method) +:+ " {" +:+ nl
  +:+ "    classId: " +:+ numberToString (class_id clazz) +:+ ";" +:+ nl
  +:+ "    methodId: " +:+ numberToString (method_id method) +:+ ";" +:+ nl
  +:+ "    args: " +:+ pascalCase (class_name clazz)
  +:+ pascalCase (method_name method) +:+ ";" +:+ nl
  +:+ "  }" +:+ nl +:+ "  ".

(** [classes.flatMap(c => c.methods.map(...))] *)
Definition printReceiveMethodUnion (spec : Spec) : string :=
  "export type ReceiveMethod = "
  +:+ join " | " (flat_map (fun c =>
      map (fun m => "Receive" +:+ pascalCase (class_name c)
                    +:+ pascalCase (method_name m))
        (class_methods c))
    (classes spec)).

Definition printHeaderDefinition (clazz : ClassDefinition) : string :=
  nl +:+ "  export interface " +:+ pascalCase (class_name clazz) +:+ "Header {"
  +:+ nl
  +:+ "    classId: " +:+ numberToString (class_id clazz) +:+ ";" +:+ nl
  +:+ "    props: " +:+ pascalCase (class_name clazz) +:+ "Properties;" +:+ nl
  +:+ "    size: bigint;" +:+ nl
  +:+ "  }" +:+ nl +:+ "  ".

Definition printHeaderUnion (spec : Spec) : string :=
  "export type Header = "
  +:+ join " | " (map (fun c => pascalCase (class_name c) +:+ "Header")
                  (classes spec)).

Definition disclaimer : string :=
  nl +:+ "/**" +:+ nl +:+ " * This is a generated file" +:+ nl +:+ " */" +:+ nl.

(** ** The structure of the emitted code

    The text above is TypeScript.  [Emitted] gives the declarations and
    functions it denotes as data, with the printer that writes them out;
    the generator is then restated as producing this data, and shown to
    produce, once printed, the very text of the functions above. *)

Module Emitted.

(** A field of an interface: [/** Default d */name?: type]. *)
Record Field := {
  field_default : option value;
  field_name : string;
  field_optional : bool;
  field_type : string;
}.

Record Interface := {
  iface_name : string;
  iface_extends : option string;
  iface_fields : list Field;
}.

(** The default substituted for a missing argument: the JSON text of the
    schema's default, read back as an expression, bare or under
    [BigInt(...)]. *)
Inductive DefaultExpr : Type :=
  | DUndefined
  | DLiteral (v : value)
  | DBigInt (v : value).

(** [args.name], or [args.name !== undefined ? args.name : d]. *)
Inductive ValueExpr : Type :=
  | VArg (name : string)
  | VArgOrDefault (name : string) (d : DefaultExpr).

(** [{ type: "t" as const, value: e }] *)
Record EncodeField := {
  ef_type : string;
  ef_value : ValueExpr;
}.

Record EncodeMethod := {
  em_name : string;
  em_argsName : string;
  em_classId : Z;
  em_methodId : Z;
  em_fields : list EncodeField;
}.

(** [name: fields[i] as cast] *)
Record DecodedField := {
  df_name : string;
  df_index : nat;
  df_cast : string;
}.

Record DecodeMethod := {
  dm_name : string;
  dm_returnName : string;
  dm_types : list string;
  dm_args : list DecodedField;
}.

(** [case id: return { classId, methodId, args: decoder(r) };] *)
Record MethodCase := {
  mc_id : Z;
  mc_decoder : string;
}.

(** [case id: { switch(methodId) { cases  default: throw ... } }] *)
Record ClassCase := {
  cc_id : Z;
  cc_methods : list MethodCase;
  cc_className : string;
}.

Record MethodDecoder := {
  md_cases : list ClassCase;
}.

(** [{ type: "t", value: props.name }] *)
Record OptionalField := {
  of_type : string;
  of_prop : string;
}.

Record EncodeHeader := {
  eh_name : string;
  eh_argName : string;
  eh_classId : Z;
  eh_weight : Z;
  eh_fields : list OptionalField;
}.

Record DecodeHeader := {
  dh_name : string;
  dh_returnName : string;
  dh_types : list string;
  dh_props : list DecodedField;
  dh_classId : Z;
}.

(** [case id: return decoder(r);] *)
Record HeaderCase := {
  hc_id : Z;
  hc_decoder : string;
}.

Record HeaderDecoder := {
  hd_cases : list HeaderCase;
}.

Section Printer.

Variable JSON_stringify : value -> string.

Definition printField (terminator : string) (f : Field) : string :=
  match field_default f with
  | Some d => "/** Default " +:+ JSON_stringify d +:+ " */"
  | None => ""
  end
  +:+ field_name f
  +:+ (if field_optional f then "?" else "")
  +:+ ": " +:+ field_type f +:+ terminator.

Definition printExtends (i : Interface) : string :=
  match iface_extends i with
  | Some base => " extends " +:+ base
  | None => ""
  end.

(** Layout of a properties declaration: indented, fields unterminated. *)
Definition printPropertyInterface (i : Interface) : string :=
  nl +:+ "  export interface " +:+ iface_name i +:+ printExtends i
  +:+ " {" +:+ nl +:+ "    "
  +:+ join nl (map (printField "") (iface_fields i))
  +:+ nl +:+ "  }" +:+ nl.

(** Layout of an arguments or full value declaration. *)
Definition printMethodInterface (i : Interface) : string :=
  nl +:+ "export interface " +:+ iface_name i +:+ printExtends i
  +:+ " {" +:+ nl +:+ "    "
  +:+ join nl (map (printField ";") (iface_fields i))
  +:+ nl +:+ "}" +:+ nl +:+ "    ".

Definition printDefaultExpr (d : DefaultExpr) : string :=
  match d with
  | DUndefined => "undefined"
  | DLiteral v => JSON_stringify v
  | DBigInt v => "BigInt(" +:+ JSON_stringify v +:+ ")"
  end.

Definition printValueExpr (e : ValueExpr) : string :=
  match e with
  | VArg name => "args." +:+ name
  | VArgOrDefault name d =>
      "args." +:+ name +:+ " !== undefined ? args." +:+ name +:+ " : "
      +:+ printDefaultExpr d
  end.

Definition printEncodeField (f : EncodeField) : string :=
  "{ type: " +:+ dq +:+ ef_type f +:+ dq +:+ " as const, value: "
  +:+ printValueExpr (ef_value f) +:+ " }".

Definition printEncodeMethod (f : EncodeMethod) : string :=
  nl +:+ "export function " +:+ em_name f +:+ "(args: " +:+ em_argsName f
  +:+ "): Uint8Array {" +:+ nl
  +:+ "  const w = new Deno.Buffer();" +:+ nl
  +:+ "  w.writeSync(enc.encodeShortUint("
  +:+ numberToString (em_classId f) +:+ "));" +:+ nl
  +:+ "  w.writeSync(enc.encodeShortUint("
  +:+ numberToString (em_methodId f) +:+ "));" +:+ nl
  +:+ "  w.writeSync(enc.encodeFields([" +:+ nl +:+ "    "
  +:+ join "," (map printEncodeField (em_fields f))
  +:+ nl +:+ "  ]));" +:+ nl
  +:+ "  return w.bytes();" +:+ nl
  +:+ "}" +:+ nl +:+ "  ".

Definition printTypeName (t : string) : string := dq +:+ t +:+ dq.

Definition printDecodedField (f : DecodedField) : string :=
  df_name f +:+ ": fields[" +:+ numberToString (Z.of_nat (df_index f))
  +:+ "] as " +:+ df_cast f.

Definition printDecodeMethod (f : DecodeMethod) : string :=
  nl +:+ "function " +:+ dm_name f +:+ "(r: Deno.SyncReader): "
  +:+ dm_returnName f +:+ " {" +:+ nl
  +:+ "  const fields = enc.decodeFields(r, ["
  +:+ join "," (map printTypeName (dm_types f)) +:+ "]);" +:+ nl
  +:+ "  const args = { " +:+ join "," (map printDecodedField (dm_args f))
  +:+ "}" +:+ nl
  +:+ "  return args;" +:+ nl
  +:+ "}".

Definition printMethodCase (c : MethodCase) : string :=
  "case " +:+ numberToString (mc_id c)
  +:+ ": return { classId, methodId, args: " +:+ mc_decoder c +:+ "(r) };".

Definition printClassCase (c : ClassCase) : string :=
  nl +:+ "      case " +:+ numberToString (cc_id c) +:+ ": { " +:+ nl
  +:+ "        switch(methodId) {" +:+ nl +:+ "          "
  +:+ join nl (map printMethodCase (cc_methods c))
  +:+ nl +:+ "          default:" +:+ nl
  +:+ "            throw new Error(" +:+ dq +:+ "Unknown method " +:+ dq
  +:+ " + methodId + " +:+ dq +:+ " for class '" +:+ cc_className c
  +:+ "'" +:+ dq +:+ ")" +:+ nl
  +:+ "        }" +:+ nl
  +:+ "      }" +:+ nl +:+ "     ".

Definition printMethodDecoderFn (d : MethodDecoder) : string :=
  nl +:+ "export function decodeMethod(data: Uint8Array): ReceiveMethod {"
  +:+ nl
  +:+ "  const r = new Deno.Buffer(data);" +:+ nl
  +:+ "  const classId = enc.decodeShortUint(r);" +:+ nl
  +:+ "  const methodId = enc.decodeShortUint(r);" +:+ nl
  +:+ "  switch(classId) {" +:+ nl +:+ "    "
  +:+ join nl (map printClassCase (md_cases d))
  +:+ nl +:+ "    default:" +:+ nl
  +:+ "      throw new Error(" +:+ dq +:+ "Unknown class " +:+ dq
  +:+ " + classId);" +:+ nl
  +:+ "  }" +:+ nl
  +:+ "}" +:+ nl +:+ "  ".

Definition printOptionalField (f : OptionalField) : string :=
  "{ type: " +:+ dq +:+ of_type f +:+ dq +:+ ", value: props."
  +:+ of_prop f +:+ " }".

Definition printEncodeHeader (f : EncodeHeader) : string :=
  nl +:+ "export function " +:+ eh_name f +:+ "(size: bigint, props: "
  +:+ eh_argName f +:+ "): Uint8Array {" +:+ nl
  +:+ "  const w = new Deno.Buffer();" +:+ nl
  +:+ "  w.writeSync(enc.encodeShortUint("
  +:+ numberToString (eh_classId f) +:+ "));" +:+ nl
  +:+ "  w.writeSync(enc.encodeShortUint("
  +:+ numberToString (eh_weight f) +:+ "));" +:+ nl
  +:+ "  w.writeSync(enc.encodeLongLongUint(size));" +:+ nl
  +:+ "  w.writeSync(enc.encodeOptionalFields([" +:+ nl +:+ "    "
  +:+ join "," (map printOptionalField (eh_fields f))
  +:+ nl +:+ "  ]));" +:+ nl
  +:+ "  return w.bytes();" +:+ nl
  +:+ "}" +:+ nl +:+ "  ".

Definition printDecodeHeader (f : DecodeHeader) : string :=
  nl +:+ "function " +:+ dh_name f +:+ "(r: Deno.SyncReader): "
  +:+ dh_returnName f +:+ " {" +:+ nl
  +:+ "  const weight = enc.decodeShortUint(r);" +:+ nl
  +:+ "  const size = enc.decodeLongLongUint(r); " +:+ nl
  +:+ "  const fields = enc.decodeOptionalFields(r, ["
  +:+ join "," (map printTypeName (dh_types f)) +:+ "]);" +:+ nl
  +:+ "  const props = { " +:+ join "," (map printDecodedField (dh_props f))
  +:+ "};" +:+ nl
  +:+ nl
  +:+ "  return { classId: " +:+ numberToString (dh_classId f)
  +:+ ", size, props };" +:+ nl
  +:+ "}" +:+ nl +:+ "  ".

Definition printHeaderCase (c : HeaderCase) : string :=
  "case " +:+ numberToString (hc_id c) +:+ ": return " +:+ hc_decoder c
  +:+ "(r);".

Definition printHeaderDecoderFn (d : HeaderDecoder) : string :=
  nl +:+ "export function decodeHeader(data: Uint8Array) : Header {" +:+ nl
  +:+ "  const r = new Deno.Buffer(data);" +:+ nl
  +:+ "  const classId = enc.decodeShortUint(r);" +:+ nl
  +:+ "  switch(classId) {" +:+ nl +:+ "    "
  +:+ join nl (map printHeaderCase (hd_cases d))
  +:+ nl +:+ "    default:" +:+ nl
  +:+ "      throw new Error(" +:+ dq +:+ "Unknown class " +:+ dq
  +:+ " + classId);" +:+ nl
  +:+ "  }" +:+ nl
  +:+ "}" +:+ nl +:+ "  ".

End Printer.

End Emitted.

Import Emitted.

(** ** The generator: emitted structure

    The same functions, giving the declaration or function they emit. *)

Definition propertyField (prop : PropertyDefinition) : result Field :=
  tsType ← resolveTypescriptType (prop_type prop);
  Ok {| field_default := None;
        field_name := camelCase (prop_name prop);
        field_optional := true;
        field_type := tsType |}.

Definition classPropertyInterface (clazz : ClassDefinition) : result Interface :=
  props ← mapM propertyField (default [] (class_properties clazz));
  Ok {| iface_name := pascalCase (class_name clazz) +:+ "Properties";
        iface_extends := None;
        iface_fields := props |}.

Definition argsField (spec : Spec) (arg : ArgumentDefinition) : result Field :=
  let isOptional := isDefined (arg_default_value arg) in
  let comment := if isOptional then Some (arg_default_value arg) else None in
  type ← (t ← resolveType spec arg; resolveTypescriptType t);
  Ok {| field_default := comment;
        field_name := camelCase (arg_name arg);
        field_optional := isOptional;
        field_type := type |}.

Definition valueField (spec : Spec) (arg : ArgumentDefinition) : result Field :=
  type ← (t ← resolveType spec arg; resolveTypescriptType t);
  Ok {| field_default := None;
        field_name := camelCase (arg_name arg);
        field_optional := false;
        field_type := type |}.

Definition methodArgsInterface (spec : Spec) (clazz : ClassDefinition)
    (method : MethodDefinition) : result Interface :=
  let name := pascalCase (class_name clazz) +:+ pascalCase (method_name method)
              +:+ "Args" in
  fields ← mapM (argsField spec) (method_arguments method);
  Ok {| iface_name := name; iface_extends := None; iface_fields := fields |}.

Definition methodValueInterface (spec : Spec) (clazz : ClassDefinition)
    (method : MethodDefinition) : result Interface :=
  let name := pascalCase (class_name clazz) +:+ pascalCase (method_name method) in
  fields ← mapM (valueField spec) (method_arguments method);
  Ok {| iface_name := name;
        iface_extends := Some (name +:+ "Args");
        iface_fields := fields |}.

(** How a field of the arguments declaration reflects its argument. *)
Definition reflectsArgument (arg : ArgumentDefinition) (f : Field) : Prop :=
  field_name f = camelCase (arg_name arg)
  /\ (field_optional f = true <-> arg_default_value arg <> VUndefined)
  /\ field_default f
     = (if field_optional f then Some (arg_default_value arg) else None).

(** How a field of the full value declaration mirrors the arguments one. *)
Definition mandatoryCopy (fa fv : Field) : Prop :=
  field_name fv = field_name fa
  /\ field_type fv = field_type fa
  /\ field_optional fv = false.

Definition defaultExpr (spec : Spec) (a : ArgumentDefinition)
    : result DefaultExpr :=
  if negb (isDefined (arg_default_value a)) then Ok DUndefined
  else
    type ← resolveType spec a;
    tsType ← resolveTypescriptType type;
    if String.eqb tsType "bigint"
    then Ok (DBigInt (arg_default_value a))
    else Ok (DLiteral (arg_default_value a)).

Definition encodeField (spec : Spec) (arg : ArgumentDefinition)
    : result EncodeField :=
  type ← resolveType spec arg;
  let name := camelCase (arg_name arg) in
  defaultValue ← defaultExpr spec arg;
  let value :=
    if isDefined (arg_default_value arg)
    then VArgOrDefault name defaultValue
    else VArg name in
  Ok {| ef_type := type; ef_value := value |}.

Definition encodeMethodFunction (spec : Spec) (clazz : ClassDefinition)
    (method : MethodDefinition) : result EncodeMethod :=
  let name := "encode" +:+ (pascalCase (class_name clazz)
                            +:+ pascalCase (method_name method)) in
  let argsName := (pascalCase (class_name clazz)
                   +:+ pascalCase (method_name method)) +:+ "Args" in
  fields ← mapM (encodeField spec) (method_arguments method);
  Ok {| em_name := name;
        em_argsName := argsName;
        em_classId := class_id clazz;
        em_methodId := method_id method;
        em_fields := fields |}.

Definition decodedField (spec : Spec) (i : nat) (a : ArgumentDefinition)
    : result DecodedField :=
  tsType ← (t ← resolveType spec a; resolveTypescriptType t);
  Ok {| df_name := camelCase (arg_name a); df_index := i; df_cast := tsType |}.

Definition decodeMethodFunction (spec : Spec) (clazz : ClassDefinition)
    (method : MethodDefinition) : result DecodeMethod :=
  let name := "decode" +:+ (pascalCase (class_name clazz)
                            +:+ pascalCase (method_name method)) in
  let returnName := pascalCase (class_name clazz)
                    +:+ pascalCase (method_name method) in
  types ← mapM (resolveType spec) (method_arguments method);
  args ← imapM (decodedField spec) (method_arguments method);
  Ok {| dm_name := name;
        dm_returnName := returnName;
        dm_types := types;
        dm_args := args |}.

Definition methodCase (clazz : ClassDefinition) (method : MethodDefinition)
    : MethodCase :=
  let name := "decode" +:+ (pascalCase (class_name clazz)
                            +:+ pascalCase (method_name method)) in
  {| mc_id := method_id method; mc_decoder := name |}.

Definition classCase (clazz : ClassDefinition) : ClassCase :=
  {| cc_id := class_id clazz;
     cc_methods := map (methodCase clazz) (class_methods clazz);
     cc_className := class_name clazz |}.

Definition methodDecoder (spec : Spec) : MethodDecoder :=
  {| md_cases := map classCase (classes spec) |}.

Definition optionalField (prop : PropertyDefinition) : OptionalField :=
  let name := camelCase (prop_name prop) in
  {| of_type := prop_type prop; of_prop := name |}.

Definition encodeHeaderFunction (clazz : ClassDefinition) : EncodeHeader :=
  let name := "encode" +:+ pascalCase (class_name clazz) +:+ "Header" in
  let argName := pascalCase (class_name clazz) +:+ "Properties" in
  {| eh_name := name;
     eh_argName := argName;
     eh_classId := class_id clazz;
     eh_weight := 0;
     eh_fields := map optionalField (default [] (class_properties clazz)) |}.

Definition decodedProperty (i : nat) (p : PropertyDefinition)
    : result DecodedField :=
  tsType ← resolveTypescriptType (prop_type p);
  Ok {| df_name := camelCase (prop_name p); df_index := i; df_cast := tsType |}.

Definition decodeHeaderFunction (clazz : ClassDefinition) : result DecodeHeader :=
  let name := "decode" +:+ pascalCase (class_name clazz) +:+ "Header" in
  let types := map prop_type (default [] (class_properties clazz)) in
  props ← imapM decodedProperty (default [] (class_properties clazz));
  Ok {| dh_name := name;
        dh_returnName := pascalCase (class_name clazz) +:+ "Header";
        dh_types := types;
        dh_props := props;
        dh_classId := class_id clazz |}.

Definition headerCase (clazz : ClassDefinition) : HeaderCase :=
  {| hc_id := class_id clazz;
     hc_decoder := "decode" +:+ pascalCase (class_name clazz) +:+ "Header" |}.

Definition headerDecoder (spec : Spec) : HeaderDecoder :=
  {| hd_cases := map headerCase (classes spec) |}.

(** *** Received messages, headers and their unions *)

(** [export interface name { classId: c; methodId: m; args: t; }] *)
Record ReceiveInterface := {
  ri_name : string;
  ri_classId : Z;
  ri_methodId : Z;
  ri_args : string;
}.

(** [export interface name { classId: c; props: t; size: bigint; }] *)
Record HeaderInterface := {
  hi_name : string;
  hi_classId : Z;
  hi_props : string;
}.

(** [export type name = member | member | ...] *)
Record UnionType := {
  ut_name : string;
  ut_members : list string;
}.

Definition printReceiveInterface (i : ReceiveInterface) : string :=
  nl +:+ "  export interface " +:+ ri_name i +:+ " {" +:+ nl
  +:+ "    classId: " +:+ numberToString (ri_classId i) +:+ ";" +:+ nl
  +:+ "    methodId: " +:+ numberToString (ri_methodId i) +:+ ";" +:+ nl
  +:+ "    args: " +:+ ri_args i +:+ ";" +:+ nl
  +:+ "  }" +:+ nl +:+ "  ".

Definition printHeaderInterface (i : HeaderInterface) : string :=
  nl +:+ "  export interface " +:+ hi_name i +:+ " {" +:+ nl
  +:+ "    classId: " +:+ numberToString (hi_classId i) +:+ ";" +:+ nl
  +:+ "    props: " +:+ hi_props i +:+ ";" +:+ nl
  +:+ "    size: bigint;" +:+ nl
  +:+ "  }" +:+ nl +:+ "  ".

Definition printUnionType (u : UnionType) : string :=
  "export type " +:+ ut_name u +:+ " = " +:+ join " | " (ut_members u).

Definition receiveMethodDefinition (clazz : ClassDefinition)
    (method : MethodDefinition) : ReceiveInterface :=
  {| ri_name := "Receive" +:+ pascalCase (class_name clazz)
                +:+ pascalCase (method_name method);
     ri_classId := class_id clazz;
     ri_methodId := method_id method;
     ri_args := pascalCase (class_name clazz)
                +:+ pascalCase (method_name method) |}.

Definition receiveMethodUnion (spec : Spec) : UnionType :=
  {| ut_name := "ReceiveMethod";
     ut_members :=
       flat_map (fun c =>
           map (fun m => "Receive" +:+ pascalCase (class_name c)
                         +:+ pascalCase (method_name m))
             (class_methods c))
         (classes spec) |}.

Definition headerDefinition (clazz : ClassDefinition) : HeaderInterface :=
  {| hi_name := pascalCase (class_name clazz) +:+ "Header";
     hi_classId := class_id clazz;
     hi_props := pascalCase (class_name clazz) +:+ "Properties" |}.

Definition headerUnion (spec : Spec) : UnionType :=
  {| ut_name := "Header";
     ut_members := map (fun c => pascalCase (class_name c) +:+ "Header")
                     (classes spec) |}.


(** ** The external field codec [enc]

    The emitted functions call a codec that is not part of the generator.
    A [Uint8Array] is a list of bytes; a reader ([Deno.Buffer] over the
    input) is the list of bytes not yet consumed, and every decoding
    primitive returns what it read together with the rest. *)

Abbreviation bytes := (list Byte.byte).

Record Codec := {
  encodeShortUint : Z -> result bytes;
  encodeLongLongUint : Z -> result bytes;
  encodeFields : list (string * value) -> result bytes;
  encodeOptionalFields : list (string * value) -> result bytes;
  decodeShortUint : bytes -> result (Z * bytes);
  decodeLongLongUint : bytes -> result (Z * bytes);
  decodeFields : bytes -> list string -> result (list value * bytes);
  decodeOptionalFields : bytes -> list string -> result (list value * bytes);
}.

(** The contract the generator relies on: each reader-side primitive is the
    mirror of its writer-side primitive, whatever follows in the buffer. *)
Record CodecContract (enc : Codec) : Prop := {
  shortUint_mirror : forall n bs rest,
    encodeShortUint enc n = Ok bs ->
    decodeShortUint enc (bs ++ rest) = Ok (n, rest);
  longLongUint_mirror : forall n bs rest,
    encodeLongLongUint enc n = Ok bs ->
    decodeLongLongUint enc (bs ++ rest) = Ok (n, rest);
  fields_mirror : forall fs bs rest,
    encodeFields enc fs = Ok bs ->
    decodeFields enc (bs ++ rest) (map fst fs) = Ok (map snd fs, rest);
  optionalFields_mirror : forall fs bs rest,
    encodeOptionalFields enc fs = Ok bs ->
    decodeOptionalFields enc (bs ++ rest) (map fst fs) = Ok (map snd fs, rest);
}.

(** ** Behaviour of the emitted functions *)

(** What [decodeMethod] returns: [{ classId, methodId, args }]. *)
Record ReceiveMethod := {
  rm_classId : Z;
  rm_methodId : Z;
  rm_args : gmap string value;
}.

(** What [decodeHeader] returns: [{ classId, size, props }]. *)
Record Header := {
  h_classId : Z;
  h_size : Z;
  h_props : gmap string value;
}.

(** The functions a generated module declares. *)
Inductive Declaration : Type :=
  | DeclEncodeMethod (f : EncodeMethod)
  | DeclDecodeMethod (f : DecodeMethod)
  | DeclMethodDecoder (d : MethodDecoder)
  | DeclEncodeHeader (f : EncodeHeader)
  | DeclDecodeHeader (f : DecodeHeader)
  | DeclHeaderDecoder (d : HeaderDecoder).

Definition declName (d : Declaration) : string :=
  match d with
  | DeclEncodeMethod f => em_name f
  | DeclDecodeMethod f => dm_name f
  | DeclMethodDecoder _ => "decodeMethod"
  | DeclEncodeHeader f => eh_name f
  | DeclDecodeHeader f => dh_name f
  | DeclHeaderDecoder _ => "decodeHeader"
  end.

(** The function a name denotes inside the module. *)
Definition lookupDeclaration (module : list Declaration) (name : string)
    : option Declaration :=
  List.find (fun d => String.eqb (declName d) name) module.

(** A module that declares a function name twice is rejected by the
    compiler: only modules with distinct names run. *)
Definition validModule (module : list Declaration) : Prop :=
  NoDup (map declName module).

Section Behaviour.

Variable enc : Codec.

(** [BigInt(s)] on a string, a function of the runtime. *)
Variable StringToBigInt : string -> option Z.

(** [BigInt(v)] *)
Definition BigInt (v : value) : result value :=
  match v with
  | VUndefined => Throw (TypeError "Cannot convert undefined to a BigInt")
  | VNumber n => Ok (VBigInt n)
  | VBigInt n => Ok (VBigInt n)
  | VBoolean b => Ok (VBigInt (if b then 1 else 0))
  | VString s =>
      match StringToBigInt s with
      | Some n => Ok (VBigInt n)
      | None => Throw (SyntaxError ("Cannot convert " +:+ s +:+ " to a BigInt"))
      end
  | VObject _ =>
      Throw (SyntaxError "Cannot convert [object Object] to a BigInt")
  | VFunction name =>
      Throw (SyntaxError ("Cannot convert function " +:+ name
                          +:+ "() { [native code] } to a BigInt"))
  end.

Definition evalDefaultExpr (d : DefaultExpr) : result value :=
  match d with
  | DUndefined => Ok VUndefined
  | DLiteral v => Ok v
  | DBigInt v => BigInt v
  end.

Definition evalValueExpr (args : gmap string value) (e : ValueExpr)
    : result value :=
  match e with
  | VArg name => Ok (get args name)
  | VArgOrDefault name d =>
      if isDefined (get args name) then Ok (get args name)
      else evalDefaultExpr d
  end.

Definition evalEncodeField (args : gmap string value) (f : EncodeField)
    : result (string * value) :=
  v ← evalValueExpr args (ef_value f);
  Ok (ef_type f, v).

(** [encode<Class><Method>(args)]: the buffer [w] receives the three
    writes in turn. *)
Definition runEncodeMethod (f : EncodeMethod) (args : gmap string value)
    : result bytes :=
  let w := [] in
  b ← encodeShortUint enc (em_classId f);
  let w := w ++ b in
  b ← encodeShortUint enc (em_methodId f);
  let w := w ++ b in
  fields ← mapM (evalEncodeField args) (em_fields f);
  b ← encodeFields enc fields;
  let w := w ++ b in
  Ok w.

Definition readDecodedField (fields : list value) (f : DecodedField)
    : string * value :=
  (df_name f, index fields (df_index f)).

(** [decode<Class><Method>(r)] *)
Definition runDecodeMethod (f : DecodeMethod) (r : bytes)
    : result (gmap string value * bytes) :=
  '(fields, r) ← decodeFields enc r (dm_types f);
  let args := objectLiteral (map (readDecodedField fields) (dm_args f)) in
  Ok (args, r).

(** The call [name(r)] of a [case] of [decodeMethod]. *)
Definition callDecodeMethod (module : list Declaration) (name : string)
    (r : bytes) : result (gmap string value * bytes) :=
  match lookupDeclaration module name with
  | Some (DeclDecodeMethod f) => runDecodeMethod f r
  | Some _ => Throw (TypeError (name +:+ " is not a method decoder"))
  | None => Throw (ReferenceError (name +:+ " is not defined"))
  end.

(** [switch (x) { case ...: }]: the first case whose label is [x]. *)
Definition switch {C : Type} (label : C -> Z) (x : Z) (cases : list C)
    : option C :=
  List.find (fun c => Z.eqb (label c) x) cases.

(** [decodeMethod(data)] *)
Definition runMethodDecoder (module : list Declaration) (d : MethodDecoder)
    (data : bytes) : result ReceiveMethod :=
  let r := data in
  '(classId, r) ← decodeShortUint enc r;
  '(methodId, r) ← decodeShortUint enc r;
  match switch cc_id classId (md_cases d) with
  | Some c =>
      match switch mc_id methodId (cc_methods c) with
      | Some m =>
          '(args, r) ← callDecodeMethod module (mc_decoder m) r;
          Ok {| rm_classId := classId; rm_methodId := methodId; rm_args := args |}
      | None =>
          Throw (Error ("Unknown method " +:+ numberToString methodId
                        +:+ " for class '" +:+ cc_className c +:+ "'"))
      end
  | None => Throw (Error ("Unknown class " +:+ numberToString classId))
  end.

Definition evalOptionalField (props : gmap string value) (f : OptionalField)
    : string * value :=
  (of_type f, get props (of_prop f)).

(** [encode<Class>Header(size, props)] *)
Definition runEncodeHeader (f : EncodeHeader) (size : Z)
    (props : gmap string value) : result bytes :=
  let w := [] in
  b ← encodeShortUint enc (eh_classId f);
  let w := w ++ b in
  b ← encodeShortUint enc (eh_weight f);
  let w := w ++ b in
  b ← encodeLongLongUint enc size;
  let w := w ++ b in
  b ← encodeOptionalFields enc (map (evalOptionalField props) (eh_fields f));
  let w := w ++ b in
  Ok w.

(** [decode<Class>Header(r)]: [weight] is read and not used. *)
Definition runDecodeHeader (f : DecodeHeader) (r : bytes)
    : result (Header * bytes) :=
  '(weight, r) ← decodeShortUint enc r;
  '(size, r) ← decodeLongLongUint enc r;
  '(fields, r) ← decodeOptionalFields enc r (dh_types f);
  let props := objectLiteral (map (readDecodedField fields) (dh_props f)) in
  Ok ({| h_classId := dh_classId f; h_size := size; h_props := props |}, r).

(** The call [name(r)] of a [case] of [decodeHeader]. *)
Definition callDecodeHeader (module : list Declaration) (name : string)
    (r : bytes) : result (Header * bytes) :=
  match lookupDeclaration module name with
  | Some (DeclDecodeHeader f) => runDecodeHeader f r
  | Some _ => Throw (TypeError (name +:+ " is not a header decoder"))
  | None => Throw (ReferenceError (name +:+ " is not defined"))
  end.

(** [decodeHeader(data)] *)
Definition runHeaderDecoder (module : list Declaration) (d : HeaderDecoder)
    (data : bytes) : result Header :=
  let r := data in
  '(classId, r) ← decodeShortUint enc r;
  match switch hc_id classId (hd_cases d) with
  | Some c =>
      '(h, r) ← callDecodeHeader module (hc_decoder c) r;
      Ok h
  | None => Throw (Error ("Unknown class " +:+ numberToString classId))
  end.

End Behaviour.

Arguments switch {C} label x cases.

(** ** The generated module

    Modelled from the spec: the driver that assembles the output file is
    not part of [utils.ts]; it invokes each emitter over every class and
    method of the schema and concatenates the fragments, and the run fails
    on the first element an emitter rejects. *)

Definition emitMethod (spec : Spec) (clazz : ClassDefinition)
    (method : MethodDefinition) : result (list Declaration) :=
  e ← encodeMethodFunction spec clazz method;
  d ← decodeMethodFunction spec clazz method;
  Ok [DeclEncodeMethod e; DeclDecodeMethod d].

Definition emitClass (spec : Spec) (clazz : ClassDefinition)
    : result (list Declaration) :=
  methods ← mapM (emitMethod spec clazz) (class_methods clazz);
  d ← decodeHeaderFunction clazz;
  Ok (concat methods
      ++ [DeclEncodeHeader (encodeHeaderFunction clazz); DeclDecodeHeader d]).

Definition emitModule (spec : Spec) : result (list Declaration) :=
  perClass ← mapM (emitClass spec) (classes spec);
  Ok (concat perClass
      ++ [DeclMethodDecoder (methodDecoder spec);
          DeclHeaderDecoder (headerDecoder spec)]).

(** ** Failures of the dispatch functions and the default of a field *)

(** [new Error("Unknown class " + classId)] *)
Definition UnknownClass (classId : Z) : exn :=
  Error ("Unknown class " +:+ numberToString classId).

(** [new Error("Unknown method " + methodId + " for class 'name'")]: the
    class is named, the method is numbered. *)
Definition UnknownMethod (className : string) (methodId : Z) : exn :=
  Error ("Unknown method " +:+ numberToString methodId
         +:+ " for class '" +:+ className +:+ "'").

(** The declared default of an argument as a value of the storage type of
    its field: a 64-bit integer when that type is [bigint]. *)
Definition declaredDefault (StringToBigInt : string -> option Z) (spec : Spec)
    (a : ArgumentDefinition) : result value :=
  tsType ← (t ← resolveType spec a; resolveTypescriptType t);
  if String.eqb tsType "bigint"
  then BigInt StringToBigInt (arg_default_value a)
  else Ok (arg_default_value a).

(** The value the emitted encode function passes for an argument. *)
Definition fieldValue (StringToBigInt : string -> option Z) (spec : Spec)
    (args : gmap string value) (a : ArgumentDefinition) (v : value) : Prop :=
  exists f, encodeField spec a = Ok f
            /\ evalValueExpr StringToBigInt args (ef_value f) = Ok v.

(** The field name of an argument. *)
Definition argField (a : ArgumentDefinition) : string := camelCase (arg_name a).

(** The field name of a property. *)
Definition propField (p : PropertyDefinition) : string := camelCase (prop_name p).

(** ** A reference codec

    Modelled from the spec: the field codec is an external collaborator of
    which only the interface is given (a writer-side primitive for a short
    unsigned integer, for a 64-bit unsigned integer, for an ordered list of
    typed values and for an ordered list of optional typed values, and a
    reader-side mirror of each).  This instance fixes one wire format,
    big-endian integers, length-prefixed strings and a presence byte before
    each optional field, to show that the contract can be met. *)

Module ReferenceCodec.

Definition byteOfZ (z : Z) : Byte.byte :=
  default Byte.x00 (Byte.of_N (Z.to_N (z mod 256))).

Definition byteToZ (b : Byte.byte) : Z := Z.of_N (Byte.to_N b).

Fixpoint writeUint (width : nat) (n : Z) : bytes :=
  match width with
  | O => []
  | S w => byteOfZ (n / 256 ^ Z.of_nat w) :: writeUint w n
  end.

Fixpoint readUint (width : nat) (acc : Z) (r : bytes) : option (Z * bytes) :=
  match width with
  | O => Some (acc, r)
  | S w =>
      match r with
      | b :: r' => readUint w (acc * 256 + byteToZ b) r'
      | [] => None
      end
  end.

Definition encodeUint (width : nat) (n : Z) : result bytes :=
  if (0 <=? n) && (n <? 256 ^ Z.of_nat width)
  then Ok (writeUint width n)
  else Throw (Error "Value out of range").

Definition decodeUint (width : nat) (r : bytes) : result (Z * bytes) :=
  match readUint width 0 r with
  | Some x => Ok x
  | None => Throw (Error "Not enough data")
  end.

Definition encodeString (width : nat) (s : string) : result bytes :=
  len ← encodeUint width (Z.of_nat (String.length s));
  Ok (len ++ list_byte_of_string s).

Definition decodeString (width : nat) (r : bytes) : result (string * bytes) :=
  '(len, r) ← decodeUint width r;
  if (Z.to_nat len <=? length r)%nat
  then Ok (string_of_list_byte (take (Z.to_nat len) r), drop (Z.to_nat len) r)
  else Throw (Error "Not enough data").

(** The width in bytes of an unsigned integer type held in a number. *)
Definition numberWidth (type : string) : option nat :=
  if String.eqb type "octet" then Some 1%nat
  else if String.eqb type "short" then Some 2%nat
  else if String.eqb type "long" then Some 4%nat
  else None.

Definition isBigint (type : string) : bool :=
  String.eqb type "longlong" || String.eqb type "timestamp".

(** The width in bytes of the length prefix of a string type. *)
Definition stringWidth (type : string) : option nat :=
  if String.eqb type "shortstr" then Some 1%nat
  else if String.eqb type "longstr" then Some 4%nat
  else None.

Definition typeMismatch (type : string) : exn :=
  Error ("Cannot encode field of type " +:+ type).

Definition writeField (f : string * value) : result bytes :=
  let type := f.1 in
  match f.2 with
  | VNumber n =>
      match numberWidth type with
      | Some w => encodeUint w n
      | None => Throw (typeMismatch type)
      end
  | VBigInt n =>
      if isBigint type then encodeUint 8 n else Throw (typeMismatch type)
  | VBoolean b =>
      if String.eqb type "bit"
      then Ok [if b then Byte.x01 else Byte.x00]
      else Throw (typeMismatch type)
  | VString s =>
      match stringWidth type with
      | Some w => encodeString w s
      | None => Throw (typeMismatch type)
      end
  | VUndefined | VObject _ | VFunction _ => Throw (typeMismatch type)
  end.

Definition readField (type : string) (r : bytes) : result (value * bytes) :=
  match numberWidth type with
  | Some w => '(n, r) ← decodeUint w r; Ok (VNumber n, r)
  | None =>
      if isBigint type then '(n, r) ← decodeUint 8 r; Ok (VBigInt n, r)
      else if String.eqb type "bit" then
        match r with
        | Byte.x00 :: r' => Ok (VBoolean false, r')
        | Byte.x01 :: r' => Ok (VBoolean true, r')
        | _ => Throw (Error "Malformed bit")
        end
      else
        match stringWidth type with
        | Some w => '(s, r) ← decodeString w r; Ok (VString s, r)
        | None => Throw (Error ("Cannot decode field of type " +:+ type))
        end
  end.

Fixpoint writeFields (fs : list (string * value)) : result bytes :=
  match fs with
  | [] => Ok []
  | f :: fs' => b ← writeField f; bs ← writeFields fs'; Ok (b ++ bs)
  end.

Fixpoint readFields (r : bytes) (types : list string)
    : result (list value * bytes) :=
  match types with
  | [] => Ok ([], r)
  | t :: ts =>
      '(v, r) ← readField t r;
      '(vs, r) ← readFields r ts;
      Ok (v :: vs, r)
  end.

Definition writeOptionalField (f : string * value) : result bytes :=
  if isDefined f.2
  then b ← writeField f; Ok (Byte.x01 :: b)
  else Ok [Byte.x00].

Definition readOptionalField (type : string) (r : bytes)
    : result (value * bytes) :=
  match r with
  | Byte.x00 :: r' => Ok (VUndefined, r')
  | Byte.x01 :: r' => readField type r'
  | _ => Throw (Error "Malformed presence flag")
  end.

Fixpoint writeOptionalFields (fs : list (string * value)) : result bytes :=
  match fs with
  | [] => Ok []
  | f :: fs' =>
      b ← writeOptionalField f; bs ← writeOptionalFields fs'; Ok (b ++ bs)
  end.

Fixpoint readOptionalFields (r : bytes) (types : list string)
    : result (list value * bytes) :=
  match types with
  | [] => Ok ([], r)
  | t :: ts =>
      '(v, r) ← readOptionalField t r;
      '(vs, r) ← readOptionalFields r ts;
      Ok (v :: vs, r)
  end.

Definition codec : Codec := {|
  encodeShortUint := encodeUint 2;
  encodeLongLongUint := encodeUint 8;
  encodeFields := writeFields;
  encodeOptionalFields := writeOptionalFields;
  decodeShortUint := decodeUint 2;
  decodeLongLongUint := decodeUint 8;
  decodeFields := readFields;
  decodeOptionalFields := readOptionalFields;
|}.

(** A stand-in for [JSON.stringify] and for the string case of [BigInt]:
    integers and booleans are printed, decimal digits are not parsed. *)
Definition stringify (v : value) : string :=
  match v with
  | VNumber n => numberToString n
  | VBoolean true => "true"
  | VBoolean false => "false"
  | VString s => dq +:+ s +:+ dq
  | VObject [] => "{}"
  | _ => "null"
  end.

Definition noStringToBigInt (s : string) : option Z := None.

End ReferenceCodec.

(** ** Identifier forms, in the words of the specification

    An identifier is a first segment followed by delimited segments; no
    segment holds a delimiter. *)

Definition capitalizeFirst (segment : string) : string :=
  match segment with
  | EmptyString => EmptyString
  | String c rest => String (toUpperChar c) rest
  end.

Fixpoint concatAll (l : list string) : string :=
  match l with
  | [] => EmptyString
  | s :: l' => s +:+ concatAll l'
  end.

Definition delimited (ds : ascii * string) : string := String ds.1 ds.2.

Definition spell (first : string) (more : list (ascii * string)) : string :=
  first +:+ concatAll (map delimited more).

Fixpoint delimiterFree (s : string) : Prop :=
  match s with
  | EmptyString => True
  | String c s' => hyphenOrDot c = false /\ delimiterFree s'
  end.

(** A delimited segment: a hyphen or a dot, then a segment. *)
Definition wellDelimited (ds : ascii * string) : Prop :=
  hyphenOrDot ds.1 = true /\ delimiterFree ds.2.

Definition lowerCamelForm (first : string) (more : list (ascii * string))
    : string :=
  first +:+ concatAll (map (fun ds => capitalizeFirst ds.2) more).

Definition upperCamelForm (first : string) (more : list (ascii * string))
    : string :=
  concatAll (map capitalizeFirst (first :: map snd more)).

Definition constantForm (first : string) (more : list (ascii * string))
    : string :=
  toUpperCase (join "_" (first :: map snd more)).

(** The constant form the code computes: a hyphen becomes an underscore,
    any other delimiter stays. *)
Definition hyphenToUnderscore (ds : ascii * string) : ascii * string :=
  (if hyphen ds.1 then "_"%char else ds.1, ds.2).

(** ** Predicates of the further properties *)

(** Every character of a text passes a test. *)
Fixpoint everyChar (p : ascii -> bool) (s : string) : bool :=
  match s with
  | EmptyString => true
  | String c s' => p c && everyChar p s'
  end.

(** A character that [toUpperCase] leaves alone. *)
Definition upperCased (c : ascii) : bool := Ascii.eqb (toUpperChar c) c.

(** An argument whose type resolves. *)
Definition resolves (spec : Spec) (a : ArgumentDefinition) : Prop :=
  exists t, resolveType spec a = Ok t.

(** An argument whose type resolves to a primitive type name. *)
Definition typed (spec : Spec) (a : ArgumentDefinition) : Prop :=
  exists t, resolveType spec a = Ok t /\ In t primitiveTypes.

(** An emitter that returns its text rather than throw. *)
Definition accepted (r : result string) : Prop := exists text, r = Ok text.

(** ** Sample schema *)

Module Sample.

Definition queue : ArgumentDefinition :=
  {| arg_type := Some "shortstr"; arg_domain := None;
     arg_name := "queue-name"; arg_default_value := VUndefined |}.

Definition deliveryTag : ArgumentDefinition :=
  {| arg_type := None; arg_domain := Some "delivery-tag";
     arg_name := "delivery-tag"; arg_default_value := VNumber 0 |}.

Definition multiple : ArgumentDefinition :=
  {| arg_type := None; arg_domain := Some "bit";
     arg_name := "multiple"; arg_default_value := VBoolean false |}.

Definition untyped : ArgumentDefinition :=
  {| arg_type := None; arg_domain := None;
     arg_name := "untyped"; arg_default_value := VUndefined |}.

Definition ack : MethodDefinition :=
  {| method_id := 40; method_arguments := [queue; deliveryTag; multiple];
     method_synchronous := false; method_response := None;
     method_name := "ack"; method_content := false |}.

Definition contentType : PropertyDefinition :=
  {| prop_type := "shortstr"; prop_name := "content-type" |}.

Definition priority : PropertyDefinition :=
  {| prop_type := "octet"; prop_name := "priority" |}.

Definition basic : ClassDefinition :=
  {| class_id := 10; class_methods := [ack]; class_name := "basic";
     class_properties := Some [contentType; priority] |}.

Definition tx : ClassDefinition :=
  {| class_id := 90; class_methods := []; class_name := "tx";
     class_properties := None |}.

Definition spec : Spec :=
  {| classes := [basic; tx];
     domains := [("bit", "bit"); ("delivery-tag", "longlong")];
     constants := [{| const_name := "frame-min-size"; const_value := 4096;
                      const_class := "" |}] |}.

(** The functions of the module generated from [spec]. *)
Definition module : list Declaration :=
  Eval vm_compute in
    match emitModule spec with
    | Ok decls => decls
    | Throw _ => []
    end.

Definition headerBytes : bytes :=
  Eval vm_compute in
    match runEncodeHeader ReferenceCodec.codec (encodeHeaderFunction basic) 1000
            {[ "contentType" := VString "text/plain" ]} with
    | Ok data => data
    | Throw _ => []
    end.

Definition encodeAck : EncodeMethod :=
  Eval vm_compute in
    match encodeMethodFunction spec basic ack with
    | Ok e => e
    | Throw _ =>
        {| em_name := ""; em_argsName := ""; em_classId := 0;
           em_methodId := 0; em_fields := [] |}
    end.

Definition minimalBytes : bytes :=
  Eval vm_compute in
    match runEncodeMethod ReferenceCodec.codec ReferenceCodec.noStringToBigInt
            encodeAck {[ "queueName" := VString "x" ]} with
    | Ok data => data
    | Throw _ => []
    end.

Definition fullBytes : bytes :=
  Eval vm_compute in
    match runEncodeMethod ReferenceCodec.codec ReferenceCodec.noStringToBigInt
            encodeAck
            {[ "queueName" := VString "x";
               "deliveryTag" := VBigInt 7;
               "multiple" := VBoolean true ]} with
    | Ok data => data
    | Throw _ => []
    end.

Definition fullArgs : gmap string value :=
  {[ "queueName" := VString "x";
     "deliveryTag" := VBigInt 7;
     "multiple" := VBoolean true ]}.

Definition minimalArgs : gmap string value :=
  {[ "queueName" := VString "x" ]}.

Definition props : gmap string value :=
  {[ "contentType" := VString "text/plain" ]}.

(** Arguments the emitters reject: a type name that is no primitive type,
    and a domain given twice. *)
Definition badStorage : ArgumentDefinition :=
  {| arg_type := Some "float"; arg_domain := None;
     arg_name := "ratio"; arg_default_value := VUndefined |}.

Definition rejected : MethodDefinition :=
  {| method_id := 50; method_arguments := [queue; badStorage; untyped];
     method_synchronous := false; method_response := None;
     method_name := "rejected"; method_content := false |}.

Definition shadowed : Spec :=
  {| classes := [];
     domains := [("bit", "bit"); ("tag", "longlong"); ("tag", "short")];
     constants := [] |}.

Definition tagged : ArgumentDefinition :=
  {| arg_type := None; arg_domain := Some "tag";
     arg_name := "tag"; arg_default_value := VUndefined |}.

(** A codec whose field decoder returns a single value, whatever it is
    asked for. *)
Definition shortCodec : Codec :=
  {| encodeShortUint := encodeShortUint ReferenceCodec.codec;
     encodeLongLongUint := encodeLongLongUint ReferenceCodec.codec;
     encodeFields := encodeFields ReferenceCodec.codec;
     encodeOptionalFields := encodeOptionalFields ReferenceCodec.codec;
     decodeShortUint := decodeShortUint ReferenceCodec.codec;
     decodeLongLongUint := decodeLongLongUint ReferenceCodec.codec;
     decodeFields := fun r _ => Ok ([VString "x"], r);
     decodeOptionalFields := decodeOptionalFields ReferenceCodec.codec |}.

(** A class with a property of a type that is no primitive type. *)
Definition badProperty : ClassDefinition :=
  {| class_id := 20; class_methods := []; class_name := "file";
     class_properties :=
       Some [contentType; {| prop_type := "float"; prop_name := "ratio" |}] |}.

(** A schema whose field names are, in camel form, names of members of
    [Object.prototype]: an argument [constructor] with a default, and a
    property [to-string]. *)
Definition constructorArg : ArgumentDefinition :=
  {| arg_type := Some "shortstr"; arg_domain := None;
     arg_name := "constructor"; arg_default_value := VString "direct" |}.

Definition declare : MethodDefinition :=
  {| method_id := 10; method_arguments := [constructorArg];
     method_synchronous := true; method_response := None;
     method_name := "declare"; method_content := false |}.

Definition toStringProp : PropertyDefinition :=
  {| prop_type := "shortstr"; prop_name := "to-string" |}.

Definition exchange : ClassDefinition :=
  {| class_id := 40; class_methods := [declare]; class_name := "exchange";
     class_properties := Some [toStringProp] |}.

Definition inheriting : Spec :=
  {| classes := [exchange]; domains := []; constants := [] |}.

Definition inheritingModule : list Declaration :=
  Eval vm_compute in
    match emitModule inheriting with
    | Ok decls => decls
    | Throw _ => []
    end.

Definition encodeDeclare : EncodeMethod :=
  Eval vm_compute in
    match encodeMethodFunction inheriting exchange declare with
    | Ok e => e
    | Throw _ =>
        {| em_name := EmptyString; em_argsName := EmptyString;
           em_classId := 0; em_methodId := 0; em_fields := [] |}
    end.

(** The instance that omits the field, and the one the declared default
    would complete it to. *)
Definition omitted : gmap string value := ∅.

Definition defaulted : gmap string value :=
  {[ "constructor" := VString "direct" ]}.

(** Two classes with one class id. *)
Definition twice : Spec :=
  {| classes := [basic;
                 {| class_id := 10; class_methods := [];
                    class_name := "shadow"; class_properties := None |}];
     domains := domains spec;
     constants := [] |}.

End Sample.

(** * Properties *)

(** ** Strings and the error monad *)

Lemma append_cons (c : ascii) (s t : string) :
  String c s +:+ t = String c (s +:+ t).
Proof. reflexivity. Qed.

Lemma append_empty_r (s : string) : s +:+ "" = s.
Proof.
  induction s as [|c s IH]; [reflexivity|]. now rewrite append_cons, IH.
Qed.

Lemma append_assoc (s t u : string) : (s +:+ t) +:+ u = s +:+ (t +:+ u).
Proof.
  induction s as [|c s IH]; [reflexivity|]. now rewrite !append_cons, IH.
Qed.

Lemma substring_all (s : string) : String.substring 0 (String.length s) s = s.
Proof. induction s as [|c s IH]; cbn; [reflexivity | now rewrite IH]. Qed.

Lemma join_empty (l : list string) : join "" l = concatAll l.
Proof.
  induction l as [|x l IH]; [reflexivity|].
  destruct l as [|y l].
  - symmetry. apply append_empty_r.
  - change (join "" (x :: y :: l)) with (x +:+ "" +:+ join "" (y :: l)).
    rewrite IH. reflexivity.
Qed.

(** Reduce the sequencing of the error monad, and nothing else. *)
Ltac monad := cbn [mbind result_bind mret result_ret fmap result_fmap].

Lemma bind_Ok {A B : Type} (m : result A) (f : A -> result B) (b : B) :
  m ≫= f = Ok b -> exists a, m = Ok a /\ f a = Ok b.
Proof. destruct m as [a|e]; cbn; [eauto | discriminate]. Qed.

Lemma mapM_cons {A B : Type} (f : A -> result B) (x : A) (l : list A) :
  mapM f (x :: l) = y ← f x; ys ← mapM f l; Ok (y :: ys).
Proof. reflexivity. Qed.

Lemma mapM_fmap {A B C : Type} (f : A -> result C) (g : A -> result B)
    (r : B -> C) (l : list A) :
  (forall x, f x = r <$> g x) -> mapM f l = map r <$> mapM g l.
Proof.
  intros Hfg. induction l as [|x l IH]; [reflexivity|].
  rewrite !mapM_cons, Hfg, IH.
  destruct (g x); cbn; [|reflexivity].
  destruct (mapM g l); reflexivity.
Qed.

Lemma imapM_from_fmap {A B C : Type} (f : nat -> A -> result C)
    (g : nat -> A -> result B) (r : B -> C) (l : list A) (i : nat) :
  (forall i x, f i x = r <$> g i x) ->
  imapM_from i f l = map r <$> imapM_from i g l.
Proof.
  intros Hfg. revert i. induction l as [|x l IH]; intros i; [reflexivity|].
  cbn. rewrite Hfg, IH.
  destruct (g i x); cbn; [|reflexivity].
  destruct (imapM_from (S i) g l); reflexivity.
Qed.

Lemma mapM_Ok_Forall2 {A B : Type} (f : A -> result B) (l : list A)
    (k : list B) :
  mapM f l = Ok k -> Forall2 (fun x y => f x = Ok y) l k.
Proof.
  revert k. induction l as [|x l IH]; intros k H.
  - injection H as <-. constructor.
  - rewrite mapM_cons in H.
    apply bind_Ok in H as (y & Hy & H).
    apply bind_Ok in H as (ys & Hys & H).
    injection H as <-. constructor; auto.
Qed.

Lemma mapM_Ok_In {A B : Type} (f : A -> result B) (l : list A) (k : list B)
    (x : A) :
  mapM f l = Ok k -> In x l -> exists y, f x = Ok y /\ In y k.
Proof.
  intros H%mapM_Ok_Forall2 Hx.
  induction H as [|x' y' l k Hxy _ IH]; [contradiction|].
  destruct Hx as [<-|Hx].
  - exists y'. split; [assumption | now left].
  - destruct (IH Hx) as (y & Hy & Hin). exists y. split; [assumption | now right].
Qed.

(** ** Type resolution *)

Lemma find_domain_first (table : list (string * string)) (dom type : string) :
  In (dom, type) table ->
  (forall type', In (dom, type') table -> type' = type) ->
  List.find (fun d => String.eqb d.1 dom) table = Some (dom, type).
Proof.
  induction table as [|[n t] table IH]; intros Hin Hfun; [contradiction|].
  cbn. destruct (String.eqb_spec n dom) as [->|Hne].
  - now rewrite (Hfun t (or_introl eq_refl)).
  - destruct Hin as [[= ? ?]|Hin]; [congruence|].
    apply IH; [assumption|]. intros t' Ht'. apply Hfun. now right.
Qed.

Lemma find_domain_none (table : list (string * string)) (dom : string) :
  ~ In dom (map fst table) ->
  List.find (fun d => String.eqb d.1 dom) table = None.
Proof.
  induction table as [|[n t] table IH]; intros Hnot; [reflexivity|].
  cbn. destruct (String.eqb_spec n dom) as [->|Hne].
  - exfalso. apply Hnot. now left.
  - apply IH. intros Hin. apply Hnot. now right.
Qed.

(** C4.  An explicit type wins, also over a domain; without a type, a
    domain of the table gives the type the table maps it to; a domain that
    is not in the table fails with [UnknownDomain]; with neither a type nor
    a domain the call fails with [UnresolvedType]. *)
Theorem resolveType_cases (spec : Spec) (arg : ArgumentDefinition) :
  (forall type, arg_type arg = Some type -> resolveType spec arg = Ok type)
  /\ (forall dom type,
        arg_type arg = None -> arg_domain arg = Some dom ->
        In (dom, type) (domains spec) ->
        (forall type', In (dom, type') (domains spec) -> type' = type) ->
        resolveType spec arg = Ok type)
  /\ (forall dom,
        arg_type arg = None -> arg_domain arg = Some dom ->
        ~ In dom (map fst (domains spec)) ->
        resolveType spec arg = Throw UnknownDomain)
  /\ (arg_type arg = None -> arg_domain arg = None ->
      resolveType spec arg = Throw UnresolvedType).
Proof.
  unfold resolveType. repeat split.
  - intros type ->. reflexivity.
  - intros dom type -> -> Hin Hfun.
    now rewrite (find_domain_first _ _ _ Hin Hfun).
  - intros dom -> -> Hnot. now rewrite (find_domain_none _ _ Hnot).
  - intros -> ->. reflexivity.
Qed.

Lemma resolveType_cases_witness :
  resolveType Sample.spec Sample.queue = Ok "shortstr"
  /\ resolveType Sample.spec Sample.deliveryTag = Ok "longlong"
  /\ resolveType
       {| classes := []; domains := [("bit", "bit")]; constants := [] |}
       Sample.deliveryTag = Throw UnknownDomain
  /\ resolveType Sample.spec Sample.untyped = Throw UnresolvedType.
Proof.
  split; [|split; [|split]].
  - apply (proj1 (resolveType_cases Sample.spec Sample.queue)). reflexivity.
  - apply (proj1 (proj2 (resolveType_cases Sample.spec Sample.deliveryTag))
             "delivery-tag" "longlong"); [reflexivity | reflexivity | |].
    + cbn. right. left. reflexivity.
    + cbn. intros type' [H|[H|[]]]; congruence.
  - apply (proj1 (proj2 (proj2 (resolveType_cases _ Sample.deliveryTag)))
             "delivery-tag"); [reflexivity | reflexivity |].
    cbn. intros [H|[]]. discriminate H.
  - apply (proj2 (proj2 (proj2 (resolveType_cases Sample.spec Sample.untyped))));
      reflexivity.
Defined.

(** C6.  The storage type of each primitive type name, and the failure on
    every other name. *)
Theorem resolveTypescriptType_table :
  resolveTypescriptType "longlong" = Ok "bigint"
  /\ resolveTypescriptType "timestamp" = Ok "bigint"
  /\ resolveTypescriptType "bit" = Ok "boolean"
  /\ resolveTypescriptType "shortstr" = Ok "string"
  /\ resolveTypescriptType "longstr" = Ok "string"
  /\ resolveTypescriptType "table" = Ok "Record<string, unknown>"
  /\ resolveTypescriptType "short" = Ok "number"
  /\ resolveTypescriptType "long" = Ok "number"
  /\ resolveTypescriptType "octet" = Ok "number"
  /\ forall type : string,
       (In type primitiveTypes /\ exists ts, resolveTypescriptType type = Ok ts)
       \/ (~ In type primitiveTypes
           /\ resolveTypescriptType type = Throw (UnknownPrimitiveType type)).
Proof.
  repeat (split; [reflexivity|]).
  intros type. unfold resolveTypescriptType, primitiveTypes.
  repeat match goal with
         | |- context [String.eqb type ?s] =>
             destruct (String.eqb_spec type s) as [->|?];
             [left; split; [cbn; tauto | eexists; reflexivity]|]
         end.
  right. split; [|reflexivity].
  cbn. intuition congruence.
Qed.

(** ** Identifier forms *)

Lemma capitalize_capitalizeFirst (word : string) :
  capitalize word = capitalizeFirst word.
Proof.
  destruct word as [|c rest]; [reflexivity|].
  unfold capitalize, charAt, slice. cbn [String.get String.length toUpperCase].
  rewrite Nat.sub_succ, Nat.sub_0_r.
  cbn [String.substring]. rewrite substring_all. reflexivity.
Qed.

Lemma split_nonempty (sep : ascii -> bool) (s : string) : split sep s <> [].
Proof.
  destruct s as [|c s]; cbn; [discriminate|].
  destruct (sep c); [discriminate|]. now destruct (split sep s).
Qed.

Lemma split_free_append (s t : string) :
  delimiterFree s ->
  split hyphenOrDot (s +:+ t) =
    match split hyphenOrDot t with
    | seg :: segs => (s +:+ seg) :: segs
    | [] => [s]
    end.
Proof.
  induction s as [|c s IH]; intros Hfree.
  - change ("" +:+ t) with t.
    destruct (split hyphenOrDot t) eqn:E; [|reflexivity].
    now apply split_nonempty in E.
  - destruct Hfree as [Hc Hs]. rewrite append_cons. cbn [split].
    rewrite Hc, (IH Hs).
    destruct (split hyphenOrDot t); reflexivity.
Qed.

Lemma split_spell (first : string) (more : list (ascii * string)) :
  delimiterFree first -> Forall wellDelimited more ->
  split hyphenOrDot (spell first more) = first :: map snd more.
Proof.
  intros Hfirst Hmore. revert first Hfirst.
  induction Hmore as [|[d s] more [Hd Hs] _ IH]; intros first Hfirst.
  - unfold spell. rewrite (split_free_append _ _ Hfirst). cbn.
    now rewrite append_empty_r.
  - unfold spell. rewrite (split_free_append _ _ Hfirst).
    change (concatAll (map delimited ((d, s) :: more)))
      with (String d (spell s more)).
    cbn [split]. cbn in Hd. rewrite Hd, (IH s Hs). cbn.
    now rewrite append_empty_r.
Qed.

Lemma map_capitalize (l : list string) :
  map capitalize l = map capitalizeFirst l.
Proof. apply map_ext, capitalize_capitalizeFirst. Qed.

Lemma replace_append (s t : string) :
  replace hyphen "_" (s +:+ t) = replace hyphen "_" s +:+ replace hyphen "_" t.
Proof.
  induction s as [|c s IH]; [reflexivity|].
  rewrite append_cons. cbn [replace]. rewrite IH.
  destruct (hyphen c); reflexivity.
Qed.

Lemma hyphen_hyphenOrDot (c : ascii) : hyphenOrDot c = false -> hyphen c = false.
Proof. unfold hyphenOrDot, hyphen. now intros [? _]%orb_false_iff. Qed.

Lemma replace_free (s : string) :
  delimiterFree s -> replace hyphen "_" s = s.
Proof.
  induction s as [|c s IH]; [reflexivity|]. intros [Hc Hs].
  cbn [replace]. now rewrite (hyphen_hyphenOrDot _ Hc), (IH Hs).
Qed.

Lemma replace_spell (first : string) (more : list (ascii * string)) :
  delimiterFree first -> Forall wellDelimited more ->
  replace hyphen "_" (spell first more) = spell first (map hyphenToUnderscore more).
Proof.
  intros Hfirst Hmore. unfold spell.
  rewrite replace_append, (replace_free _ Hfirst). f_equal.
  induction Hmore as [|[d s] more [Hd Hs] _ IH]; [reflexivity|].
  cbn [map concatAll]. rewrite replace_append, IH. f_equal.
  unfold delimited, hyphenToUnderscore. cbn [fst snd replace] in *.
  destruct (hyphen d); now rewrite (replace_free _ Hs).
Qed.

Lemma spell_hyphens (first : string) (more : list (ascii * string)) :
  Forall (fun ds => ds.1 = "-"%char) more ->
  spell first (map hyphenToUnderscore more) = join "_" (first :: map snd more).
Proof.
  intros Hmore. revert first.
  induction Hmore as [|[d s] more Hd _ IH]; intros first.
  - unfold spell. cbn. apply append_empty_r.
  - cbn in Hd. subst d. specialize (IH s).
    change (join "_" (first :: map snd (("-"%char, s) :: more)))
      with (first +:+ "_" +:+ join "_" (s :: map snd more)).
    rewrite <- IH. reflexivity.
Qed.

(** X20.  For an identifier spelt as a first segment
    followed by delimited segments: the lower-camel form keeps the first
    segment and capitalizes the first letter of the others, the upper-camel
    form capitalizes the first letter of every segment, and the constant
    form is the identifier in upper case with each hyphen turned into an
    underscore; when every delimiter is a hyphen, that is the segments
    joined with underscores, in upper case. *)
Theorem identifier_forms (first : string) (more : list (ascii * string)) :
  delimiterFree first -> Forall wellDelimited more ->
  camelCase (spell first more) = lowerCamelForm first more
  /\ pascalCase (spell first more) = upperCamelForm first more
  /\ constantName (spell first more)
     = toUpperCase (spell first (map hyphenToUnderscore more))
  /\ (Forall (fun ds => ds.1 = "-"%char) more ->
      constantName (spell first more) = constantForm first more).
Proof.
  intros Hfirst Hmore.
  pose proof (split_spell first more Hfirst Hmore) as Hsplit.
  pose proof (replace_spell first more Hfirst Hmore) as Hreplace.
  repeat split.
  - unfold camelCase, lowerCamelForm. rewrite Hsplit, join_empty, map_capitalize.
    now rewrite map_map.
  - unfold pascalCase, upperCamelForm.
    now rewrite Hsplit, join_empty, map_capitalize.
  - unfold constantName. now rewrite Hreplace.
  - intros Hhyphens. unfold constantName, constantForm.
    now rewrite Hreplace, spell_hyphens.
Qed.

Lemma identifier_forms_witness :
  camelCase "queue-name" = "queueName"
  /\ pascalCase "queue-name" = "QueueName"
  /\ constantName "frame-min-size" = "FRAME_MIN_SIZE"
  /\ constantName "basic.qos-ok" = "BASIC.QOS_OK".
Proof.
  assert (Hq : delimiterFree "queue" /\ Forall wellDelimited [("-"%char, "name")]).
  { split; [cbn; tauto|]. repeat constructor. }
  assert (Hf : delimiterFree "frame"
               /\ Forall wellDelimited [("-"%char, "min"); ("-"%char, "size")]).
  { split; [cbn; tauto|]. repeat constructor. }
  assert (Hb : delimiterFree "basic"
               /\ Forall wellDelimited [("."%char, "qos"); ("-"%char, "ok")]).
  { split; [cbn; tauto|]. repeat constructor. }
  split; [|split; [|split]].
  - exact (proj1 (identifier_forms "queue" _ (proj1 Hq) (proj2 Hq))).
  - exact (proj1 (proj2 (identifier_forms "queue" _ (proj1 Hq) (proj2 Hq)))).
  - refine (proj2 (proj2 (proj2 (identifier_forms "frame" _ (proj1 Hf) (proj2 Hf)))) _).
    repeat constructor.
  - exact (proj1 (proj2 (proj2 (identifier_forms "basic" _ (proj1 Hb) (proj2 Hb))))).
Defined.

(** C7.  The three forms of the identifier [a.b].  Both camel forms split
    it at the dot: [aB] and [AB].  The constant form as specified, the
    segments joined with underscores in upper case, is [A_B];
    [constantName], which replaces hyphens only, returns [A.B]. *)
Theorem constantName_keeps_dot :
  delimiterFree "a" /\ Forall wellDelimited [("."%char, "b")]
  /\ camelCase (spell "a" [("."%char, "b")]) = "aB"
  /\ pascalCase (spell "a" [("."%char, "b")]) = "AB"
  /\ constantName (spell "a" [("."%char, "b")]) = "A.B"
  /\ constantForm "a" [("."%char, "b")] = "A_B"
  /\ constantName (spell "a" [("."%char, "b")])
     <> constantForm "a" [("."%char, "b")].
Proof.
  split; [cbn; tauto|]. split; [repeat constructor|].
  split; [reflexivity|]. split; [reflexivity|].
  split; [reflexivity|]. split; [reflexivity|]. discriminate.
Qed.

(** ** The emitted text is the emitted structure, printed *)

(** Two texts built from the same pieces, grouped differently. *)
Ltac same_text :=
  cbn -[String.append numberToString camelCase pascalCase join];
  rewrite ?append_assoc, ?append_empty_r; reflexivity.

Section Text.

Variable JSON_stringify : value -> string.

Lemma printClassPropertyInterface_text (clazz : ClassDefinition) :
  printClassPropertyInterface clazz
  = printPropertyInterface JSON_stringify <$> classPropertyInterface clazz.
Proof.
  unfold printClassPropertyInterface, classPropertyInterface.
  rewrite (mapM_fmap _ propertyField (printField JSON_stringify "")).
  - destruct (mapM _ _); [|reflexivity].
    unfold printPropertyInterface, printExtends. same_text.
  - intros prop. unfold propertyField.
    destruct (resolveTypescriptType (prop_type prop)); [|reflexivity].
    unfold printField. same_text.
Qed.

Lemma printMethodArgsInterface_text (spec : Spec) (clazz : ClassDefinition)
    (method : MethodDefinition) :
  printMethodArgsInterface JSON_stringify spec clazz method
  = printMethodInterface JSON_stringify
      <$> methodArgsInterface spec clazz method.
Proof.
  unfold printMethodArgsInterface, methodArgsInterface.
  rewrite (mapM_fmap _ (argsField spec) (printField JSON_stringify ";")).
  - destruct (mapM _ _); [|reflexivity].
    unfold printMethodInterface, printExtends. same_text.
  - intros arg. unfold argsField. cbn zeta.
    destruct (resolveType spec arg ≫= resolveTypescriptType); [|reflexivity].
    unfold printField.
    destruct (isDefined (arg_default_value arg)); same_text.
Qed.

Lemma printMethodValueInterface_text (spec : Spec) (clazz : ClassDefinition)
    (method : MethodDefinition) :
  printMethodValueInterface spec clazz method
  = printMethodInterface JSON_stringify
      <$> methodValueInterface spec clazz method.
Proof.
  unfold printMethodValueInterface, methodValueInterface.
  rewrite (mapM_fmap _ (valueField spec) (printField JSON_stringify ";")).
  - destruct (mapM _ _); [|reflexivity].
    unfold printMethodInterface, printExtends. same_text.
  - intros arg. unfold valueField.
    destruct (resolveType spec arg ≫= resolveTypescriptType); [|reflexivity].
    unfold printField. same_text.
Qed.

Lemma getDefaultValue_text (spec : Spec) (a : ArgumentDefinition) :
  interpolate <$> getDefaultValue JSON_stringify spec a
  = printDefaultExpr JSON_stringify <$> defaultExpr spec a.
Proof.
  unfold getDefaultValue, defaultExpr.
  destruct (isDefined (arg_default_value a)); cbn; [|reflexivity].
  destruct (resolveType spec a) as [t|]; cbn; [|reflexivity].
  destruct (resolveTypescriptType t) as [ts|]; cbn; [|reflexivity].
  destruct (String.eqb ts "bigint"); reflexivity.
Qed.

Lemma printEncodeMethodFunction_text (spec : Spec) (clazz : ClassDefinition)
    (method : MethodDefinition) :
  printEncodeMethodFunction JSON_stringify spec clazz method
  = printEncodeMethod JSON_stringify
      <$> encodeMethodFunction spec clazz method.
Proof.
  unfold printEncodeMethodFunction, encodeMethodFunction.
  rewrite (mapM_fmap _ (encodeField spec) (printEncodeField JSON_stringify)).
  - destruct (mapM _ _); [|reflexivity].
    unfold printEncodeMethod. same_text.
  - intros arg. unfold encodeField.
    destruct (resolveType spec arg) as [t|]; [|reflexivity].
    pose proof (getDefaultValue_text spec arg) as Hd.
    destruct (getDefaultValue JSON_stringify spec arg) as [d|],
             (defaultExpr spec arg) as [d'|]; cbn in Hd; try discriminate;
      [|now injection Hd as ->].
    injection Hd as Hd. cbn [mbind result_bind fmap result_fmap].
    unfold printEncodeField, printValueExpr. cbn [ef_type ef_value].
    destruct (isDefined (arg_default_value arg)); [rewrite Hd|]; same_text.
Qed.

Lemma printDecodeMethodFunction_text (spec : Spec) (clazz : ClassDefinition)
    (method : MethodDefinition) :
  printDecodeMethodFunction spec clazz method
  = printDecodeMethod <$> decodeMethodFunction spec clazz method.
Proof.
  unfold printDecodeMethodFunction, decodeMethodFunction, imapM.
  rewrite (mapM_fmap _ (resolveType spec) printTypeName).
  2:{ intros arg. destruct (resolveType spec arg); reflexivity. }
  destruct (mapM _ _) as [types|]; [|reflexivity].
  cbn [fmap result_fmap mbind result_bind].
  rewrite (imapM_from_fmap _ (decodedField spec) printDecodedField).
  2:{ intros i arg. unfold decodedField.
      destruct (resolveType spec arg ≫= resolveTypescriptType); reflexivity. }
  destruct (imapM_from _ _ _); [|reflexivity].
  unfold printDecodeMethod. same_text.
Qed.

Lemma printMethodDecoder_text (spec : Spec) :
  printMethodDecoder spec = printMethodDecoderFn (methodDecoder spec).
Proof.
  unfold printMethodDecoder, printMethodDecoderFn, methodDecoder.
  cbn [md_cases]. rewrite map_map.
  erewrite (map_ext _ (fun clazz => printClassCase (classCase clazz)));
    [reflexivity|].
  intros clazz. unfold printClassCase, classCase.
  cbn [cc_id cc_methods cc_className]. rewrite map_map. reflexivity.
Qed.

Lemma printEncodeHeaderFunction_text (clazz : ClassDefinition) :
  printEncodeHeaderFunction clazz
  = printEncodeHeader (encodeHeaderFunction clazz).
Proof.
  unfold printEncodeHeaderFunction, printEncodeHeader, encodeHeaderFunction.
  cbn [eh_name eh_argName eh_classId eh_weight eh_fields].
  rewrite map_map. same_text.
Qed.

Lemma printDecodeHeaderFunction_text (clazz : ClassDefinition) :
  printDecodeHeaderFunction clazz
  = printDecodeHeader <$> decodeHeaderFunction clazz.
Proof.
  unfold printDecodeHeaderFunction, decodeHeaderFunction, imapM.
  rewrite (imapM_from_fmap _ decodedProperty printDecodedField).
  2:{ intros i p. unfold decodedProperty.
      destruct (resolveTypescriptType (prop_type p)); reflexivity. }
  destruct (imapM_from _ _ _); [|reflexivity].
  unfold printDecodeHeader.
  cbn -[String.append numberToString camelCase pascalCase join].
  rewrite map_map. same_text.
Qed.

Lemma printHeaderDecoder_text (spec : Spec) :
  printHeaderDecoder spec = printHeaderDecoderFn (headerDecoder spec).
Proof.
  unfold printHeaderDecoder, printHeaderDecoderFn, headerDecoder.
  cbn [hd_cases]. rewrite map_map.
  erewrite (map_ext _ (fun clazz => printHeaderCase (headerCase clazz)));
    [reflexivity|].
  intros clazz. unfold printHeaderCase, headerCase. same_text.
Qed.

End Text.

(** ** Interfaces and type lists *)

Lemma isDefined_true (v : value) : isDefined v = true <-> v <> VUndefined.
Proof. destruct v; cbn; split; congruence. Qed.

Lemma argsField_reflects (spec : Spec) (arg : ArgumentDefinition) (f : Field) :
  argsField spec arg = Ok f -> reflectsArgument arg f.
Proof.
  unfold argsField. cbn zeta. intros H.
  apply bind_Ok in H as (type & _ & H). injection H as <-.
  unfold reflectsArgument. cbn. split; [reflexivity|].
  split; [apply isDefined_true | reflexivity].
Qed.

Lemma valueFields_copy (spec : Spec) (args : list ArgumentDefinition)
    (fas : list Field) :
  mapM (argsField spec) args = Ok fas ->
  exists fvs, mapM (valueField spec) args = Ok fvs /\ Forall2 mandatoryCopy fas fvs.
Proof.
  revert fas. induction args as [|arg args IH]; intros fas H.
  - injection H as <-. exists []. split; [reflexivity | constructor].
  - rewrite mapM_cons in H.
    apply bind_Ok in H as (fa & Hfa & H).
    apply bind_Ok in H as (fas' & Hfas & H). injection H as <-.
    destruct (IH _ Hfas) as (fvs & Hfvs & Hcopy).
    unfold argsField in Hfa. cbn zeta in Hfa.
    apply bind_Ok in Hfa as (type & Htype & Hfa). injection Hfa as <-.
    assert (Hfv : exists fv, valueField spec arg = Ok fv
                             /\ field_name fv = camelCase (arg_name arg)
                             /\ field_type fv = type
                             /\ field_optional fv = false).
    { unfold valueField. rewrite Htype. eexists. repeat split. }
    destruct Hfv as (fv & Hfv & Hname & Htype' & Hoptional).
    exists (fv :: fvs). rewrite mapM_cons, Hfv, Hfvs.
    split; [reflexivity|].
    constructor; [|assumption]. repeat split; assumption.
Qed.

(** C5.  In the arguments declaration a field is optional exactly when its
    argument carries a default value, and then it is annotated with that
    default; the full value declaration has the same fields, in the same
    order and with the same types, all mandatory. *)
Theorem method_interfaces (JSON_stringify : value -> string) (spec : Spec)
    (clazz : ClassDefinition) (method : MethodDefinition) (ia : Interface) :
  methodArgsInterface spec clazz method = Ok ia ->
  exists iv : Interface,
    methodValueInterface spec clazz method = Ok iv
    /\ printMethodArgsInterface JSON_stringify spec clazz method
       = Ok (printMethodInterface JSON_stringify ia)
    /\ printMethodValueInterface spec clazz method
       = Ok (printMethodInterface JSON_stringify iv)
    /\ Forall2 reflectsArgument (method_arguments method) (iface_fields ia)
    /\ Forall2 mandatoryCopy (iface_fields ia) (iface_fields iv).
Proof.
  intros Ha.
  assert (Hfields : mapM (argsField spec) (method_arguments method)
                    = Ok (iface_fields ia)).
  { unfold methodArgsInterface in Ha.
    apply bind_Ok in Ha as (fields & Hfields & Ha). now injection Ha as <-. }
  destruct (valueFields_copy _ _ _ Hfields) as (fvs & Hfvs & Hcopy).
  eexists. split.
  { unfold methodValueInterface. rewrite Hfvs. reflexivity. }
  split; [now rewrite printMethodArgsInterface_text, Ha|].
  split.
  { rewrite (printMethodValueInterface_text JSON_stringify).
    unfold methodValueInterface. rewrite Hfvs. reflexivity. }
  split; [|exact Hcopy].
  apply mapM_Ok_Forall2 in Hfields.
  eapply Forall2_impl; [exact Hfields|]. apply argsField_reflects.
Qed.

Lemma method_interfaces_witness :
  exists ia iv : Interface,
    methodArgsInterface Sample.spec Sample.basic Sample.ack = Ok ia
    /\ methodValueInterface Sample.spec Sample.basic Sample.ack = Ok iv
    /\ map field_optional (iface_fields ia) = [false; true; true]
    /\ map field_optional (iface_fields iv) = [false; false; false]
    /\ Forall2 mandatoryCopy (iface_fields ia) (iface_fields iv).
Proof.
  eexists.
  destruct (method_interfaces ReferenceCodec.stringify Sample.spec Sample.basic
              Sample.ack _ eq_refl) as (iv & Hv & _ & _ & _ & Hcopy).
  exists iv. split; [reflexivity|]. split; [exact Hv|].
  split; [reflexivity|]. split; [|exact Hcopy].
  vm_compute in Hv. injection Hv as <-. reflexivity.
Defined.

Lemma encodeField_type (spec : Spec) (arg : ArgumentDefinition) (f : EncodeField) :
  encodeField spec arg = Ok f -> resolveType spec arg = Ok (ef_type f).
Proof.
  unfold encodeField. intros H.
  apply bind_Ok in H as (type & Htype & H).
  apply bind_Ok in H as (d & _ & H). injection H as <-. exact Htype.
Qed.

Lemma encodeFields_types (spec : Spec) (args : list ArgumentDefinition)
    (fields : list EncodeField) (types : list string) :
  mapM (encodeField spec) args = Ok fields ->
  mapM (resolveType spec) args = Ok types ->
  map ef_type fields = types.
Proof.
  revert fields types. induction args as [|arg args IH]; intros fields types Hf Ht.
  - injection Hf as <-. injection Ht as <-. reflexivity.
  - rewrite mapM_cons in Hf. rewrite mapM_cons in Ht.
    apply bind_Ok in Hf as (f & Hf1 & Hf).
    apply bind_Ok in Hf as (fs & Hfs & Hf). injection Hf as <-.
    apply bind_Ok in Ht as (t & Ht1 & Ht).
    apply bind_Ok in Ht as (ts & Hts & Ht). injection Ht as <-.
    apply encodeField_type in Hf1. cbn. f_equal; [congruence | now apply IH].
Qed.

Lemma decodeMethodFunction_types (spec : Spec) (clazz : ClassDefinition)
    (method : MethodDefinition) (d : DecodeMethod) :
  decodeMethodFunction spec clazz method = Ok d ->
  mapM (resolveType spec) (method_arguments method) = Ok (dm_types d)
  /\ imapM (decodedField spec) (method_arguments method) = Ok (dm_args d).
Proof.
  unfold decodeMethodFunction. intros H.
  apply bind_Ok in H as (types & Htypes & H).
  apply bind_Ok in H as (args & Hargs & H). injection H as <-. now split.
Qed.

Lemma encodeMethodFunction_fields (spec : Spec) (clazz : ClassDefinition)
    (method : MethodDefinition) (e : EncodeMethod) :
  encodeMethodFunction spec clazz method = Ok e ->
  mapM (encodeField spec) (method_arguments method) = Ok (em_fields e)
  /\ em_classId e = class_id clazz /\ em_methodId e = method_id method.
Proof.
  unfold encodeMethodFunction. intros H.
  apply bind_Ok in H as (fields & Hfields & H). injection H as <-. now split.
Qed.

(** C2.  The types the emitted encode function passes to [encodeFields] are,
    position by position, the types the emitted decode function passes to
    [decodeFields], and both are [resolveType] of the method's arguments in
    declaration order. *)
Theorem field_types_agree (JSON_stringify : value -> string) (spec : Spec)
    (clazz : ClassDefinition) (method : MethodDefinition)
    (e : EncodeMethod) (d : DecodeMethod) :
  encodeMethodFunction spec clazz method = Ok e ->
  decodeMethodFunction spec clazz method = Ok d ->
  printEncodeMethodFunction JSON_stringify spec clazz method
    = Ok (printEncodeMethod JSON_stringify e)
  /\ printDecodeMethodFunction spec clazz method = Ok (printDecodeMethod d)
  /\ map ef_type (em_fields e) = dm_types d
  /\ Forall2 (fun arg type => resolveType spec arg = Ok type)
       (method_arguments method) (dm_types d).
Proof.
  intros He Hd.
  split; [now rewrite printEncodeMethodFunction_text, He|].
  split; [now rewrite printDecodeMethodFunction_text, Hd|].
  apply encodeMethodFunction_fields in He as (Hfields & _).
  apply decodeMethodFunction_types in Hd as (Htypes & _).
  split; [exact (encodeFields_types _ _ _ _ Hfields Htypes)|].
  now apply mapM_Ok_Forall2.
Qed.

Lemma field_types_agree_witness :
  exists (e : EncodeMethod) (d : DecodeMethod),
    encodeMethodFunction Sample.spec Sample.basic Sample.ack = Ok e
    /\ decodeMethodFunction Sample.spec Sample.basic Sample.ack = Ok d
    /\ map ef_type (em_fields e) = dm_types d
    /\ dm_types d = ["shortstr"; "longlong"; "bit"].
Proof.
  do 2 eexists.
  pose proof (field_types_agree ReferenceCodec.stringify Sample.spec
                Sample.basic Sample.ack _ _ eq_refl eq_refl)
    as (_ & _ & Htypes & _).
  split; [reflexivity|]. split; [reflexivity|].
  split; [exact Htypes | reflexivity].
Defined.

(** C10.  A class without a properties list is handled as a class with an
    empty one by all three header emitters: the properties declaration has
    no field, the header encode function passes no optional field to the
    codec, and the header decode function asks the codec for no field and
    builds an empty properties value. *)
Theorem class_without_properties (JSON_stringify : value -> string) (id : Z)
    (methods : list MethodDefinition) (name : string) :
  let clazz := {| class_id := id; class_methods := methods;
                  class_name := name; class_properties := None |} in
  (exists i, classPropertyInterface clazz = Ok i
             /\ printClassPropertyInterface clazz
                = Ok (printPropertyInterface JSON_stringify i)
             /\ iface_fields i = [])
  /\ printEncodeHeaderFunction clazz
     = printEncodeHeader (encodeHeaderFunction clazz)
  /\ eh_fields (encodeHeaderFunction clazz) = []
  /\ (forall (enc : Codec) (size : Z) (props : gmap string value),
        runEncodeHeader enc (encodeHeaderFunction clazz) size props
        = (b1 ← encodeShortUint enc id;
           b2 ← encodeShortUint enc 0;
           b3 ← encodeLongLongUint enc size;
           b4 ← encodeOptionalFields enc [];
           Ok (((b1 ++ b2) ++ b3) ++ b4)))
  /\ (exists f, decodeHeaderFunction clazz = Ok f
                /\ printDecodeHeaderFunction clazz = Ok (printDecodeHeader f)
                /\ dh_types f = [] /\ dh_props f = []
                /\ forall (enc : Codec) (r r' : bytes) (h : Header),
                     runDecodeHeader enc f r = Ok (h, r') -> h_props h = ∅).
Proof.
  intros clazz. split; [|split; [|split; [|split]]].
  - eexists. split; [reflexivity|]. split; [|reflexivity].
    now rewrite (printClassPropertyInterface_text JSON_stringify).
  - apply printEncodeHeaderFunction_text.
  - reflexivity.
  - reflexivity.
  - eexists. split; [reflexivity|]. split.
    { now rewrite printDecodeHeaderFunction_text. }
    split; [reflexivity|]. split; [reflexivity|].
    intros enc r r' h H. unfold runDecodeHeader in H.
    apply bind_Ok in H as ([weight r1] & _ & H).
    apply bind_Ok in H as ([size r2] & _ & H).
    apply bind_Ok in H as ([fields r3] & _ & H).
    now injection H as <- _.
Qed.

(** ** Dispatch *)

Lemma switch_none {C : Type} (label : C -> Z) (x : Z) (cases : list C) :
  (forall c, In c cases -> label c <> x) -> switch label x cases = None.
Proof.
  unfold switch. induction cases as [|c cases IH]; intros H; [reflexivity|].
  cbn. destruct (Z.eqb_spec (label c) x) as [Heq|_].
  - exfalso. exact (H c (or_introl eq_refl) Heq).
  - apply IH. intros c' Hc'. apply H. now right.
Qed.

Lemma switch_unique {C : Type} (label : C -> Z) (cases : list C) (c : C) :
  NoDup (map label cases) -> In c cases ->
  switch label (label c) cases = Some c.
Proof.
  unfold switch. induction cases as [|c' cases IH]; intros Hnodup Hin;
    [contradiction|].
  cbn in Hnodup. apply NoDup_cons in Hnodup as [Hnotin Hnodup].
  cbn. destruct Hin as [->|Hin]; [now rewrite Z.eqb_refl|].
  destruct (Z.eqb_spec (label c') (label c)) as [Heq|_]; [|now apply IH].
  exfalso. apply Hnotin. rewrite Heq. now apply list_elem_of_In, in_map.
Qed.

Lemma switch_map {C D : Type} (f : C -> D) (label : C -> Z) (label' : D -> Z)
    (x : Z) (cases : list C) :
  (forall c, label' (f c) = label c) ->
  switch label' x (map f cases) = f <$> switch label x cases.
Proof.
  intros Hlabel. unfold switch.
  induction cases as [|c cases IH]; [reflexivity|].
  cbn. rewrite Hlabel. destruct (label c =? x); [reflexivity | exact IH].
Qed.

Lemma switch_classCase (spec : Spec) (x : Z) :
  switch cc_id x (md_cases (methodDecoder spec))
  = classCase <$> switch class_id x (classes spec).
Proof. apply switch_map. reflexivity. Qed.

Lemma switch_methodCase (clazz : ClassDefinition) (x : Z) :
  switch mc_id x (cc_methods (classCase clazz))
  = methodCase clazz <$> switch method_id x (class_methods clazz).
Proof. apply switch_map. reflexivity. Qed.

Lemma switch_headerCase (spec : Spec) (x : Z) :
  switch hc_id x (hd_cases (headerDecoder spec))
  = headerCase <$> switch class_id x (classes spec).
Proof. apply switch_map. reflexivity. Qed.

(** C3.  Once the class id has been read: [decodeHeader] fails with
    [UnknownClass] when no class has that id; once the method id has been
    read too, [decodeMethod] fails with [UnknownClass] when no class has
    the class id, and with [UnknownMethod] when the class with that id has
    no method with the method id. *)
Theorem dispatch_failures (enc : Codec) (module : list Declaration)
    (spec : Spec) (data r1 : bytes) (classId : Z) :
  decodeShortUint enc data = Ok (classId, r1) ->
  ((forall c, In c (classes spec) -> class_id c <> classId) ->
   runHeaderDecoder enc module (headerDecoder spec) data
   = Throw (UnknownClass classId))
  /\ forall (methodId : Z) (r2 : bytes),
       decodeShortUint enc r1 = Ok (methodId, r2) ->
       ((forall c, In c (classes spec) -> class_id c <> classId) ->
        runMethodDecoder enc module (methodDecoder spec) data
        = Throw (UnknownClass classId))
       /\ (forall clazz,
             NoDup (map class_id (classes spec)) ->
             In clazz (classes spec) -> class_id clazz = classId ->
             (forall m, In m (class_methods clazz) -> method_id m <> methodId) ->
             runMethodDecoder enc module (methodDecoder spec) data
             = Throw (UnknownMethod (class_name clazz) methodId)).
Proof.
  intros Hclass. split.
  - intros Hnone. unfold runHeaderDecoder. rewrite Hclass. monad.
    now rewrite switch_headerCase, (switch_none _ _ _ Hnone).
  - intros methodId r2 Hmethod. split.
    + intros Hnone. unfold runMethodDecoder. rewrite Hclass. monad.
      rewrite Hmethod. monad.
      now rewrite switch_classCase, (switch_none _ _ _ Hnone).
    + intros clazz Hnodup Hin <- Hnone. unfold runMethodDecoder.
      rewrite Hclass. monad. rewrite Hmethod. monad.
      rewrite switch_classCase, (switch_unique _ _ _ Hnodup Hin).
      cbn [fmap option_fmap option_map].
      now rewrite switch_methodCase, (switch_none _ _ _ Hnone).
Qed.

(** C9.  The emitted header decoder does not look at the weight it reads:
    two inputs with the same class id whose readers agree once the weight
    has been read decode alike, whatever the two weights are; the emitted
    header encoder writes the weight zero after the class id. *)
Theorem header_weight_ignored (enc : Codec) (module : list Declaration)
    (spec : Spec) (data1 data2 r1 r2 r : bytes) (classId weight1 weight2 : Z) :
  decodeShortUint enc data1 = Ok (classId, r1) ->
  decodeShortUint enc data2 = Ok (classId, r2) ->
  decodeShortUint enc r1 = Ok (weight1, r) ->
  decodeShortUint enc r2 = Ok (weight2, r) ->
  runHeaderDecoder enc module (headerDecoder spec) data1
  = runHeaderDecoder enc module (headerDecoder spec) data2
  /\ (forall f : DecodeHeader, runDecodeHeader enc f r1 = runDecodeHeader enc f r2)
  /\ forall (clazz : ClassDefinition) (size : Z) (props : gmap string value)
       (data : bytes),
       runEncodeHeader enc (encodeHeaderFunction clazz) size props = Ok data ->
       exists b1 b2 rest,
         encodeShortUint enc (class_id clazz) = Ok b1
         /\ encodeShortUint enc 0 = Ok b2
         /\ data = b1 ++ b2 ++ rest.
Proof.
  intros Hc1 Hc2 Hw1 Hw2.
  assert (Hf : forall f, runDecodeHeader enc f r1 = runDecodeHeader enc f r2).
  { intros f. unfold runDecodeHeader. now rewrite Hw1, Hw2. }
  split; [|split; [exact Hf|]].
  - unfold runHeaderDecoder. rewrite Hc1, Hc2. monad.
    destruct (switch hc_id classId _) as [c|]; [|reflexivity].
    unfold callDecodeHeader.
    destruct (lookupDeclaration module (hc_decoder c)) as [[]|];
      try reflexivity.
    now rewrite Hf.
  - intros clazz size props data H. unfold runEncodeHeader in H.
    apply bind_Ok in H as (b1 & Hb1 & H).
    apply bind_Ok in H as (b2 & Hb2 & H).
    apply bind_Ok in H as (b3 & Hb3 & H).
    apply bind_Ok in H as (b4 & Hb4 & H). injection H as <-.
    exists b1, b2, (b3 ++ b4). split; [exact Hb1|]. split; [exact Hb2|].
    cbn [app]. now rewrite <- !app_assoc.
Qed.

(** ** The reference codec meets the contract *)

Import ReferenceCodec.

Lemma byteToZ_byteOfZ (z : Z) : byteToZ (byteOfZ z) = z mod 256.
Proof.
  unfold byteToZ, byteOfZ.
  assert (Hrange : 0 <= z mod 256 < 256) by (apply Z.mod_pos_bound; lia).
  destruct (Byte.of_N (Z.to_N (z mod 256))) as [b|] eqn:Hb.
  - apply Byte.to_of_N in Hb. cbn. rewrite Hb. lia.
  - apply Byte.of_N_None_iff in Hb. lia.
Qed.

Lemma readUint_writeUint (width : nat) (n acc : Z) (rest : bytes) :
  readUint width acc (writeUint width n ++ rest)
  = Some (acc * 256 ^ Z.of_nat width + n mod 256 ^ Z.of_nat width, rest).
Proof.
  revert acc. induction width as [|w IH]; intros acc.
  - cbn. rewrite Z.mod_1_r. do 2 f_equal. lia.
  - cbn [writeUint readUint app]. rewrite IH, byteToZ_byteOfZ.
    do 2 f_equal. rewrite Nat2Z.inj_succ, Z.pow_succ_r by lia.
    rewrite (Z.mul_comm 256 (256 ^ Z.of_nat w)).
    rewrite (Z.rem_mul_r n (256 ^ Z.of_nat w) 256) by lia. lia.
Qed.

Lemma decodeUint_encodeUint (width : nat) (n : Z) (bs rest : bytes) :
  encodeUint width n = Ok bs -> decodeUint width (bs ++ rest) = Ok (n, rest).
Proof.
  unfold encodeUint, decodeUint.
  destruct (0 <=? n) eqn:Hlo; [|discriminate].
  destruct (n <? 256 ^ Z.of_nat width) eqn:Hhi; [|discriminate].
  cbn. intros [= <-]. rewrite readUint_writeUint.
  rewrite Z.mod_small by lia. reflexivity.
Qed.

Lemma length_list_byte_of_string (s : string) :
  length (list_byte_of_string s) = String.length s.
Proof.
  unfold list_byte_of_string. rewrite length_map.
  induction s as [|c s IH]; cbn; [reflexivity | now rewrite IH].
Qed.

Lemma decodeString_encodeString (width : nat) (s : string) (bs rest : bytes) :
  encodeString width s = Ok bs -> decodeString width (bs ++ rest) = Ok (s, rest).
Proof.
  unfold encodeString, decodeString. intros H.
  apply bind_Ok in H as (len & Hlen & H). injection H as <-.
  rewrite <- app_assoc, (decodeUint_encodeUint _ _ _ _ Hlen). monad.
  rewrite Nat2Z.id, <- length_list_byte_of_string.
  rewrite take_app_length, drop_app_length, string_of_list_byte_of_string.
  rewrite length_app.
  destruct (Nat.leb_spec (length (list_byte_of_string s))
              (length (list_byte_of_string s) + length rest)); [reflexivity|lia].
Qed.

Lemma numberWidth_not_bigint (type : string) (w : nat) :
  numberWidth type = Some w -> isBigint type = false.
Proof.
  unfold numberWidth, isBigint.
  repeat match goal with
         | |- context [String.eqb type ?s] =>
             destruct (String.eqb_spec type s) as [->|?]; try reflexivity
         end; discriminate.
Qed.

Lemma stringWidth_only (type : string) (w : nat) :
  stringWidth type = Some w ->
  numberWidth type = None /\ isBigint type = false
  /\ String.eqb type "bit" = false.
Proof.
  unfold stringWidth.
  repeat match goal with
         | |- context [String.eqb type ?s] =>
             destruct (String.eqb_spec type s) as [->|?]; [now intros _|]
         end; discriminate.
Qed.

Lemma isBigint_only (type : string) :
  isBigint type = true -> numberWidth type = None.
Proof.
  unfold isBigint. intros [H|H]%orb_true_iff;
    apply String.eqb_eq in H; now subst.
Qed.

Lemma decodeField_encodeField (f : string * value) (bs rest : bytes) :
  writeField f = Ok bs -> readField f.1 (bs ++ rest) = Ok (f.2, rest).
Proof.
  destruct f as [type v]. unfold writeField, readField. cbn [fst snd].
  destruct v as [|n|n|b|s|o|g]; try discriminate.
  - destruct (numberWidth type) as [w|]; [|discriminate].
    intros H. now rewrite (decodeUint_encodeUint _ _ _ _ H).
  - destruct (isBigint type) eqn:Hbig; [|discriminate].
    rewrite (isBigint_only _ Hbig).
    intros H. now rewrite (decodeUint_encodeUint _ _ _ _ H).
  - destruct (String.eqb_spec type "bit") as [->|]; [|discriminate].
    intros [= <-]. now destruct b.
  - destruct (stringWidth type) as [w|] eqn:Hw; [|discriminate].
    destruct (stringWidth_only _ _ Hw) as (-> & -> & ->).
    intros H. now rewrite (decodeString_encodeString _ _ _ _ H).
Qed.

Lemma decodeFieldList_encodeFieldList (fs : list (string * value))
    (bs rest : bytes) :
  writeFields fs = Ok bs ->
  readFields (bs ++ rest) (map fst fs) = Ok (map snd fs, rest).
Proof.
  revert bs. induction fs as [|f fs IH]; intros bs H.
  - injection H as <-. reflexivity.
  - cbn [writeFields] in H.
    apply bind_Ok in H as (b & Hb & H).
    apply bind_Ok in H as (bs' & Hbs & H). injection H as <-.
    cbn [map readFields]. rewrite <- app_assoc.
    rewrite (decodeField_encodeField _ _ _ Hb). monad.
    now rewrite (IH _ Hbs).
Qed.

Lemma decodeOptionalField_encodeOptionalField (f : string * value)
    (bs rest : bytes) :
  writeOptionalField f = Ok bs ->
  readOptionalField f.1 (bs ++ rest) = Ok (f.2, rest).
Proof.
  unfold writeOptionalField, readOptionalField.
  destruct (isDefined f.2) eqn:Hdef.
  - intros H. apply bind_Ok in H as (b & Hb & H). injection H as <-.
    cbn [app]. exact (decodeField_encodeField _ _ _ Hb).
  - intros [= <-]. cbn [app]. destruct f as [type []]; try discriminate.
    reflexivity.
Qed.

Lemma decodeOptionalFieldList_encodeOptionalFieldList
    (fs : list (string * value)) (bs rest : bytes) :
  writeOptionalFields fs = Ok bs ->
  readOptionalFields (bs ++ rest) (map fst fs) = Ok (map snd fs, rest).
Proof.
  revert bs. induction fs as [|f fs IH]; intros bs H.
  - injection H as <-. reflexivity.
  - cbn [writeOptionalFields] in H.
    apply bind_Ok in H as (b & Hb & H).
    apply bind_Ok in H as (bs' & Hbs & H). injection H as <-.
    cbn [map readOptionalFields]. rewrite <- app_assoc.
    rewrite (decodeOptionalField_encodeOptionalField _ _ _ Hb). monad.
    now rewrite (IH _ Hbs).
Qed.

Lemma reference_codec_contract : CodecContract codec.
Proof.
  split.
  - intros n bs rest. apply decodeUint_encodeUint.
  - intros n bs rest. apply decodeUint_encodeUint.
  - apply decodeFieldList_encodeFieldList.
  - apply decodeOptionalFieldList_encodeOptionalFieldList.
Qed.

(** ** Dispatch on the sample schema *)

Lemma sample_class_ids : NoDup (map class_id (classes Sample.spec)).
Proof. compute_done. Qed.

Lemma sample_no_class_77 (c : ClassDefinition) :
  In c (classes Sample.spec) -> class_id c <> 77.
Proof. intros [<-|[<-|[]]]; discriminate. Qed.

Lemma dispatch_failures_witness :
  runHeaderDecoder codec [] (headerDecoder Sample.spec)
    [Byte.x00; Byte.x4d; Byte.x00; Byte.x28]
  = Throw (UnknownClass 77)
  /\ runMethodDecoder codec [] (methodDecoder Sample.spec)
       [Byte.x00; Byte.x4d; Byte.x00; Byte.x28]
     = Throw (UnknownClass 77)
  /\ runMethodDecoder codec [] (methodDecoder Sample.spec)
       [Byte.x00; Byte.x0a; Byte.x00; Byte.x63]
     = Throw (UnknownMethod "basic" 99).
Proof.
  split; [|split].
  - apply (proj1 (dispatch_failures codec [] Sample.spec
                    [Byte.x00; Byte.x4d; Byte.x00; Byte.x28]
                    [Byte.x00; Byte.x28] 77 eq_refl)).
    exact sample_no_class_77.
  - apply (proj1 (proj2 (dispatch_failures codec [] Sample.spec
                           [Byte.x00; Byte.x4d; Byte.x00; Byte.x28]
                           [Byte.x00; Byte.x28] 77 eq_refl)
                    40 [] eq_refl)).
    exact sample_no_class_77.
  - apply (proj2 (proj2 (dispatch_failures codec [] Sample.spec
                           [Byte.x00; Byte.x0a; Byte.x00; Byte.x63]
                           [Byte.x00; Byte.x63] 10 eq_refl)
                    99 [] eq_refl) Sample.basic).
    + exact sample_class_ids.
    + now left.
    + reflexivity.
    + intros m [<-|[]]. discriminate.
Defined.

Lemma header_weight_ignored_witness :
  runHeaderDecoder codec Sample.module (headerDecoder Sample.spec)
    ([Byte.x00; Byte.x5a; Byte.x00; Byte.x00] ++ writeUint 8 5)
  = runHeaderDecoder codec Sample.module (headerDecoder Sample.spec)
      ([Byte.x00; Byte.x5a; Byte.xff; Byte.x07] ++ writeUint 8 5)
  /\ runHeaderDecoder codec Sample.module (headerDecoder Sample.spec)
       ([Byte.x00; Byte.x5a; Byte.xff; Byte.x07] ++ writeUint 8 5)
     = Ok {| h_classId := 90; h_size := 5; h_props := ∅ |}.
Proof.
  split; [|reflexivity].
  exact (proj1 (header_weight_ignored codec Sample.module Sample.spec
                  ([Byte.x00; Byte.x5a; Byte.x00; Byte.x00] ++ writeUint 8 5)
                  ([Byte.x00; Byte.x5a; Byte.xff; Byte.x07] ++ writeUint 8 5)
                  ([Byte.x00; Byte.x00] ++ writeUint 8 5)
                  ([Byte.xff; Byte.x07] ++ writeUint 8 5)
                  (writeUint 8 5) 90 0 65287 eq_refl eq_refl eq_refl eq_refl)).
Defined.

(** ** Object literals *)

Lemma objectLiteral_snoc (kvs : list (string * value)) (kv : string * value) :
  objectLiteral (kvs ++ [kv]) = <[kv.1 := kv.2]> (objectLiteral kvs).
Proof. unfold objectLiteral. now rewrite fold_left_app. Qed.

Lemma objectLiteral_lookup_None (kvs : list (string * value)) (k : string) :
  ~ In k (map fst kvs) -> objectLiteral kvs !! k = None.
Proof.
  induction kvs as [|kv kvs IH] using rev_ind; intros Hnot.
  - apply lookup_empty.
  - rewrite objectLiteral_snoc. rewrite map_app, in_app_iff in Hnot.
    rewrite lookup_insert_ne.
    + apply IH. tauto.
    + intros Heq. apply Hnot. right. left. exact Heq.
Qed.

Lemma objectLiteral_lookup_Some (kvs : list (string * value)) (k : string)
    (v : value) :
  NoDup (map fst kvs) -> In (k, v) kvs -> objectLiteral kvs !! k = Some v.
Proof.
  induction kvs as [|kv kvs IH] using rev_ind; intros Hnodup Hin;
    [contradiction|].
  rewrite objectLiteral_snoc. rewrite map_app in Hnodup.
  apply NoDup_app in Hnodup as (Hnodup & Hdisjoint & _).
  apply in_app_iff in Hin as [Hin|[->|[]]].
  - rewrite lookup_insert_ne; [now apply IH|].
    intros Heq. apply (Hdisjoint k).
    + apply list_elem_of_In. now apply (in_map fst _ (k, v)).
    + rewrite <- Heq. now left.
  - apply lookup_insert_eq.
Qed.

Lemma objectLiteral_lookup_fun (kvs : list (string * value))
    (f : string -> value) (k : string) :
  (forall kv, In kv kvs -> kv.2 = f kv.1) -> In k (map fst kvs) ->
  objectLiteral kvs !! k = Some (f k).
Proof.
  induction kvs as [|kv kvs IH] using rev_ind; intros Hfun Hin;
    [contradiction|].
  rewrite objectLiteral_snoc.
  destruct (decide (kv.1 = k)) as [<-|Hne].
  - rewrite lookup_insert_eq. f_equal. apply Hfun, in_app_iff. right. now left.
  - rewrite lookup_insert_ne by exact Hne. apply IH.
    + intros kv' Hkv'. apply Hfun, in_app_iff. now left.
    + rewrite map_app, in_app_iff in Hin. destruct Hin as [Hin|[Heq|[]]];
        [exact Hin | contradiction].
Qed.

Lemma get_Some (o : gmap string value) (k : string) (v : value) :
  o !! k = Some v -> get o k = v.
Proof. unfold get. now intros ->. Qed.

Lemma get_None (o : gmap string value) (k : string) :
  o !! k = None -> get o k = inherited k.
Proof. unfold get. now intros ->. Qed.

(** What the object literal of a decode function holds: the names of the
    fields, each with the value decoded at its position. *)
Lemma decoded_fields_combine {A : Type} (g : nat -> A -> result DecodedField)
    (name : A -> string) :
  (forall i a df, g i a = Ok df -> df_name df = name a /\ df_index df = i) ->
  forall (l : list A) (i : nat) (dfs : list DecodedField) (pre vs : list value),
    imapM_from i g l = Ok dfs -> length pre = i -> length vs = length l ->
    map (readDecodedField (pre ++ vs)) dfs = combine (map name l) vs.
Proof.
  intros Hg. induction l as [|a l IH]; intros i dfs pre vs H Hpre Hvs.
  - injection H as <-. now destruct vs.
  - destruct vs as [|v vs]; [discriminate|]. cbn [imapM_from] in H.
    apply bind_Ok in H as (df & Hdf & H).
    apply bind_Ok in H as (dfs' & Hdfs & H). injection H as <-.
    destruct (Hg _ _ _ Hdf) as [Hname Hindex].
    cbn [map combine]. f_equal.
    + unfold readDecodedField, index. rewrite Hname, Hindex, <- Hpre.
      now rewrite nth_middle.
    + replace (pre ++ v :: vs) with ((pre ++ [v]) ++ vs)
        by now rewrite <- app_assoc.
      apply (IH (S i)); [exact Hdfs | | now injection Hvs].
      rewrite length_app. cbn. lia.
Qed.

Lemma combine_map_same {A B C : Type} (f : A -> B) (g : A -> C) (l : list A) :
  combine (map f l) (map g l) = map (fun x => (f x, g x)) l.
Proof. induction l as [|x l IH]; cbn; [reflexivity | now rewrite IH]. Qed.

(** ** The generated module *)

Lemma lookupDeclaration_valid (module : list Declaration) (d : Declaration) :
  validModule module -> In d module ->
  lookupDeclaration module (declName d) = Some d.
Proof.
  unfold validModule, lookupDeclaration.
  induction module as [|d' module IH]; intros Hvalid Hin; [contradiction|].
  cbn in Hvalid. apply NoDup_cons in Hvalid as [Hnotin Hvalid].
  cbn. destruct Hin as [->|Hin]; [now rewrite String.eqb_refl|].
  destruct (String.eqb_spec (declName d') (declName d)) as [Heq|_];
    [|now apply IH].
  exfalso. apply Hnotin. rewrite Heq. now apply list_elem_of_In, in_map.
Qed.

Lemma emitModule_class (spec : Spec) (module : list Declaration)
    (clazz : ClassDefinition) :
  emitModule spec = Ok module -> In clazz (classes spec) ->
  exists decls, emitClass spec clazz = Ok decls
                /\ forall d, In d decls -> In d module.
Proof.
  unfold emitModule. intros H Hin.
  apply bind_Ok in H as (perClass & HperClass & H). injection H as <-.
  destruct (mapM_Ok_In _ _ _ _ HperClass Hin) as (decls & Hdecls & Hmem).
  exists decls. split; [exact Hdecls|].
  intros d Hd. apply in_app_iff. left. apply in_concat. eauto.
Qed.

Lemma emitClass_header (spec : Spec) (clazz : ClassDefinition)
    (decls : list Declaration) :
  emitClass spec clazz = Ok decls ->
  exists f, decodeHeaderFunction clazz = Ok f /\ In (DeclDecodeHeader f) decls.
Proof.
  unfold emitClass. intros H.
  apply bind_Ok in H as (methods & _ & H).
  apply bind_Ok in H as (f & Hf & H). injection H as <-.
  exists f. split; [exact Hf|]. apply in_app_iff. right. right. now left.
Qed.

Lemma emitClass_method (spec : Spec) (clazz : ClassDefinition)
    (method : MethodDefinition) (decls : list Declaration) :
  emitClass spec clazz = Ok decls -> In method (class_methods clazz) ->
  exists e d, encodeMethodFunction spec clazz method = Ok e
              /\ decodeMethodFunction spec clazz method = Ok d
              /\ In (DeclDecodeMethod d) decls.
Proof.
  unfold emitClass. intros H Hin.
  apply bind_Ok in H as (methods & Hmethods & H).
  apply bind_Ok in H as (f & _ & H). injection H as <-.
  destruct (mapM_Ok_In _ _ _ _ Hmethods Hin) as (ds & Hds & Hmem).
  unfold emitMethod in Hds.
  apply bind_Ok in Hds as (e & He & Hds).
  apply bind_Ok in Hds as (d & Hd & Hds). injection Hds as <-.
  exists e, d. split; [exact He|]. split; [exact Hd|].
  apply in_app_iff. left. apply in_concat.
  eexists. split; [exact Hmem|]. right. now left.
Qed.

Lemma decodeHeaderFunction_name (clazz : ClassDefinition) (f : DecodeHeader) :
  decodeHeaderFunction clazz = Ok f ->
  dh_name f = hc_decoder (headerCase clazz)
  /\ dh_classId f = class_id clazz
  /\ dh_types f = map prop_type (default [] (class_properties clazz))
  /\ imapM decodedProperty (default [] (class_properties clazz))
     = Ok (dh_props f).
Proof.
  unfold decodeHeaderFunction. intros H.
  apply bind_Ok in H as (props & Hprops & H). injection H as <-.
  repeat split. exact Hprops.
Qed.

Lemma decodeMethodFunction_name (spec : Spec) (clazz : ClassDefinition)
    (method : MethodDefinition) (d : DecodeMethod) :
  decodeMethodFunction spec clazz method = Ok d ->
  dm_name d = mc_decoder (methodCase clazz method).
Proof.
  unfold decodeMethodFunction. intros H.
  apply bind_Ok in H as (types & _ & H).
  apply bind_Ok in H as (args & _ & H). now injection H as <-.
Qed.

(** ** Header round trip *)

Lemma decodedProperty_name (i : nat) (p : PropertyDefinition) (df : DecodedField) :
  decodedProperty i p = Ok df -> df_name df = propField p /\ df_index df = i.
Proof.
  unfold decodedProperty. intros H.
  apply bind_Ok in H as (tsType & _ & H). now injection H as <-.
Qed.

(** The properties object built by the emitted header decoder, when the
    codec returns the values [get props] of the property fields. *)
Lemma decoded_properties (props : gmap string value)
    (plist : list PropertyDefinition) (dfs : list DecodedField) :
  imapM decodedProperty plist = Ok dfs ->
  map (readDecodedField
         (map snd (map (evalOptionalField props) (map optionalField plist))))
      dfs
  = map (fun p => (propField p, get props (propField p))) plist.
Proof.
  intros H. rewrite !map_map.
  rewrite <- (combine_map_same propField (fun p => get props (propField p))).
  apply (decoded_fields_combine decodedProperty propField decodedProperty_name
           plist 0%nat dfs []); [exact H | reflexivity | apply length_map].
Qed.

(** X19.  A header encoded by the emitted header encoder and given to the
    emitted header dispatch decodes to the class id of its class, the same
    size, and properties of which each declared one reads as it read in
    the input, own or inherited from [Object.prototype]; nothing else is
    set.  The codec is any one whose decoders mirror its encoders, and the
    generated module declares each function name once. *)
Theorem header_roundtrip (enc : Codec) (spec : Spec)
    (module : list Declaration) (clazz : ClassDefinition) (size : Z)
    (props : gmap string value) (data : bytes) :
  CodecContract enc ->
  emitModule spec = Ok module -> validModule module ->
  NoDup (map class_id (classes spec)) -> In clazz (classes spec) ->
  runEncodeHeader enc (encodeHeaderFunction clazz) size props = Ok data ->
  exists h : Header,
    runHeaderDecoder enc module (headerDecoder spec) data = Ok h
    /\ h_classId h = class_id clazz
    /\ h_size h = size
    /\ (forall p, In p (default [] (class_properties clazz)) ->
          get (h_props h) (propField p) = get props (propField p))
    /\ (forall k, ~ In k (map propField (default [] (class_properties clazz))) ->
          h_props h !! k = None).
Proof.
  intros Henc Hmodule Hvalid Hids Hin Hdata.
  unfold runEncodeHeader in Hdata.
  apply bind_Ok in Hdata as (b1 & Hb1 & Hdata).
  apply bind_Ok in Hdata as (b2 & Hb2 & Hdata).
  apply bind_Ok in Hdata as (b3 & Hb3 & Hdata).
  apply bind_Ok in Hdata as (b4 & Hb4 & Hdata). injection Hdata as <-.
  change (eh_classId (encodeHeaderFunction clazz)) with (class_id clazz) in Hb1.
  destruct (emitModule_class _ _ _ Hmodule Hin) as (decls & Hdecls & Hsub).
  destruct (emitClass_header _ _ _ Hdecls) as (f & Hf & Hmem).
  destruct (decodeHeaderFunction_name _ _ Hf) as (Hname & Hid & Htypes & Hprops).
  pose proof (lookupDeclaration_valid _ _ Hvalid (Hsub _ Hmem)) as Hlookup.
  cbn [declName] in Hlookup. rewrite Hname in Hlookup.
  set (fs := map (evalOptionalField props) (eh_fields (encodeHeaderFunction clazz)))
    in Hb4.
  assert (Hfs : dh_types f = map fst fs).
  { rewrite Htypes. unfold fs, encodeHeaderFunction. cbn [eh_fields].
    now rewrite !map_map. }
  unfold runHeaderDecoder. cbn [app]. rewrite <- !app_assoc.
  rewrite (shortUint_mirror _ Henc _ _ _ Hb1). monad.
  rewrite switch_headerCase, (switch_unique _ _ _ Hids Hin).
  cbn [fmap option_fmap option_map].
  unfold callDecodeHeader. rewrite Hlookup. unfold runDecodeHeader.
  rewrite (shortUint_mirror _ Henc _ _ _ Hb2). monad.
  rewrite (longLongUint_mirror _ Henc _ _ _ Hb3). monad.
  rewrite <- (app_nil_r b4), Hfs.
  rewrite (optionalFields_mirror _ Henc _ _ _ Hb4). monad.
  eexists. split; [reflexivity|]. cbn [h_classId h_size h_props].
  split; [exact Hid|]. split; [reflexivity|].
  unfold fs, encodeHeaderFunction. cbn [eh_fields].
  rewrite (decoded_properties _ _ _ Hprops).
  split.
  - intros p Hp. apply get_Some.
    apply (objectLiteral_lookup_fun _ (get props)).
    + intros kv (p' & <- & _)%in_map_iff. reflexivity.
    + rewrite map_map. cbn [fst]. now apply (in_map propField).
  - intros k Hk. apply objectLiteral_lookup_None.
    now rewrite map_map.
Qed.

Lemma sample_module : emitModule Sample.spec = Ok Sample.module.
Proof. vm_compute. reflexivity. Qed.

Lemma sample_module_valid : validModule Sample.module.
Proof. unfold validModule. compute_done. Qed.

Lemma sample_header_bytes :
  runEncodeHeader codec (encodeHeaderFunction Sample.basic) 1000 Sample.props
  = Ok Sample.headerBytes.
Proof. vm_compute. reflexivity. Qed.

Lemma header_roundtrip_witness :
  exists h : Header,
    runHeaderDecoder codec Sample.module (headerDecoder Sample.spec)
      Sample.headerBytes = Ok h
    /\ h_classId h = 10
    /\ h_size h = 1000
    /\ get (h_props h) "contentType" = VString "text/plain"
    /\ get (h_props h) "priority" = VUndefined
    /\ h_props h !! "expiration" = None.
Proof.
  destruct (header_roundtrip codec Sample.spec Sample.module Sample.basic 1000
              Sample.props Sample.headerBytes reference_codec_contract
              sample_module sample_module_valid sample_class_ids
              (or_introl eq_refl) sample_header_bytes)
    as (h & Hh & Hid & Hsize & Hprops & Hother).
  exists h. split; [exact Hh|]. split; [exact Hid|]. split; [exact Hsize|].
  split; [|split].
  - exact (Hprops Sample.contentType (or_introl eq_refl)).
  - exact (Hprops Sample.priority (or_intror (or_introl eq_refl))).
  - apply Hother. intros [H|[H|[]]]; discriminate H.
Defined.

(** C8.  A class whose property [to-string] is read as [props.toString],
    and the properties value [{}], in which it is absent.  The emitted
    header encoder hands the codec what the read gives, and on [{}] that
    is the function [toString] inherited from [Object.prototype]: the
    absent property is not encoded as absent.  Under any codec the call on
    [{}] is the call on [{ toString: toString }]; under the reference codec
    it throws, where a property of another name, absent, is handed over as
    [undefined] and the header encodes. *)
Theorem absent_property_reads_inherited_member :
  eh_fields (encodeHeaderFunction Sample.exchange)
  = [{| of_type := "shortstr"; of_prop := "toString" |}]
  /\ Sample.omitted !! "toString" = None
  /\ map (evalOptionalField Sample.omitted)
         (eh_fields (encodeHeaderFunction Sample.exchange))
     = [("shortstr", VFunction "toString")]
  /\ (forall (enc : Codec) (size : Z),
        runEncodeHeader enc (encodeHeaderFunction Sample.exchange) size
          Sample.omitted
        = runEncodeHeader enc (encodeHeaderFunction Sample.exchange) size
            {[ "toString" := VFunction "toString" ]})
  /\ runEncodeHeader codec (encodeHeaderFunction Sample.exchange) 1000
       Sample.omitted
     = Throw (typeMismatch "shortstr")
  /\ map (evalOptionalField Sample.omitted)
         (eh_fields (encodeHeaderFunction Sample.basic))
     = [("shortstr", VUndefined); ("octet", VUndefined)]
  /\ (exists (data : bytes) (h : Header),
        runEncodeHeader codec (encodeHeaderFunction Sample.basic) 1000
          Sample.omitted = Ok data
        /\ runHeaderDecoder codec Sample.module (headerDecoder Sample.spec)
             data = Ok h
        /\ h_classId h = 10 /\ h_size h = 1000
        /\ get (h_props h) "contentType" = VUndefined
        /\ get (h_props h) "priority" = VUndefined).
Proof.
  split; [reflexivity|]. split; [reflexivity|]. split; [reflexivity|].
  split; [intros enc size; reflexivity|].
  split; [vm_compute; reflexivity|]. split; [reflexivity|].
  eexists. eexists. split; [vm_compute; reflexivity|].
  split; [vm_compute; reflexivity|].
  repeat split; vm_compute; reflexivity.
Qed.

(** ** Method round trip *)

Section MethodRoundTrip.

Variable enc : Codec.
Variable StringToBigInt : string -> option Z.
Variable spec : Spec.
Variable args : gmap string value.

Lemma decodedField_name (i : nat) (a : ArgumentDefinition) (df : DecodedField) :
  decodedField spec i a = Ok df -> df_name df = argField a /\ df_index df = i.
Proof.
  unfold decodedField. intros H.
  apply bind_Ok in H as (tsType & _ & H). now injection H as <-.
Qed.

Lemma evaluated_fields (l : list ArgumentDefinition) (efs : list EncodeField)
    (fields : list (string * value)) :
  mapM (encodeField spec) l = Ok efs ->
  mapM (evalEncodeField StringToBigInt args) efs = Ok fields ->
  Forall2 (fieldValue StringToBigInt spec args) l (map snd fields)
  /\ map fst fields = map ef_type efs.
Proof.
  revert efs fields. induction l as [|a l IH]; intros efs fields He Hv.
  - injection He as <-. injection Hv as <-. split; [constructor | reflexivity].
  - rewrite mapM_cons in He.
    apply bind_Ok in He as (f & Hf & He).
    apply bind_Ok in He as (efs' & Hefs & He). injection He as <-.
    rewrite mapM_cons in Hv.
    apply bind_Ok in Hv as (tv & Htv & Hv).
    apply bind_Ok in Hv as (fields' & Hfields & Hv). injection Hv as <-.
    destruct (IH _ _ Hefs Hfields) as [Hall Htypes].
    unfold evalEncodeField in Htv.
    apply bind_Ok in Htv as (v & Hv & Htv). injection Htv as <-.
    split; [|cbn; now rewrite Htypes].
    constructor; [|exact Hall]. exists f. now split.
Qed.

Lemma Forall2_In_combine {A B : Type} (R : A -> B -> Prop) (name : A -> string)
    (l : list A) (vs : list B) (a : A) :
  Forall2 R l vs -> In a l ->
  exists v, R a v /\ In (name a, v) (combine (map name l) vs).
Proof.
  induction 1 as [|a' v' l vs Hav _ IH]; intros Hin; [contradiction|].
  destruct Hin as [->|Hin].
  - exists v'. split; [exact Hav | now left].
  - destruct (IH Hin) as (v & Hv & Hmem). exists v. split; [exact Hv | now right].
Qed.

Lemma map_fst_combine {A B : Type} (R : A -> B -> Prop) (name : A -> string)
    (l : list A) (vs : list B) :
  Forall2 R l vs -> map fst (combine (map name l) vs) = map name l.
Proof. induction 1 as [|a v l vs _ _ IH]; cbn; [reflexivity | now rewrite IH]. Qed.

(** An argument whose read [args.name] is defined, or that has no default,
    is passed as read; an argument whose read is [undefined] and that has a
    default is passed as its declared default. *)
Lemma fieldValue_cases (a : ArgumentDefinition) (v : value) :
  fieldValue StringToBigInt spec args a v ->
  (isDefined (get args (argField a)) = true
   \/ isDefined (arg_default_value a) = false ->
   v = get args (argField a))
  /\ (isDefined (get args (argField a)) = false ->
      isDefined (arg_default_value a) = true ->
      declaredDefault StringToBigInt spec a = Ok v).
Proof.
  intros (f & Hf & Hv). unfold encodeField in Hf.
  apply bind_Ok in Hf as (type & Htype & Hf).
  apply bind_Ok in Hf as (d & Hd & Hf). injection Hf as <-.
  cbn [ef_value] in Hv. fold (argField a) in Hv.
  unfold defaultExpr in Hd.
  destruct (isDefined (arg_default_value a)) eqn:Hdefault; cbn in Hd, Hv.
  - destruct (isDefined (get args (argField a))) eqn:Hgiven.
    + injection Hv as <-. split; [reflexivity | discriminate].
    + split; [intros [?|?]; discriminate|]. intros _ _.
      unfold declaredDefault. rewrite Htype in Hd |- *. monad. cbn in Hd.
      destruct (resolveTypescriptType type) as [tsType|]; [|discriminate].
      monad. cbn in Hd.
      destruct (String.eqb tsType "bigint"); injection Hd as <-; exact Hv.
  - injection Hv as <-. split; [reflexivity | discriminate].
Qed.

(** X18.  The bytes the emitted encode function of a method produces, given
    to the emitted method dispatch, decode to the class id and the method id
    of the method and to arguments holding exactly the fields of the
    method.  A field whose read [args.name] is defined, be it an own
    property or a member inherited from [Object.prototype], or that has no
    default, comes back as read; a field whose read is [undefined] comes
    back as its declared default; an instance whose own properties are
    the fields of the method, all defined, comes back as it is.  The codec
    is any one whose decoders mirror its encoders, and the generated module
    and the method declare each name once. *)
Theorem method_roundtrip (module : list Declaration) (clazz : ClassDefinition)
    (method : MethodDefinition) (e : EncodeMethod) (data : bytes) :
  CodecContract enc ->
  emitModule spec = Ok module -> validModule module ->
  NoDup (map class_id (classes spec)) -> In clazz (classes spec) ->
  NoDup (map method_id (class_methods clazz)) ->
  In method (class_methods clazz) ->
  NoDup (map argField (method_arguments method)) ->
  encodeMethodFunction spec clazz method = Ok e ->
  runEncodeMethod enc StringToBigInt e args = Ok data ->
  exists decoded : gmap string value,
    runMethodDecoder enc module (methodDecoder spec) data
    = Ok {| rm_classId := class_id clazz;
            rm_methodId := method_id method;
            rm_args := decoded |}
    /\ (forall k, is_Some (decoded !! k)
                  <-> In k (map argField (method_arguments method)))
    /\ (forall a, In a (method_arguments method) ->
          (isDefined (get args (argField a)) = true
           \/ isDefined (arg_default_value a) = false ->
           get decoded (argField a) = get args (argField a))
          /\ (isDefined (get args (argField a)) = false ->
              isDefined (arg_default_value a) = true ->
              declaredDefault StringToBigInt spec a
              = Ok (get decoded (argField a))))
    /\ ((forall k, is_Some (args !! k) ->
                   In k (map argField (method_arguments method))) ->
        (forall a, In a (method_arguments method) ->
                   exists v, args !! argField a = Some v
                             /\ isDefined v = true) ->
        decoded = args).
Proof.
  intros Henc Hmodule Hvalid Hids Hin Hmids Hmin Hnames He Hdata.
  destruct (encodeMethodFunction_fields _ _ _ _ He) as (Hefs & Hcid & Hmid).
  unfold runEncodeMethod in Hdata. rewrite Hcid, Hmid in Hdata.
  apply bind_Ok in Hdata as (b1 & Hb1 & Hdata).
  apply bind_Ok in Hdata as (b2 & Hb2 & Hdata).
  apply bind_Ok in Hdata as (fields & Hfields & Hdata).
  apply bind_Ok in Hdata as (b3 & Hb3 & Hdata). injection Hdata as <-.
  destruct (evaluated_fields _ _ _ Hefs Hfields) as [Hvalues Hfst].
  destruct (emitModule_class _ _ _ Hmodule Hin) as (decls & Hdecls & Hsub).
  destruct (emitClass_method _ _ _ _ Hdecls Hmin) as (e' & d & _ & Hd & Hmem).
  pose proof (lookupDeclaration_valid _ _ Hvalid (Hsub _ Hmem)) as Hlookup.
  cbn [declName] in Hlookup.
  rewrite (decodeMethodFunction_name _ _ _ _ Hd) in Hlookup.
  destruct (decodeMethodFunction_types _ _ _ _ Hd) as [Htypes Hdfs].
  assert (Hdm : dm_types d = map fst fields).
  { rewrite Hfst. symmetry. exact (encodeFields_types _ _ _ _ Hefs Htypes). }
  unfold runMethodDecoder. cbn [app]. rewrite <- !app_assoc.
  rewrite (shortUint_mirror _ Henc _ _ _ Hb1). monad.
  rewrite (shortUint_mirror _ Henc _ _ _ Hb2). monad.
  rewrite switch_classCase, (switch_unique _ _ _ Hids Hin).
  cbn [fmap option_fmap option_map].
  rewrite switch_methodCase, (switch_unique _ _ _ Hmids Hmin).
  cbn [fmap option_fmap option_map].
  unfold callDecodeMethod. rewrite Hlookup. unfold runDecodeMethod.
  rewrite <- (app_nil_r b3), Hdm.
  rewrite (fields_mirror _ Henc _ _ _ Hb3). monad.
  assert (Hkvs : map (readDecodedField (map snd fields)) (dm_args d)
                 = combine (map argField (method_arguments method))
                     (map snd fields)).
  { apply (decoded_fields_combine (decodedField spec) argField
             decodedField_name _ 0%nat _ []); [exact Hdfs | reflexivity |].
    symmetry. exact (Forall2_length _ _ _ Hvalues). }
  rewrite Hkvs. clear Hkvs.
  set (kvs := combine (map argField (method_arguments method)) (map snd fields)).
  assert (Hkeys : map fst kvs = map argField (method_arguments method))
    by exact (map_fst_combine _ _ _ _ Hvalues).
  assert (Hfield : forall a, In a (method_arguments method) ->
            exists v, fieldValue StringToBigInt spec args a v
                      /\ objectLiteral kvs !! argField a = Some v).
  { intros a Ha.
    destruct (Forall2_In_combine _ argField _ _ _ Hvalues Ha) as (v & Hv & Hkv).
    exists v. split; [exact Hv|].
    apply objectLiteral_lookup_Some; [now rewrite Hkeys | exact Hkv]. }
  assert (Hdom : forall k, is_Some (objectLiteral kvs !! k)
                           <-> In k (map argField (method_arguments method))).
  { intros k. split.
    - intros Hsome.
      destruct (in_dec string_dec k (map argField (method_arguments method)))
        as [Hk|Hk]; [exact Hk|].
      rewrite <- Hkeys in Hk. apply objectLiteral_lookup_None in Hk.
      rewrite Hk in Hsome. now destruct Hsome.
    - intros (a & <- & Ha)%in_map_iff.
      destruct (Hfield a Ha) as (v & _ & ->). now exists v. }
  exists (objectLiteral kvs). split; [reflexivity|]. split; [exact Hdom|].
  assert (Hcases : forall a, In a (method_arguments method) ->
            (isDefined (get args (argField a)) = true
             \/ isDefined (arg_default_value a) = false ->
             get (objectLiteral kvs) (argField a) = get args (argField a))
            /\ (isDefined (get args (argField a)) = false ->
                isDefined (arg_default_value a) = true ->
                declaredDefault StringToBigInt spec a
                = Ok (get (objectLiteral kvs) (argField a)))).
  { intros a Ha. destruct (Hfield a Ha) as (v & Hv & Hlook).
    rewrite (get_Some _ _ _ Hlook).
    destruct (fieldValue_cases a v Hv) as [Hgiven Hdefault].
    split; [intros H; now rewrite <- Hgiven | exact Hdefault]. }
  split; [exact Hcases|].
  intros Hshape Hfull. apply map_eq. intros k.
  destruct (in_dec string_dec k (map argField (method_arguments method)))
    as [Hk|Hk].
  - apply in_map_iff in Hk as (a & <- & Ha).
    destruct (Hfield a Ha) as (v & _ & Hlook).
    destruct (Hfull a Ha) as (x & Hx & Hdefined).
    assert (Hgiven : isDefined (get args (argField a)) = true)
      by now rewrite (get_Some _ _ _ Hx).
    pose proof (proj1 (Hcases a Ha) (or_introl Hgiven)) as Heq.
    rewrite (get_Some _ _ _ Hlook), (get_Some _ _ _ Hx) in Heq.
    now rewrite Hlook, Hx, Heq.
  - rewrite objectLiteral_lookup_None by now rewrite Hkeys.
    destruct (args !! k) as [x|] eqn:Hx; [|reflexivity].
    exfalso. apply Hk, Hshape. now exists x.
Qed.

End MethodRoundTrip.

(** ** Method round trip on the sample schema *)

Lemma sample_method_ids : NoDup (map method_id (class_methods Sample.basic)).
Proof. compute_done. Qed.

Lemma sample_field_names :
  NoDup (map argField (method_arguments Sample.ack)).
Proof. compute_done. Qed.

Lemma sample_encode_ack :
  encodeMethodFunction Sample.spec Sample.basic Sample.ack = Ok Sample.encodeAck.
Proof. vm_compute. reflexivity. Qed.

Lemma sample_minimal_bytes :
  runEncodeMethod codec noStringToBigInt Sample.encodeAck Sample.minimalArgs
  = Ok Sample.minimalBytes.
Proof. vm_compute. reflexivity. Qed.

Lemma sample_full_bytes :
  runEncodeMethod codec noStringToBigInt Sample.encodeAck Sample.fullArgs
  = Ok Sample.fullBytes.
Proof. vm_compute. reflexivity. Qed.

Lemma sample_full_shape (k : string) :
  is_Some (Sample.fullArgs !! k) -> In k (map argField (method_arguments Sample.ack)).
Proof.
  unfold Sample.fullArgs. rewrite !lookup_insert, lookup_singleton.
  repeat case_decide; subst; cbn; intros [v Hv]; try discriminate; tauto.
Qed.

Lemma sample_full_defined (a : ArgumentDefinition) :
  In a (method_arguments Sample.ack) ->
  exists v, Sample.fullArgs !! argField a = Some v /\ isDefined v = true.
Proof. intros [<-|[<-|[<-|[]]]]; eexists; split; reflexivity. Qed.

Lemma method_roundtrip_witness :
  (exists decoded : gmap string value,
     runMethodDecoder codec Sample.module (methodDecoder Sample.spec)
       Sample.minimalBytes
     = Ok {| rm_classId := 10; rm_methodId := 40; rm_args := decoded |}
     /\ get decoded "queueName" = VString "x"
     /\ Ok (VBigInt 0) = Ok (get decoded "deliveryTag")
     /\ Ok (VBoolean false) = Ok (get decoded "multiple"))
  /\ runMethodDecoder codec Sample.module (methodDecoder Sample.spec)
       Sample.fullBytes
     = Ok {| rm_classId := 10; rm_methodId := 40; rm_args := Sample.fullArgs |}.
Proof.
  split.
  - destruct (method_roundtrip codec noStringToBigInt Sample.spec
                Sample.minimalArgs Sample.module Sample.basic Sample.ack
                Sample.encodeAck Sample.minimalBytes reference_codec_contract
                sample_module sample_module_valid sample_class_ids
                (or_introl eq_refl) sample_method_ids (or_introl eq_refl)
                sample_field_names sample_encode_ack sample_minimal_bytes)
      as (decoded & Hrun & _ & Hfields & _).
    exists decoded. split; [exact Hrun|]. split; [|split].
    + exact (proj1 (Hfields Sample.queue (or_introl eq_refl))
               (or_introl eq_refl)).
    + exact (proj2 (Hfields Sample.deliveryTag (or_intror (or_introl eq_refl)))
               eq_refl eq_refl).
    + exact (proj2 (Hfields Sample.multiple
                      (or_intror (or_intror (or_introl eq_refl))))
               eq_refl eq_refl).
  - destruct (method_roundtrip codec noStringToBigInt Sample.spec
                Sample.fullArgs Sample.module Sample.basic Sample.ack
                Sample.encodeAck Sample.fullBytes reference_codec_contract
                sample_module sample_module_valid sample_class_ids
                (or_introl eq_refl) sample_method_ids (or_introl eq_refl)
                sample_field_names sample_encode_ack sample_full_bytes)
      as (decoded & Hrun & _ & _ & Hfull).
    now rewrite <- (Hfull sample_full_shape sample_full_defined).
Defined.

(** C1.  A method whose argument [constructor] has the default ["direct"],
    and the instance [{}] that omits it.  The emitted encode function
    tests [args.constructor !== undefined]; on [{}], which has no such
    property of its own, the read gives the function [Object] inherited
    from [Object.prototype].  So the field handed to the codec is that
    function and not the declared default: under any codec the call on
    [{}] is the call on [{ constructor: Object }].  Under the reference
    codec it throws, where the instance completed with the default encodes
    and decodes to itself. *)
Theorem inherited_member_shadows_default :
  encodeMethodFunction Sample.inheriting Sample.exchange Sample.declare
  = Ok Sample.encodeDeclare
  /\ em_fields Sample.encodeDeclare
     = [{| ef_type := "shortstr";
           ef_value := VArgOrDefault "constructor"
                         (DLiteral (VString "direct")) |}]
  /\ Sample.omitted !! "constructor" = None
  /\ declaredDefault noStringToBigInt Sample.inheriting Sample.constructorArg
     = Ok (VString "direct")
  /\ mapM (evalEncodeField noStringToBigInt Sample.omitted)
          (em_fields Sample.encodeDeclare)
     = Ok [("shortstr", VFunction "Object")]
  /\ mapM (evalEncodeField noStringToBigInt Sample.defaulted)
          (em_fields Sample.encodeDeclare)
     = Ok [("shortstr", VString "direct")]
  /\ (forall (enc : Codec) (StringToBigInt : string -> option Z),
        runEncodeMethod enc StringToBigInt Sample.encodeDeclare Sample.omitted
        = runEncodeMethod enc StringToBigInt Sample.encodeDeclare
            {[ "constructor" := VFunction "Object" ]})
  /\ runEncodeMethod codec noStringToBigInt Sample.encodeDeclare Sample.omitted
     = Throw (typeMismatch "shortstr")
  /\ (exists data : bytes,
        runEncodeMethod codec noStringToBigInt Sample.encodeDeclare
          Sample.defaulted = Ok data
        /\ runMethodDecoder codec Sample.inheritingModule
             (methodDecoder Sample.inheriting) data
           = Ok {| rm_classId := 40; rm_methodId := 10;
                   rm_args := Sample.defaulted |}).
Proof.
  split; [vm_compute; reflexivity|]. split; [reflexivity|].
  split; [reflexivity|]. split; [vm_compute; reflexivity|].
  split; [reflexivity|]. split; [reflexivity|].
  split; [intros enc StringToBigInt; reflexivity|].
  split; [vm_compute; reflexivity|].
  eexists. split; vm_compute; reflexivity.
Qed.

(** * Further properties of the generator *)

(** ** Identifier forms on arbitrary names *)

Lemma toUpperChar_idempotent (c : ascii) :
  toUpperChar (toUpperChar c) = toUpperChar c.
Proof. destruct c as [[] [] [] [] [] [] [] []]; reflexivity. Qed.

Lemma hyphenOrDot_toUpperChar (c : ascii) :
  hyphenOrDot (toUpperChar c) = hyphenOrDot c.
Proof. destruct c as [[] [] [] [] [] [] [] []]; reflexivity. Qed.

Lemma hyphen_toUpperChar (c : ascii) : hyphen (toUpperChar c) = hyphen c.
Proof. destruct c as [[] [] [] [] [] [] [] []]; reflexivity. Qed.

Lemma delimiterFree_append (s t : string) :
  delimiterFree s -> delimiterFree t -> delimiterFree (s +:+ t).
Proof.
  induction s as [|c s IH]; intros Hs Ht; [exact Ht|].
  destruct Hs as [Hc Hs]. rewrite append_cons. split; [exact Hc | now apply IH].
Qed.

Lemma delimiterFree_concatAll (l : list string) :
  Forall delimiterFree l -> delimiterFree (concatAll l).
Proof.
  induction 1 as [|s l Hs _ IH]; [exact I|].
  now apply delimiterFree_append.
Qed.

Lemma delimiterFree_capitalizeFirst (s : string) :
  delimiterFree s -> delimiterFree (capitalizeFirst s).
Proof.
  destruct s as [|c s]; [trivial|]. intros [Hc Hs].
  split; [now rewrite hyphenOrDot_toUpperChar | exact Hs].
Qed.

Lemma split_segments_free (s : string) :
  Forall delimiterFree (split hyphenOrDot s).
Proof.
  induction s as [|c s IH]; [repeat constructor|].
  cbn [split]. destruct (hyphenOrDot c) eqn:Hc.
  - constructor; [exact I | exact IH].
  - destruct (split hyphenOrDot s) as [|seg segs].
    + repeat constructor. exact Hc.
    + apply Forall_cons in IH as [Hseg Hsegs].
      constructor; [now split | exact Hsegs].
Qed.

Lemma split_free (s : string) :
  delimiterFree s -> split hyphenOrDot s = [s].
Proof.
  intros Hs. rewrite <- (append_empty_r s) at 1.
  rewrite (split_free_append _ _ Hs). cbn. now rewrite append_empty_r.
Qed.

Lemma capitalizeFirst_capitalized (l : list string) :
  capitalizeFirst (concatAll (map capitalizeFirst l))
  = concatAll (map capitalizeFirst l).
Proof.
  induction l as [|s l IH]; [reflexivity|].
  destruct s as [|c s]; [exact IH|].
  cbn [map concatAll capitalizeFirst]. rewrite append_cons.
  cbn [capitalizeFirst]. now rewrite toUpperChar_idempotent.
Qed.

Lemma capitalizeFirst_append (s t : string) :
  s <> "" -> capitalizeFirst (s +:+ t) = capitalizeFirst s +:+ t.
Proof. destruct s as [|c s]; [congruence | reflexivity]. Qed.

Lemma camelCase_segments (name : string) :
  exists first rest,
    split hyphenOrDot name = first :: rest
    /\ camelCase name = first +:+ concatAll (map capitalizeFirst rest)
    /\ pascalCase name
       = capitalizeFirst first +:+ concatAll (map capitalizeFirst rest).
Proof.
  unfold camelCase, pascalCase.
  destruct (split hyphenOrDot name) as [|first rest] eqn:Hsplit;
    [now apply split_nonempty in Hsplit|].
  exists first, rest. rewrite !join_empty, !map_capitalize. now repeat split.
Qed.

(** X1.  The upper-camel form of any name is its lower-camel form with the
    first letter capitalized. *)
Theorem pascalCase_capitalize_camelCase (name : string) :
  pascalCase name = capitalize (camelCase name).
Proof.
  destruct (camelCase_segments name) as (first & rest & _ & -> & ->).
  rewrite capitalize_capitalizeFirst.
  destruct first as [|c first].
  - cbn [capitalizeFirst]. change ("" +:+ ?x) with x.
    symmetry. apply capitalizeFirst_capitalized.
  - now rewrite capitalizeFirst_append.
Qed.

Lemma camelCase_free (name : string) : delimiterFree (camelCase name).
Proof.
  destruct (camelCase_segments name) as (first & rest & Hsplit & -> & _).
  pose proof (split_segments_free name) as Hfree. rewrite Hsplit in Hfree.
  apply Forall_cons in Hfree as [Hfirst Hrest].
  apply delimiterFree_append; [exact Hfirst|].
  apply delimiterFree_concatAll, Forall_map.
  eapply Forall_impl; [exact Hrest|]. apply delimiterFree_capitalizeFirst.
Qed.

Lemma pascalCase_free (name : string) : delimiterFree (pascalCase name).
Proof.
  destruct (camelCase_segments name) as (first & rest & Hsplit & _ & ->).
  pose proof (split_segments_free name) as Hfree. rewrite Hsplit in Hfree.
  apply Forall_cons in Hfree as [Hfirst Hrest].
  apply delimiterFree_append; [now apply delimiterFree_capitalizeFirst|].
  apply delimiterFree_concatAll, Forall_map.
  eapply Forall_impl; [exact Hrest|]. apply delimiterFree_capitalizeFirst.
Qed.

Lemma camelCase_of_free (s : string) : delimiterFree s -> camelCase s = s.
Proof.
  intros Hs. unfold camelCase. rewrite (split_free _ Hs). cbn.
  apply append_empty_r.
Qed.

Lemma pascalCase_of_free (s : string) :
  delimiterFree s -> pascalCase s = capitalizeFirst s.
Proof.
  intros Hs. unfold pascalCase. rewrite (split_free _ Hs). cbn.
  apply capitalize_capitalizeFirst.
Qed.

(** X2.  Neither camel form of a name holds a hyphen or a dot, whatever the
    name; so both forms are stable: converting a converted name changes
    nothing. *)
Theorem camel_forms_canonical (name : string) :
  delimiterFree (camelCase name)
  /\ delimiterFree (pascalCase name)
  /\ camelCase (camelCase name) = camelCase name
  /\ pascalCase (pascalCase name) = pascalCase name
  /\ camelCase (pascalCase name) = pascalCase name.
Proof.
  pose proof (camelCase_free name) as Hcamel.
  pose proof (pascalCase_free name) as Hpascal.
  split; [exact Hcamel|]. split; [exact Hpascal|].
  split; [now apply camelCase_of_free|].
  split; [|now apply camelCase_of_free].
  rewrite (pascalCase_of_free _ Hpascal).
  destruct (camelCase_segments name) as (first & rest & _ & _ & ->).
  destruct first as [|c first].
  - apply capitalizeFirst_capitalized.
  - rewrite capitalizeFirst_append by discriminate.
    cbn [capitalizeFirst]. rewrite append_cons. cbn [capitalizeFirst].
    now rewrite toUpperChar_idempotent.
Qed.

Lemma toUpperCase_idempotent (s : string) :
  toUpperCase (toUpperCase s) = toUpperCase s.
Proof.
  induction s as [|c s IH]; [reflexivity|].
  cbn [toUpperCase]. now rewrite toUpperChar_idempotent, IH.
Qed.

Lemma replace_toUpperCase_replace (s : string) :
  replace hyphen "_" (toUpperCase (replace hyphen "_" s))
  = toUpperCase (replace hyphen "_" s).
Proof.
  induction s as [|c s IH]; [reflexivity|].
  cbn [replace]. destruct (hyphen c) eqn:Hc.
  - change ("_" +:+ ?x) with (String "_" x). cbn [toUpperCase replace].
    change (hyphen (toUpperChar "_")) with false. cbn iota. now rewrite IH.
  - cbn [toUpperCase replace]. rewrite hyphen_toUpperChar, Hc. now rewrite IH.
Qed.

Lemma everyChar_constantName (p : ascii -> bool) (s : string) :
  p "_"%char = true ->
  (forall c, hyphen c = false -> p (toUpperChar c) = true) ->
  everyChar p (toUpperCase (replace hyphen "_" s)) = true.
Proof.
  intros Hunderscore Hother. induction s as [|c s IH]; [reflexivity|].
  cbn [replace]. destruct (hyphen c) eqn:Hc.
  - change ("_" +:+ ?x) with (String "_" x). cbn [toUpperCase everyChar].
    change (toUpperChar "_") with "_"%char. now rewrite Hunderscore, IH.
  - cbn [toUpperCase everyChar]. now rewrite (Hother c Hc), IH.
Qed.

(** X3.  The constant form of any name holds no hyphen and no character
    that upper-casing would change, and converting it again changes
    nothing. *)
Theorem constantName_canonical (name : string) :
  everyChar (fun c => negb (hyphen c)) (constantName name) = true
  /\ everyChar upperCased (constantName name) = true
  /\ constantName (constantName name) = constantName name.
Proof.
  unfold constantName. split; [|split].
  - apply everyChar_constantName; [reflexivity|].
    intros c Hc. now rewrite hyphen_toUpperChar, Hc.
  - apply everyChar_constantName; [reflexivity|].
    intros c _. unfold upperCased.
    rewrite toUpperChar_idempotent. apply Ascii.eqb_refl.
  - now rewrite replace_toUpperCase_replace, toUpperCase_idempotent.
Qed.

Lemma split_delimiter (s t : string) (d : ascii) :
  hyphenOrDot d = true ->
  split hyphenOrDot (s +:+ String d t)
  = split hyphenOrDot s ++ split hyphenOrDot t.
Proof.
  intros Hd. induction s as [|c s IH].
  - change ("" +:+ ?x) with x. cbn [split]. now rewrite Hd.
  - rewrite append_cons. cbn [split]. rewrite IH.
    destruct (hyphenOrDot c); [reflexivity|].
    destruct (split hyphenOrDot s) as [|seg segs] eqn:Hs;
      [now apply split_nonempty in Hs | reflexivity].
Qed.

Lemma concatAll_app (l k : list string) :
  concatAll (l ++ k) = concatAll l +:+ concatAll k.
Proof.
  induction l as [|s l IH]; [reflexivity|].
  cbn [app concatAll]. now rewrite IH, append_assoc.
Qed.

Lemma pascalCase_concatAll (name : string) :
  pascalCase name = concatAll (map capitalizeFirst (split hyphenOrDot name)).
Proof. unfold pascalCase. now rewrite join_empty, map_capitalize. Qed.

Lemma pascalCase_delimiter (s t : string) (d : ascii) :
  hyphenOrDot d = true ->
  pascalCase (s +:+ String d t) = pascalCase s +:+ pascalCase t.
Proof.
  intros Hd. rewrite !pascalCase_concatAll, (split_delimiter _ _ _ Hd).
  now rewrite map_app, concatAll_app.
Qed.

(** X4.  A delimiter may move between the class name and the method name
    without changing any emitted name: the upper-camel form of two names
    joined by a hyphen or a dot is the two upper-camel forms joined, so two
    methods whose class and method names spell the same text once joined
    get the same encode function, decode function and interface names. *)
Theorem emitted_names_collide (spec : Spec) (c1 c2 : ClassDefinition)
    (m1 m2 : MethodDefinition) (d : ascii) :
  hyphenOrDot d = true ->
  class_name c1 +:+ String d (method_name m1)
  = class_name c2 +:+ String d (method_name m2) ->
  mc_decoder (methodCase c1 m1) = mc_decoder (methodCase c2 m2)
  /\ ri_name (receiveMethodDefinition c1 m1)
     = ri_name (receiveMethodDefinition c2 m2)
  /\ (forall e1 e2,
        encodeMethodFunction spec c1 m1 = Ok e1 ->
        encodeMethodFunction spec c2 m2 = Ok e2 ->
        em_name e1 = em_name e2 /\ em_argsName e1 = em_argsName e2)
  /\ (forall d1 d2,
        decodeMethodFunction spec c1 m1 = Ok d1 ->
        decodeMethodFunction spec c2 m2 = Ok d2 ->
        dm_name d1 = dm_name d2 /\ dm_returnName d1 = dm_returnName d2).
Proof.
  intros Hd Hspell.
  assert (Hname : pascalCase (class_name c1) +:+ pascalCase (method_name m1)
                  = pascalCase (class_name c2) +:+ pascalCase (method_name m2)).
  { rewrite <- !(pascalCase_delimiter _ _ d Hd). now rewrite Hspell. }
  split; [|split; [|split]].
  - unfold methodCase. cbn [mc_decoder]. now rewrite Hname.
  - unfold receiveMethodDefinition. cbn [ri_name]. now rewrite Hname.
  - intros e1 e2 H1 H2. unfold encodeMethodFunction in H1, H2.
    apply bind_Ok in H1 as (f1 & _ & H1). injection H1 as <-.
    apply bind_Ok in H2 as (f2 & _ & H2). injection H2 as <-.
    cbn [em_name em_argsName]. now rewrite Hname.
  - intros d1 d2 H1 H2.
    pose proof (decodeMethodFunction_name _ _ _ _ H1) as Hn1.
    pose proof (decodeMethodFunction_name _ _ _ _ H2) as Hn2.
    unfold decodeMethodFunction in H1, H2.
    apply bind_Ok in H1 as (t1 & _ & H1). apply bind_Ok in H1 as (a1 & _ & H1).
    apply bind_Ok in H2 as (t2 & _ & H2). apply bind_Ok in H2 as (a2 & _ & H2).
    injection H1 as <-. injection H2 as <-.
    cbn [dm_name dm_returnName]. now rewrite Hname.
Qed.

Lemma emitted_names_collide_witness :
  mc_decoder (methodCase
    {| class_id := 1; class_methods := []; class_name := "a";
       class_properties := None |}
    {| method_id := 1; method_arguments := []; method_synchronous := true;
       method_response := None; method_name := "b-c"; method_content := false |})
  = mc_decoder (methodCase
    {| class_id := 2; class_methods := []; class_name := "a-b";
       class_properties := None |}
    {| method_id := 1; method_arguments := []; method_synchronous := true;
       method_response := None; method_name := "c"; method_content := false |}).
Proof.
  exact (proj1 (emitted_names_collide Sample.spec _ _ _ _ "-"%char
                  eq_refl eq_refl)).
Defined.

(** ** Which schemas the emitters accept *)

Lemma find_first {A : Type} (p : A -> bool) (before after : list A) (x : A) :
  (forall y, In y before -> p y = false) -> p x = true ->
  List.find p (before ++ x :: after) = Some x.
Proof.
  intros Hbefore Hx. induction before as [|y before IH]; cbn.
  - now rewrite Hx.
  - rewrite (Hbefore y (or_introl eq_refl)). apply IH.
    intros z Hz. apply Hbefore. now right.
Qed.

(** X5.  The domain table is searched from the front: the first entry of a
    domain decides the type, and later entries of the same domain are
    never consulted. *)
Theorem resolveType_first_entry (spec : Spec) (arg : ArgumentDefinition)
    (dom type : string) (before after : list (string * string)) :
  arg_type arg = None -> arg_domain arg = Some dom ->
  domains spec = before ++ (dom, type) :: after ->
  ~ In dom (map fst before) ->
  resolveType spec arg = Ok type.
Proof.
  intros Htype Hdom Htable Hfresh. unfold resolveType.
  rewrite Htype, Hdom, Htable.
  rewrite (find_first _ before after (dom, type)); [reflexivity | |].
  - intros [n t] Hin. cbn. apply String.eqb_neq. intros ->.
    apply Hfresh. now apply (in_map fst _ (dom, t)).
  - cbn. apply String.eqb_refl.
Qed.

Lemma resolveType_first_entry_witness :
  resolveType Sample.shadowed Sample.tagged = Ok "longlong".
Proof.
  apply (resolveType_first_entry Sample.shadowed Sample.tagged "tag" "longlong"
           [("bit", "bit")] [("tag", "short")]);
    [reflexivity | reflexivity | reflexivity |].
  cbn. intros [H|[]]. discriminate H.
Defined.

Lemma resolveTypescriptType_accepts (t : string) :
  In t primitiveTypes <-> exists ts, resolveTypescriptType t = Ok ts.
Proof.
  unfold resolveTypescriptType, primitiveTypes.
  repeat match goal with
         | |- context [String.eqb t ?s] =>
             destruct (String.eqb_spec t s) as [->|?];
             [split; [intros _; eexists; reflexivity | intros _; cbn; tauto]|]
         end.
  split; [cbn; intuition congruence | now intros [ts Hts]].
Qed.

Lemma typed_storage (spec : Spec) (a : ArgumentDefinition) :
  typed spec a
  <-> exists ts, resolveType spec a ≫= resolveTypescriptType = Ok ts.
Proof.
  unfold typed. split.
  - intros (t & -> & Ht). now apply resolveTypescriptType_accepts.
  - intros (ts & H). apply bind_Ok in H as (t & Ht & Hts).
    exists t. split; [exact Ht|]. apply resolveTypescriptType_accepts. eauto.
Qed.

Lemma mapM_accepts {A B : Type} (f : A -> result B) (l : list A) :
  (exists k, mapM f l = Ok k) <-> Forall (fun x => exists y, f x = Ok y) l.
Proof.
  split.
  - intros [k Hk]. apply mapM_Ok_Forall2 in Hk.
    induction Hk; constructor; eauto.
  - induction 1 as [|x l [y Hy] _ [k Hk]]; [now exists []|].
    exists (y :: k). now rewrite mapM_cons, Hy, Hk.
Qed.

Lemma imapM_from_Ok {A B : Type} (f : nat -> A -> result B) (l : list A) :
  Forall (fun x => forall i, exists y, f i x = Ok y) l ->
  forall i, exists k, imapM_from i f l = Ok k.
Proof.
  induction 1 as [|x l Hx _ IH]; intros i; [now exists []|].
  destruct (Hx i) as [y Hy]. destruct (IH (S i)) as [k Hk].
  exists (y :: k). cbn [imapM_from]. now rewrite Hy, Hk.
Qed.

Lemma imapM_from_Ok_inv {A B : Type} (f : nat -> A -> result B) (l : list A)
    (i : nat) (k : list B) :
  imapM_from i f l = Ok k -> Forall (fun x => exists j y, f j x = Ok y) l.
Proof.
  revert i k. induction l as [|x l IH]; intros i k H; [constructor|].
  cbn [imapM_from] in H.
  apply bind_Ok in H as (y & Hy & H). apply bind_Ok in H as (k' & Hk' & _).
  constructor; [eauto | eapply IH; exact Hk'].
Qed.

Lemma accepted_fmap {A : Type} (f : A -> string) (r : result A) :
  accepted (f <$> r) <-> exists x, r = Ok x.
Proof.
  unfold accepted. destruct r as [x|e]; cbn; split.
  - eauto.
  - eauto.
  - now intros [text H].
  - now intros [x H].
Qed.

Lemma interface_accepts (spec : Spec) (f : Spec -> ArgumentDefinition -> result Field)
    (l : list ArgumentDefinition) :
  (forall a, (exists y, f spec a = Ok y) <-> typed spec a) ->
  (exists k, mapM (f spec) l = Ok k) <-> Forall (typed spec) l.
Proof.
  intros Hf. rewrite mapM_accepts. split; intros H;
    (eapply Forall_impl; [exact H|]); intros a; apply Hf.
Qed.

Lemma argsField_accepts (spec : Spec) (a : ArgumentDefinition) :
  (exists y, argsField spec a = Ok y) <-> typed spec a.
Proof.
  rewrite typed_storage. unfold argsField. cbn zeta.
  destruct (resolveType spec a ≫= resolveTypescriptType); cbn;
    split; intros [y Hy]; try discriminate; eauto.
Qed.

Lemma valueField_accepts (spec : Spec) (a : ArgumentDefinition) :
  (exists y, valueField spec a = Ok y) <-> typed spec a.
Proof.
  rewrite typed_storage. unfold valueField.
  destruct (resolveType spec a ≫= resolveTypescriptType); cbn;
    split; intros [y Hy]; try discriminate; eauto.
Qed.

Lemma decodedField_accepts (spec : Spec) (i : nat) (a : ArgumentDefinition) :
  (exists y, decodedField spec i a = Ok y) <-> typed spec a.
Proof.
  rewrite typed_storage. unfold decodedField.
  destruct (resolveType spec a ≫= resolveTypescriptType); cbn;
    split; intros [y Hy]; try discriminate; eauto.
Qed.

Lemma encodeField_accepts (spec : Spec) (a : ArgumentDefinition) :
  typed spec a -> exists f, encodeField spec a = Ok f.
Proof.
  intros (t & Ht & Hprim). apply resolveTypescriptType_accepts in Hprim as [ts Hts].
  unfold encodeField, defaultExpr. rewrite Ht. monad.
  destruct (isDefined (arg_default_value a)); cbn [negb]; monad; [|eauto].
  rewrite Hts. monad. destruct (String.eqb ts "bigint"); monad; eauto.
Qed.

(** X6.  The two interface emitters and the decode emitter accept a method
    exactly when every argument resolves to a primitive type name; the
    encode emitter accepts every such method too. *)
Theorem emitters_accept (JSON_stringify : value -> string) (spec : Spec)
    (clazz : ClassDefinition) (method : MethodDefinition) :
  (accepted (printMethodArgsInterface JSON_stringify spec clazz method)
   <-> Forall (typed spec) (method_arguments method))
  /\ (accepted (printMethodValueInterface spec clazz method)
      <-> Forall (typed spec) (method_arguments method))
  /\ (accepted (printDecodeMethodFunction spec clazz method)
      <-> Forall (typed spec) (method_arguments method))
  /\ (Forall (typed spec) (method_arguments method) ->
      accepted (printEncodeMethodFunction JSON_stringify spec clazz method)).
Proof.
  split; [|split; [|split]].
  - rewrite printMethodArgsInterface_text, accepted_fmap.
    rewrite <- (interface_accepts spec argsField _ (argsField_accepts spec)).
    unfold methodArgsInterface. cbn zeta.
    destruct (mapM (argsField spec) (method_arguments method)); cbn;
      split; intros [x Hx]; try discriminate; eauto.
  - rewrite (printMethodValueInterface_text JSON_stringify), accepted_fmap.
    rewrite <- (interface_accepts spec valueField _ (valueField_accepts spec)).
    unfold methodValueInterface. cbn zeta.
    destruct (mapM (valueField spec) (method_arguments method)); cbn;
      split; intros [x Hx]; try discriminate; eauto.
  - rewrite printDecodeMethodFunction_text, accepted_fmap. split.
    + intros [d Hd]. apply decodeMethodFunction_types in Hd as [_ Hargs].
      apply imapM_from_Ok_inv in Hargs.
      eapply Forall_impl; [exact Hargs|].
      intros a (j & y & Hy). apply (decodedField_accepts spec j). eauto.
    + intros Htyped. unfold decodeMethodFunction. cbn zeta.
      assert (Htypes : exists k, mapM (resolveType spec)
                                   (method_arguments method) = Ok k).
      { apply mapM_accepts. eapply Forall_impl; [exact Htyped|].
        intros a (t & Ht & _). eauto. }
      destruct Htypes as [types ->]. monad.
      destruct (imapM_from_Ok (decodedField spec) (method_arguments method))
        with (i := 0%nat) as [dfs Hdfs].
      { eapply Forall_impl; [exact Htyped|].
        intros a Ha i. now apply decodedField_accepts. }
      unfold imapM. rewrite Hdfs. monad. eauto.
  - intros Htyped. rewrite printEncodeMethodFunction_text. apply accepted_fmap.
    unfold encodeMethodFunction. cbn zeta.
    assert (Hfields : exists k, mapM (encodeField spec)
                                  (method_arguments method) = Ok k).
    { apply mapM_accepts. eapply Forall_impl; [exact Htyped|].
      apply encodeField_accepts. }
    destruct Hfields as [fields ->]. monad. eauto.
Qed.

Lemma mapM_first_failure {A B : Type} (f : A -> result B) (l1 l2 : list A)
    (a : A) (e : exn) :
  Forall (fun x => exists y, f x = Ok y) l1 -> f a = Throw e ->
  mapM f (l1 ++ a :: l2) = Throw e.
Proof.
  intros Hl1 Ha. induction Hl1 as [|x l1 [y Hy] _ IH].
  - cbn [app]. now rewrite mapM_cons, Ha.
  - cbn [app]. now rewrite mapM_cons, Hy, IH.
Qed.

Lemma imapM_from_first_failure {A B : Type} (f : nat -> A -> result B)
    (l1 l2 : list A) (a : A) (e : exn) :
  Forall (fun x => forall i, exists y, f i x = Ok y) l1 ->
  (forall i, f i a = Throw e) ->
  forall i, imapM_from i f (l1 ++ a :: l2) = Throw e.
Proof.
  intros Hl1 Ha. induction Hl1 as [|x l1 Hx _ IH]; intros i.
  - cbn [app imapM_from]. now rewrite Ha.
  - cbn [app imapM_from]. destruct (Hx i) as [y ->]. monad. now rewrite IH.
Qed.

Lemma argsField_fails (spec : Spec) (a : ArgumentDefinition) (e : exn) :
  resolveType spec a ≫= resolveTypescriptType = Throw e ->
  argsField spec a = Throw e.
Proof.
  unfold argsField. cbn zeta. intros H.
  destruct (resolveType spec a) as [t|e']; cbn in *; [now rewrite H | congruence].
Qed.

Lemma valueField_fails (spec : Spec) (a : ArgumentDefinition) (e : exn) :
  resolveType spec a ≫= resolveTypescriptType = Throw e ->
  valueField spec a = Throw e.
Proof.
  unfold valueField. intros H.
  destruct (resolveType spec a) as [t|e']; cbn in *; [now rewrite H | congruence].
Qed.

(** X7.  Each emitter reports the first failure of its own passes.  The
    interface emitters stop at the first argument, in declaration order,
    whose type or storage type fails.  The decode emitter first resolves
    the type of every argument, so an unresolvable argument is reported
    even when an earlier argument has an unknown primitive type; only when
    all resolve does it report the first unknown primitive type. *)
Theorem first_failure (JSON_stringify : value -> string) (spec : Spec)
    (clazz : ClassDefinition) (method : MethodDefinition) :
  (forall l1 a l2 e,
     method_arguments method = l1 ++ a :: l2 ->
     Forall (typed spec) l1 ->
     resolveType spec a ≫= resolveTypescriptType = Throw e ->
     printMethodArgsInterface JSON_stringify spec clazz method = Throw e
     /\ printMethodValueInterface spec clazz method = Throw e)
  /\ (forall l1 a l2 e,
        method_arguments method = l1 ++ a :: l2 ->
        Forall (resolves spec) l1 ->
        resolveType spec a = Throw e ->
        printDecodeMethodFunction spec clazz method = Throw e)
  /\ (forall l1 a l2 t,
        method_arguments method = l1 ++ a :: l2 ->
        Forall (resolves spec) (method_arguments method) ->
        Forall (typed spec) l1 ->
        resolveType spec a = Ok t -> ~ In t primitiveTypes ->
        printDecodeMethodFunction spec clazz method
        = Throw (UnknownPrimitiveType t)).
Proof.
  split; [|split].
  - intros l1 a l2 e Hargs Hl1 Ha.
    rewrite printMethodArgsInterface_text.
    rewrite (printMethodValueInterface_text JSON_stringify).
    unfold methodArgsInterface, methodValueInterface. cbn zeta. rewrite Hargs.
    rewrite (mapM_first_failure (argsField spec) l1 l2 a e),
            (mapM_first_failure (valueField spec) l1 l2 a e).
    + now split.
    + eapply Forall_impl; [exact Hl1|]. intros x. apply valueField_accepts.
    + now apply valueField_fails.
    + eapply Forall_impl; [exact Hl1|]. intros x. apply argsField_accepts.
    + now apply argsField_fails.
  - intros l1 a l2 e Hargs Hl1 Ha.
    rewrite printDecodeMethodFunction_text.
    unfold decodeMethodFunction. cbn zeta. rewrite Hargs.
    now rewrite (mapM_first_failure (resolveType spec) l1 l2 a e Hl1 Ha).
  - intros l1 a l2 t Hargs Hall Hl1 Ha Ht.
    rewrite printDecodeMethodFunction_text.
    unfold decodeMethodFunction. cbn zeta.
    apply mapM_accepts in Hall as [types ->]. monad.
    unfold imapM. rewrite Hargs.
    rewrite (imapM_from_first_failure (decodedField spec) l1 l2 a
               (UnknownPrimitiveType t)); [reflexivity | |].
    + eapply Forall_impl; [exact Hl1|].
      intros x Hx i. now apply decodedField_accepts.
    + intros i. unfold decodedField. rewrite Ha. monad.
      unfold resolveTypescriptType, primitiveTypes in *.
      repeat match goal with
             | |- context [String.eqb t ?s] =>
                 destruct (String.eqb_spec t s) as [->|?];
                 [exfalso; apply Ht; cbn; tauto|]
             end.
      reflexivity.
Qed.

Lemma first_failure_witness :
  printMethodArgsInterface ReferenceCodec.stringify Sample.spec Sample.basic
    Sample.rejected
  = Throw (UnknownPrimitiveType "float")
  /\ printDecodeMethodFunction Sample.spec Sample.basic Sample.rejected
     = Throw UnresolvedType.
Proof.
  destruct (first_failure ReferenceCodec.stringify Sample.spec Sample.basic
              Sample.rejected) as (Hinterface & Hdecode & _).
  split.
  - apply (Hinterface [Sample.queue] Sample.badStorage [Sample.untyped]);
      [reflexivity | | reflexivity].
    repeat constructor. exists "shortstr". split; [reflexivity | cbn; tauto].
  - apply (Hdecode [Sample.queue; Sample.badStorage] Sample.untyped []);
      [reflexivity | | reflexivity].
    repeat constructor; eexists; reflexivity.
Defined.

(** ** What the emitted encoders read and pass *)

(** X8.  For an argument that has a default, the emitted encode function
    never passes [undefined] to the codec: it passes the given value, or
    the default, or fails converting the default to a 64-bit integer. *)
Theorem default_never_undefined (StringToBigInt : string -> option Z)
    (spec : Spec) (args : gmap string value) (a : ArgumentDefinition)
    (f : EncodeField) (v : value) :
  encodeField spec a = Ok f ->
  arg_default_value a <> VUndefined ->
  evalValueExpr StringToBigInt args (ef_value f) = Ok v ->
  v <> VUndefined.
Proof.
  intros Hf Hdefault%isDefined_true Hv. unfold encodeField, defaultExpr in Hf.
  apply bind_Ok in Hf as (type & _ & Hf).
  apply bind_Ok in Hf as (d & Hd & Hf). injection Hf as <-.
  rewrite Hdefault in Hd, Hv. cbn [negb ef_value evalValueExpr] in Hd, Hv.
  destruct (isDefined (get args (camelCase (arg_name a)))) eqn:Hgiven.
  - injection Hv as <-. now apply isDefined_true.
  - apply bind_Ok in Hd as (t & _ & Hd). apply bind_Ok in Hd as (ts & _ & Hd).
    destruct (String.eqb ts "bigint"); injection Hd as <-;
      cbn [evalDefaultExpr] in Hv.
    + unfold BigInt in Hv.
      destruct (arg_default_value a) as [|n|n|b|s|o|g]; try discriminate;
        try (injection Hv as <-; discriminate).
      destruct (StringToBigInt s); [injection Hv as <-|]; discriminate.
    + injection Hv as <-. now apply isDefined_true.
Qed.

Lemma default_never_undefined_witness :
  evalValueExpr ReferenceCodec.noStringToBigInt Sample.minimalArgs
    (VArgOrDefault "deliveryTag" (DBigInt (VNumber 0))) = Ok (VBigInt 0)
  /\ VBigInt 0 <> VUndefined.
Proof.
  split; [reflexivity|].
  apply (default_never_undefined ReferenceCodec.noStringToBigInt Sample.spec
           Sample.minimalArgs Sample.deliveryTag
           {| ef_type := "longlong";
              ef_value := VArgOrDefault "deliveryTag" (DBigInt (VNumber 0)) |});
    [reflexivity | discriminate | reflexivity].
Defined.

Lemma evalEncodeFields_same (StringToBigInt : string -> option Z) (spec : Spec)
    (args1 args2 : gmap string value) (l : list ArgumentDefinition)
    (fields : list EncodeField) :
  (forall a, In a l -> get args1 (argField a) = get args2 (argField a)) ->
  mapM (encodeField spec) l = Ok fields ->
  mapM (evalEncodeField StringToBigInt args1) fields
  = mapM (evalEncodeField StringToBigInt args2) fields.
Proof.
  revert fields. induction l as [|a l IH]; intros fields Hsame H.
  - now injection H as <-.
  - rewrite mapM_cons in H.
    apply bind_Ok in H as (f & Hf & H).
    apply bind_Ok in H as (fs & Hfs & H). injection H as <-.
    rewrite !mapM_cons, (IH fs); [|intros b Hb; apply Hsame; now right | exact Hfs].
    f_equal. unfold encodeField in Hf.
    apply bind_Ok in Hf as (type & _ & Hf).
    apply bind_Ok in Hf as (d & _ & Hf). injection Hf as <-.
    unfold evalEncodeField. cbn [ef_value ef_type].
    fold (argField a). pose proof (Hsame a (or_introl eq_refl)) as Ha.
    destruct (isDefined (arg_default_value a)); cbn [evalValueExpr];
      now rewrite Ha.
Qed.

(** X9.  The emitted encoders read the declared fields and nothing else:
    two inputs on which the reads [args.name] of the method's arguments (or
    [props.name] of the class's properties) agree encode alike, whatever
    else they hold.  The reads are those of the language: an own property,
    or else the member of [Object.prototype] of that name, or else
    [undefined]. *)
Theorem encoders_read_declared_fields (enc : Codec)
    (StringToBigInt : string -> option Z) (spec : Spec)
    (clazz : ClassDefinition) :
  (forall method e args1 args2,
     encodeMethodFunction spec clazz method = Ok e ->
     (forall a, In a (method_arguments method) ->
                get args1 (argField a) = get args2 (argField a)) ->
     runEncodeMethod enc StringToBigInt e args1
     = runEncodeMethod enc StringToBigInt e args2)
  /\ (forall size props1 props2,
        (forall p, In p (default [] (class_properties clazz)) ->
                   get props1 (propField p) = get props2 (propField p)) ->
        runEncodeHeader enc (encodeHeaderFunction clazz) size props1
        = runEncodeHeader enc (encodeHeaderFunction clazz) size props2).
Proof.
  split.
  - intros method e args1 args2 He Hsame.
    apply encodeMethodFunction_fields in He as (Hfields & _ & _).
    unfold runEncodeMethod.
    now rewrite (evalEncodeFields_same _ _ _ _ _ _ Hsame Hfields).
  - intros size props1 props2 Hsame. unfold runEncodeHeader.
    replace (map (evalOptionalField props1) (eh_fields (encodeHeaderFunction clazz)))
      with (map (evalOptionalField props2) (eh_fields (encodeHeaderFunction clazz)));
      [reflexivity|].
    unfold encodeHeaderFunction. cbn [eh_fields]. rewrite !map_map.
    apply map_ext_in. intros p Hp. unfold evalOptionalField, optionalField.
    cbn [of_type of_prop]. fold (propField p). now rewrite (Hsame p Hp).
Qed.

Lemma encoders_read_declared_fields_witness :
  runEncodeMethod ReferenceCodec.codec ReferenceCodec.noStringToBigInt
    Sample.encodeAck Sample.minimalArgs
  = runEncodeMethod ReferenceCodec.codec ReferenceCodec.noStringToBigInt
      Sample.encodeAck
      (<["multiple" := VUndefined]> (<["extra" := VNumber 1]> Sample.minimalArgs)).
Proof.
  apply (proj1 (encoders_read_declared_fields ReferenceCodec.codec
                  ReferenceCodec.noStringToBigInt Sample.spec Sample.basic)
           Sample.ack); [exact sample_encode_ack|].
  intros a [<-|[<-|[<-|[]]]]; reflexivity.
Defined.

(** ** What the emitted decoders build *)

Lemma imapM_from_lookup {A B : Type} (g : nat -> A -> result B) (l : list A)
    (i j : nat) (dfs : list B) (a : A) :
  imapM_from i g l = Ok dfs -> l !! j = Some a ->
  exists df, dfs !! j = Some df /\ g (i + j)%nat a = Ok df.
Proof.
  revert i j dfs. induction l as [|x l IH]; intros i j dfs H Hj; [discriminate|].
  cbn [imapM_from] in H.
  apply bind_Ok in H as (df & Hdf & H).
  apply bind_Ok in H as (dfs' & Hdfs & H). injection H as <-.
  destruct j as [|j].
  - injection Hj as <-. exists df. rewrite Nat.add_0_r. now split.
  - destruct (IH (S i) j dfs' Hdfs Hj) as (df' & Hlook & Hg).
    exists df'. split; [exact Hlook|].
    now replace (i + S j)%nat with (S i + j)%nat by lia.
Qed.

Lemma imapM_from_layout {A : Type} (g : nat -> A -> result DecodedField)
    (name : A -> string) :
  (forall i a df, g i a = Ok df -> df_name df = name a /\ df_index df = i) ->
  forall (l : list A) (i : nat) (dfs : list DecodedField),
    imapM_from i g l = Ok dfs ->
    map df_name dfs = map name l /\ map df_index dfs = seq i (length l).
Proof.
  intros Hg. induction l as [|a l IH]; intros i dfs H.
  - injection H as <-. now split.
  - cbn [imapM_from] in H.
    apply bind_Ok in H as (df & Hdf & H).
    apply bind_Ok in H as (dfs' & Hdfs & H). injection H as <-.
    destruct (Hg _ _ _ Hdf) as [Hname Hindex].
    destruct (IH _ _ Hdfs) as [Hnames Hindices].
    cbn. now rewrite Hname, Hindex, Hnames, Hindices.
Qed.

Lemma mapM_length {A B : Type} (f : A -> result B) (l : list A) (k : list B) :
  mapM f l = Ok k -> length k = length l.
Proof.
  intros H%mapM_Ok_Forall2. symmetry. exact (Forall2_length _ _ _ H).
Qed.

(** The object literal of a decode function, whatever list [vs] the codec
    returned: the declared names, each with the value at its position. *)
Lemma decoded_object {A : Type} (g : nat -> A -> result DecodedField)
    (name : A -> string) (l : list A) (dfs : list DecodedField)
    (vs : list value) :
  (forall i a df, g i a = Ok df -> df_name df = name a /\ df_index df = i) ->
  imapM g l = Ok dfs -> NoDup (map name l) ->
  let o := objectLiteral (map (readDecodedField vs) dfs) in
  (forall k, is_Some (o !! k) <-> In k (map name l))
  /\ (forall i a, l !! i = Some a -> get o (name a) = index vs i).
Proof.
  intros Hg Hdfs Hnodup o.
  destruct (imapM_from_layout g name Hg _ _ _ Hdfs) as [Hnames _].
  assert (Hkeys : map fst (map (readDecodedField vs) dfs) = map name l).
  { rewrite map_map. exact Hnames. }
  assert (Hat : forall i a, l !! i = Some a ->
                  o !! name a = Some (index vs i)).
  { intros i a Hi.
    destruct (imapM_from_lookup _ _ _ _ _ _ Hdfs Hi) as (df & Hdf & Hgdf).
    destruct (Hg _ _ _ Hgdf) as [Hname Hindex]. cbn in Hindex.
    apply objectLiteral_lookup_Some; [now rewrite Hkeys|].
    apply in_map_iff. exists df. split.
    - unfold readDecodedField. now rewrite Hname, Hindex.
    - apply list_elem_of_In. eapply list_elem_of_lookup_2. exact Hdf. }
  split.
  - intros k. split.
    + intros Hsome.
      destruct (in_dec string_dec k (map name l)) as [Hk|Hk]; [exact Hk|].
      rewrite <- Hkeys in Hk. apply objectLiteral_lookup_None in Hk.
      fold o in Hk. rewrite Hk in Hsome. now destruct Hsome.
    + intros (a & <- & Ha)%in_map_iff.
      apply list_elem_of_In, list_elem_of_lookup in Ha as [i Hi].
      rewrite (Hat i a Hi). eauto.
  - intros i a Hi. apply get_Some. now apply Hat.
Qed.

(** X10.  The emitted decode function of a method asks the codec for one
    type per argument and reads position [i] for the [i]-th argument.  So,
    whatever list the codec returns, the decoded object has exactly the
    declared fields, a field past the end of the returned list is
    [undefined], and values past the last field are dropped. *)
Theorem decode_method_layout (enc : Codec) (spec : Spec)
    (clazz : ClassDefinition) (method : MethodDefinition) (d : DecodeMethod) :
  decodeMethodFunction spec clazz method = Ok d ->
  length (dm_types d) = length (method_arguments method)
  /\ map df_name (dm_args d) = map argField (method_arguments method)
  /\ map df_index (dm_args d) = seq 0 (length (method_arguments method))
  /\ forall (r r' : bytes) (vs : list value),
       decodeFields enc r (dm_types d) = Ok (vs, r') ->
       NoDup (map argField (method_arguments method)) ->
       exists o,
         runDecodeMethod enc d r = Ok (o, r')
         /\ (forall k, is_Some (o !! k)
                       <-> In k (map argField (method_arguments method)))
         /\ (forall i a, method_arguments method !! i = Some a ->
                         get o (argField a) = index vs i)
         /\ (forall i a, method_arguments method !! i = Some a ->
                         (length vs <= i)%nat -> get o (argField a) = VUndefined).
Proof.
  intros Hd. destruct (decodeMethodFunction_types _ _ _ _ Hd) as [Htypes Hargs].
  destruct (imapM_from_layout (decodedField spec) argField
              (decodedField_name spec) _ _ _ Hargs) as [Hnames Hindices].
  split; [exact (mapM_length _ _ _ Htypes)|].
  split; [exact Hnames|]. split; [exact Hindices|].
  intros r r' vs Hvs Hnodup. unfold runDecodeMethod. rewrite Hvs. monad.
  eexists. split; [reflexivity|].
  destruct (decoded_object (decodedField spec) argField _ _ vs
              (decodedField_name spec) Hargs Hnodup) as [Hdom Hat].
  split; [exact Hdom|]. split; [exact Hat|].
  intros i a Hi Hshort. rewrite (Hat i a Hi). unfold index.
  now apply nth_overflow.
Qed.

Lemma decode_method_layout_witness :
  exists (d : DecodeMethod) (o : gmap string value),
    decodeMethodFunction Sample.spec Sample.basic Sample.ack = Ok d
    /\ map df_index (dm_args d) = [0; 1; 2]%nat
    /\ runDecodeMethod
         Sample.shortCodec
         d [] = Ok (o, [])
    /\ get o "queueName" = VString "x"
    /\ get o "multiple" = VUndefined.
Proof.
  eexists.
  destruct (decode_method_layout
              Sample.shortCodec
              Sample.spec Sample.basic Sample.ack _ eq_refl)
    as (_ & _ & Hindices & Hrun).
  destruct (Hrun [] [] [VString "x"] eq_refl sample_field_names)
    as (o & Ho & _ & Hat & Hshort).
  exists o. split; [reflexivity|]. split; [exact Hindices|].
  split; [exact Ho|]. split.
  - exact (Hat 0%nat Sample.queue eq_refl).
  - apply (Hshort 2%nat Sample.multiple eq_refl). cbn. lia.
Defined.

(** ** Header emitters *)

Lemma propertyField_accepts (p : PropertyDefinition) :
  (exists f, propertyField p = Ok f) <-> In (prop_type p) primitiveTypes.
Proof.
  rewrite resolveTypescriptType_accepts. unfold propertyField.
  destruct (resolveTypescriptType (prop_type p)); cbn;
    split; intros [y Hy]; try discriminate; eauto.
Qed.

Lemma decodedProperty_accepts (i : nat) (p : PropertyDefinition) :
  (exists f, decodedProperty i p = Ok f) <-> In (prop_type p) primitiveTypes.
Proof.
  rewrite resolveTypescriptType_accepts. unfold decodedProperty.
  destruct (resolveTypescriptType (prop_type p)); cbn;
    split; intros [y Hy]; try discriminate; eauto.
Qed.

(** X11.  The properties declaration of a class is emitted exactly when
    every property has a primitive type, and so is the header decode
    function.  Every
    field of the declaration is optional, carries no default, is named in
    lower-camel form and has the storage type of its property, in
    declaration order. *)
Theorem property_interface (JSON_stringify : value -> string)
    (clazz : ClassDefinition) :
  let props := default [] (class_properties clazz) in
  (accepted (printClassPropertyInterface clazz)
   <-> Forall (fun p => In (prop_type p) primitiveTypes) props)
  /\ (accepted (printDecodeHeaderFunction clazz)
      <-> Forall (fun p => In (prop_type p) primitiveTypes) props)
  /\ forall i,
       classPropertyInterface clazz = Ok i ->
       printClassPropertyInterface clazz
       = Ok (printPropertyInterface JSON_stringify i)
       /\ Forall2 (fun p f =>
                     field_name f = propField p
                     /\ field_optional f = true
                     /\ field_default f = None
                     /\ resolveTypescriptType (prop_type p) = Ok (field_type f))
            props (iface_fields i).
Proof.
  intros props. split; [|split].
  - rewrite (printClassPropertyInterface_text JSON_stringify), accepted_fmap.
    unfold classPropertyInterface. fold props.
    transitivity (exists k, mapM propertyField props = Ok k).
    + destruct (mapM propertyField props); cbn;
        split; intros [x Hx]; try discriminate; eauto.
    + rewrite mapM_accepts. split; intros H;
        (eapply Forall_impl; [exact H|]); intros p; apply propertyField_accepts.
  - rewrite printDecodeHeaderFunction_text, accepted_fmap. split.
    + intros [f Hf]. apply decodeHeaderFunction_name in Hf as (_ & _ & _ & Hf).
      apply imapM_from_Ok_inv in Hf. eapply Forall_impl; [exact Hf|].
      intros p (j & y & Hy). apply (decodedProperty_accepts j). eauto.
    + intros Hprim. unfold decodeHeaderFunction. cbn zeta. fold props.
      destruct (imapM_from_Ok decodedProperty props) with (i := 0%nat)
        as [dfs Hdfs].
      { eapply Forall_impl; [exact Hprim|].
        intros p Hp i. now apply decodedProperty_accepts. }
      unfold imapM. rewrite Hdfs. monad. eauto.
  - intros i Hi. split.
    + now rewrite (printClassPropertyInterface_text JSON_stringify), Hi.
    + unfold classPropertyInterface in Hi. fold props in Hi.
      apply bind_Ok in Hi as (fields & Hfields & Hi). injection Hi as <-.
      cbn [iface_fields]. apply mapM_Ok_Forall2 in Hfields.
      eapply Forall2_impl; [exact Hfields|].
      intros p f Hf. unfold propertyField in Hf.
      apply bind_Ok in Hf as (ts & Hts & Hf). injection Hf as <-.
      now repeat split.
Qed.

(** X12.  The emitted header encode and decode functions of a class agree:
    the types the decoder asks for are, position by position, the types
    the encoder passes, the decoder builds the property the encoder reads
    at each position, and positions count from zero. *)
Theorem header_fields_agree (clazz : ClassDefinition) (f : DecodeHeader) :
  decodeHeaderFunction clazz = Ok f ->
  printDecodeHeaderFunction clazz = Ok (printDecodeHeader f)
  /\ printEncodeHeaderFunction clazz
     = printEncodeHeader (encodeHeaderFunction clazz)
  /\ dh_types f = map of_type (eh_fields (encodeHeaderFunction clazz))
  /\ map df_name (dh_props f)
     = map of_prop (eh_fields (encodeHeaderFunction clazz))
  /\ map df_index (dh_props f)
     = seq 0 (length (eh_fields (encodeHeaderFunction clazz)))
  /\ dh_classId f = eh_classId (encodeHeaderFunction clazz).
Proof.
  intros Hf.
  destruct (decodeHeaderFunction_name _ _ Hf) as (_ & Hid & Htypes & Hprops).
  destruct (imapM_from_layout decodedProperty propField decodedProperty_name
              _ _ _ Hprops) as [Hnames Hindices].
  split; [now rewrite printDecodeHeaderFunction_text, Hf|].
  split; [apply printEncodeHeaderFunction_text|].
  unfold encodeHeaderFunction. cbn [eh_fields eh_classId].
  rewrite !map_map, length_map. cbn [optionalField of_type of_prop].
  now repeat split.
Qed.

Lemma header_fields_agree_witness :
  exists f : DecodeHeader,
    decodeHeaderFunction Sample.basic = Ok f
    /\ dh_types f = ["shortstr"; "octet"]
    /\ map of_type (eh_fields (encodeHeaderFunction Sample.basic))
       = ["shortstr"; "octet"]
    /\ map df_index (dh_props f) = [0; 1]%nat.
Proof.
  eexists.
  pose proof (header_fields_agree Sample.basic _ eq_refl)
    as (_ & _ & Htypes & _ & Hindices & _).
  split; [reflexivity|]. split; [exact Htypes|].
  split; [reflexivity | exact Hindices].
Defined.

(** ** Dispatch in general *)

Lemma switch_first {C : Type} (label : C -> Z) (before after : list C) (c : C) :
  (forall c', In c' before -> label c' <> label c) ->
  switch label (label c) (before ++ c :: after) = Some c.
Proof.
  intros Hbefore. unfold switch. apply find_first.
  - intros c' Hc'. apply Z.eqb_neq. now apply Hbefore.
  - apply Z.eqb_refl.
Qed.

(** X13.  Both dispatch functions take the first case that matches: with
    the class id of a class that no earlier class shares, [decodeHeader]
    calls the header decoder of that class, and [decodeMethod], with the
    method id of a method that no earlier method of the class shares,
    calls the decoder of that method and returns the ids it read; a
    failure of the called decoder is the failure of the dispatch.  Classes
    and methods that come later with the same id are never reached. *)
Theorem dispatch_first_match (enc : Codec) (module : list Declaration)
    (spec : Spec) (before after : list ClassDefinition)
    (clazz : ClassDefinition) (data r1 : bytes) :
  classes spec = before ++ clazz :: after ->
  (forall c, In c before -> class_id c <> class_id clazz) ->
  decodeShortUint enc data = Ok (class_id clazz, r1) ->
  runHeaderDecoder enc module (headerDecoder spec) data
  = fst <$> callDecodeHeader enc module (hc_decoder (headerCase clazz)) r1
  /\ forall (mbefore mafter : list MethodDefinition) (method : MethodDefinition)
       (r2 : bytes),
       class_methods clazz = mbefore ++ method :: mafter ->
       (forall m, In m mbefore -> method_id m <> method_id method) ->
       decodeShortUint enc r1 = Ok (method_id method, r2) ->
       runMethodDecoder enc module (methodDecoder spec) data
       = (fun ar => {| rm_classId := class_id clazz;
                       rm_methodId := method_id method;
                       rm_args := ar.1 |})
         <$> callDecodeMethod enc module (mc_decoder (methodCase clazz method)) r2.
Proof.
  intros Hclasses Hbefore Hclass. split.
  - unfold runHeaderDecoder. rewrite Hclass. monad.
    rewrite switch_headerCase, Hclasses, (switch_first _ _ _ _ Hbefore).
    cbn [fmap option_fmap option_map].
    now destruct (callDecodeHeader _ _ _ _) as [[h r]|].
  - intros mbefore mafter method r2 Hmethods Hmbefore Hmethod.
    unfold runMethodDecoder. rewrite Hclass. monad. rewrite Hmethod. monad.
    rewrite switch_classCase, Hclasses, (switch_first _ _ _ _ Hbefore).
    cbn [fmap option_fmap option_map].
    rewrite switch_methodCase, Hmethods, (switch_first _ _ _ _ Hmbefore).
    cbn [fmap option_fmap option_map].
    now destruct (callDecodeMethod _ _ _ _) as [[ar r]|].
Qed.

Lemma dispatch_first_match_witness :
  runHeaderDecoder codec Sample.module (headerDecoder Sample.twice)
    Sample.headerBytes
  = fst <$> callDecodeHeader codec Sample.module "decodeBasicHeader"
              (skipn 2 Sample.headerBytes).
Proof.
  exact (proj1 (dispatch_first_match codec Sample.module Sample.twice []
                  [_] Sample.basic Sample.headerBytes
                  (skipn 2 Sample.headerBytes) eq_refl
                  (fun c (H : In c []) => match H with end) eq_refl)).
Defined.

Lemma dispatch_calls_declared_header (enc : Codec) (spec : Spec)
    (module : list Declaration) (clazz : ClassDefinition) :
  emitModule spec = Ok module -> validModule module ->
  In clazz (classes spec) ->
  exists f, decodeHeaderFunction clazz = Ok f
            /\ forall r, callDecodeHeader enc module
                           (hc_decoder (headerCase clazz)) r
                         = runDecodeHeader enc f r.
Proof.
  intros Hmodule Hvalid Hin.
  destruct (emitModule_class _ _ _ Hmodule Hin) as (decls & Hdecls & Hsub).
  destruct (emitClass_header _ _ _ Hdecls) as (f & Hf & Hmem).
  exists f. split; [exact Hf|]. intros r. unfold callDecodeHeader.
  destruct (decodeHeaderFunction_name _ _ Hf) as (<- & _).
  pose proof (lookupDeclaration_valid _ _ Hvalid (Hsub _ Hmem)) as Hlookup.
  cbn [declName] in Hlookup. now rewrite Hlookup.
Qed.

Lemma dispatch_calls_declared_method (enc : Codec) (spec : Spec)
    (module : list Declaration) (clazz : ClassDefinition)
    (method : MethodDefinition) :
  emitModule spec = Ok module -> validModule module ->
  In clazz (classes spec) -> In method (class_methods clazz) ->
  exists d, decodeMethodFunction spec clazz method = Ok d
            /\ forall r, callDecodeMethod enc module
                           (mc_decoder (methodCase clazz method)) r
                         = runDecodeMethod enc d r.
Proof.
  intros Hmodule Hvalid Hin Hmin.
  destruct (emitModule_class _ _ _ Hmodule Hin) as (decls & Hdecls & Hsub).
  destruct (emitClass_method _ _ _ _ Hdecls Hmin) as (e & d & _ & Hd & Hmem).
  exists d. split; [exact Hd|]. intros r. unfold callDecodeMethod.
  rewrite <- (decodeMethodFunction_name _ _ _ _ Hd).
  pose proof (lookupDeclaration_valid _ _ Hvalid (Hsub _ Hmem)) as Hlookup.
  cbn [declName] in Hlookup. now rewrite Hlookup.
Qed.

(** X14.  In a generated module that declares each function name once,
    every function a dispatch case calls is declared: the call of the case
    of a method runs the decode function emitted for that method, and the
    call of the case of a class runs the header decode function emitted
    for that class. *)
Theorem dispatch_calls_declared (enc : Codec) (spec : Spec)
    (module : list Declaration) (clazz : ClassDefinition) :
  emitModule spec = Ok module -> validModule module ->
  In clazz (classes spec) ->
  (exists f, decodeHeaderFunction clazz = Ok f
             /\ forall r, callDecodeHeader enc module
                            (hc_decoder (headerCase clazz)) r
                          = runDecodeHeader enc f r)
  /\ forall method, In method (class_methods clazz) ->
       exists d, decodeMethodFunction spec clazz method = Ok d
                 /\ forall r, callDecodeMethod enc module
                                (mc_decoder (methodCase clazz method)) r
                              = runDecodeMethod enc d r.
Proof.
  intros Hmodule Hvalid Hin. split.
  - exact (dispatch_calls_declared_header enc spec module clazz
             Hmodule Hvalid Hin).
  - intros method Hmin.
    exact (dispatch_calls_declared_method enc spec module clazz method
             Hmodule Hvalid Hin Hmin).
Qed.

Lemma dispatch_calls_declared_witness :
  exists d, decodeMethodFunction Sample.spec Sample.basic Sample.ack = Ok d
            /\ forall r, callDecodeMethod codec Sample.module "decodeBasicAck" r
                         = runDecodeMethod codec d r.
Proof.
  exact (proj2 (dispatch_calls_declared codec Sample.spec Sample.module
                  Sample.basic sample_module sample_module_valid
                  (or_introl eq_refl))
           Sample.ack (or_introl eq_refl)).
Defined.

(** ** Bytes after a message *)

Lemma header_decode_rest (enc : Codec) (spec : Spec)
    (module : list Declaration) (clazz : ClassDefinition) (size : Z)
    (props : gmap string value) (data : bytes) :
  CodecContract enc ->
  emitModule spec = Ok module -> validModule module ->
  NoDup (map class_id (classes spec)) -> In clazz (classes spec) ->
  runEncodeHeader enc (encodeHeaderFunction clazz) size props = Ok data ->
  exists h, forall rest,
    runHeaderDecoder enc module (headerDecoder spec) (data ++ rest) = Ok h.
Proof.
  intros Henc Hmodule Hvalid Hids Hin Hdata.
  unfold runEncodeHeader in Hdata.
  apply bind_Ok in Hdata as (b1 & Hb1 & Hdata).
  apply bind_Ok in Hdata as (b2 & Hb2 & Hdata).
  apply bind_Ok in Hdata as (b3 & Hb3 & Hdata).
  apply bind_Ok in Hdata as (b4 & Hb4 & Hdata). injection Hdata as <-.
  change (eh_classId (encodeHeaderFunction clazz)) with (class_id clazz) in Hb1.
  destruct (dispatch_calls_declared_header enc spec module clazz Hmodule Hvalid Hin)
    as (f & Hf & Hcall).
  destruct (decodeHeaderFunction_name _ _ Hf) as (_ & _ & Htypes & _).
  set (fs := map (evalOptionalField props) (eh_fields (encodeHeaderFunction clazz)))
    in Hb4.
  assert (Hfs : dh_types f = map fst fs).
  { rewrite Htypes. unfold fs, encodeHeaderFunction. cbn [eh_fields].
    now rewrite !map_map. }
  eexists. intros rest.
  unfold runHeaderDecoder. cbn [app]. rewrite <- !app_assoc.
  rewrite (shortUint_mirror _ Henc _ _ _ Hb1). monad.
  rewrite switch_headerCase, (switch_unique _ _ _ Hids Hin).
  cbn [fmap option_fmap option_map].
  rewrite Hcall. unfold runDecodeHeader.
  rewrite (shortUint_mirror _ Henc _ _ _ Hb2). monad.
  rewrite (longLongUint_mirror _ Henc _ _ _ Hb3). monad.
  rewrite Hfs, (optionalFields_mirror _ Henc _ _ _ Hb4). monad.
  reflexivity.
Qed.

Lemma method_decode_rest (enc : Codec) (StringToBigInt : string -> option Z)
    (spec : Spec) (args : gmap string value) (module : list Declaration)
    (clazz : ClassDefinition) (method : MethodDefinition) (e : EncodeMethod)
    (data : bytes) :
  CodecContract enc ->
  emitModule spec = Ok module -> validModule module ->
  NoDup (map class_id (classes spec)) -> In clazz (classes spec) ->
  NoDup (map method_id (class_methods clazz)) ->
  In method (class_methods clazz) ->
  encodeMethodFunction spec clazz method = Ok e ->
  runEncodeMethod enc StringToBigInt e args = Ok data ->
  exists m, forall rest,
    runMethodDecoder enc module (methodDecoder spec) (data ++ rest) = Ok m.
Proof.
  intros Henc Hmodule Hvalid Hids Hin Hmids Hmin He Hdata.
  destruct (encodeMethodFunction_fields _ _ _ _ He) as (Hefs & Hcid & Hmid).
  unfold runEncodeMethod in Hdata. rewrite Hcid, Hmid in Hdata.
  apply bind_Ok in Hdata as (b1 & Hb1 & Hdata).
  apply bind_Ok in Hdata as (b2 & Hb2 & Hdata).
  apply bind_Ok in Hdata as (fields & Hfields & Hdata).
  apply bind_Ok in Hdata as (b3 & Hb3 & Hdata). injection Hdata as <-.
  destruct (evaluated_fields _ _ _ _ _ _ Hefs Hfields) as [_ Hfst].
  destruct (dispatch_calls_declared_method enc spec module clazz method
              Hmodule Hvalid Hin Hmin) as (d & Hd & Hcall).
  destruct (decodeMethodFunction_types _ _ _ _ Hd) as [Htypes _].
  assert (Hdm : dm_types d = map fst fields).
  { rewrite Hfst. symmetry. exact (encodeFields_types _ _ _ _ Hefs Htypes). }
  eexists. intros rest.
  unfold runMethodDecoder. cbn [app]. rewrite <- !app_assoc.
  rewrite (shortUint_mirror _ Henc _ _ _ Hb1). monad.
  rewrite (shortUint_mirror _ Henc _ _ _ Hb2). monad.
  rewrite switch_classCase, (switch_unique _ _ _ Hids Hin).
  cbn [fmap option_fmap option_map].
  rewrite switch_methodCase, (switch_unique _ _ _ Hmids Hmin).
  cbn [fmap option_fmap option_map].
  rewrite Hcall. unfold runDecodeMethod.
  rewrite Hdm, (fields_mirror _ Henc _ _ _ Hb3). monad.
  reflexivity.
Qed.

(** X15.  Neither dispatch function checks that its input ends where the
    message ends: bytes appended to an encoded method, or to an encoded
    header, do not change what is decoded. *)
Theorem trailing_bytes_ignored (enc : Codec) (spec : Spec)
    (module : list Declaration) (clazz : ClassDefinition) :
  CodecContract enc ->
  emitModule spec = Ok module -> validModule module ->
  NoDup (map class_id (classes spec)) -> In clazz (classes spec) ->
  (forall size props data rest,
     runEncodeHeader enc (encodeHeaderFunction clazz) size props = Ok data ->
     runHeaderDecoder enc module (headerDecoder spec) (data ++ rest)
     = runHeaderDecoder enc module (headerDecoder spec) data)
  /\ (forall StringToBigInt method e args data rest,
        NoDup (map method_id (class_methods clazz)) ->
        In method (class_methods clazz) ->
        encodeMethodFunction spec clazz method = Ok e ->
        runEncodeMethod enc StringToBigInt e args = Ok data ->
        runMethodDecoder enc module (methodDecoder spec) (data ++ rest)
        = runMethodDecoder enc module (methodDecoder spec) data).
Proof.
  intros Henc Hmodule Hvalid Hids Hin. split.
  - intros size props data rest Hdata.
    destruct (header_decode_rest enc spec module clazz size props data
                Henc Hmodule Hvalid Hids Hin Hdata) as (h & Hh).
    pose proof (Hh []) as Hnone. rewrite app_nil_r in Hnone.
    now rewrite (Hh rest), Hnone.
  - intros StringToBigInt method e args data rest Hmids Hmin He Hdata.
    destruct (method_decode_rest enc StringToBigInt spec args module clazz
                method e data Henc Hmodule Hvalid Hids Hin Hmids Hmin He Hdata)
      as (m & Hm).
    pose proof (Hm []) as Hnone. rewrite app_nil_r in Hnone.
    now rewrite (Hm rest), Hnone.
Qed.

Lemma trailing_bytes_ignored_witness :
  runHeaderDecoder codec Sample.module (headerDecoder Sample.spec)
    (Sample.headerBytes ++ [Byte.xff; Byte.xff])
  = runHeaderDecoder codec Sample.module (headerDecoder Sample.spec)
      Sample.headerBytes
  /\ runMethodDecoder codec Sample.module (methodDecoder Sample.spec)
       (Sample.fullBytes ++ [Byte.xff])
     = runMethodDecoder codec Sample.module (methodDecoder Sample.spec)
         Sample.fullBytes.
Proof.
  destruct (trailing_bytes_ignored codec Sample.spec Sample.module Sample.basic
              reference_codec_contract sample_module sample_module_valid
              sample_class_ids (or_introl eq_refl)) as [Hheader Hmethod].
  split.
  - exact (Hheader 1000 Sample.props _ _ sample_header_bytes).
  - exact (Hmethod noStringToBigInt Sample.ack Sample.encodeAck Sample.fullArgs
             _ _ sample_method_ids (or_introl eq_refl) sample_encode_ack
             sample_full_bytes).
Defined.

(** ** Declarations of received messages and headers *)

Lemma printReceiveMethodDefinition_text (clazz : ClassDefinition)
    (method : MethodDefinition) :
  printReceiveMethodDefinition clazz method
  = printReceiveInterface (receiveMethodDefinition clazz method).
Proof.
  unfold printReceiveMethodDefinition, printReceiveInterface,
    receiveMethodDefinition. same_text.
Qed.

Lemma printHeaderDefinition_text (clazz : ClassDefinition) :
  printHeaderDefinition clazz = printHeaderInterface (headerDefinition clazz).
Proof.
  unfold printHeaderDefinition, printHeaderInterface, headerDefinition.
  same_text.
Qed.

Lemma flat_map_nil {A B : Type} (f : A -> list B) (l : list A) :
  (forall x, In x l -> f x = []) -> flat_map f l = [].
Proof.
  induction l as [|x l IH]; intros H; [reflexivity|].
  cbn. rewrite (H x (or_introl eq_refl)). apply IH.
  intros y Hy. apply H. now right.
Qed.

(** X16.  The union of received messages names exactly the interfaces
    declared for the methods of the schema, class by class and method by
    method, and the union of headers names the header interface of each
    class in order; for a schema in which no class has a method the text
    of the first union stops after the equals sign. *)
Theorem unions_name_declarations (spec : Spec) :
  printReceiveMethodUnion spec = printUnionType (receiveMethodUnion spec)
  /\ printHeaderUnion spec = printUnionType (headerUnion spec)
  /\ ut_members (receiveMethodUnion spec)
     = flat_map (fun c => map (fun m => ri_name (receiveMethodDefinition c m))
                            (class_methods c))
         (classes spec)
  /\ (forall name,
        In name (ut_members (receiveMethodUnion spec))
        <-> exists c m, In c (classes spec) /\ In m (class_methods c)
                        /\ name = ri_name (receiveMethodDefinition c m))
  /\ ut_members (headerUnion spec)
     = map (fun c => hi_name (headerDefinition c)) (classes spec)
  /\ ((forall c, In c (classes spec) -> class_methods c = []) ->
      printReceiveMethodUnion spec = "export type ReceiveMethod = ").
Proof.
  split; [reflexivity|]. split; [reflexivity|]. split; [reflexivity|].
  split; [|split; [reflexivity|]].
  - intros name. unfold receiveMethodUnion. cbn [ut_members].
    rewrite in_flat_map. split.
    + intros (c & Hc & Hname). apply in_map_iff in Hname as (m & <- & Hm).
      now exists c, m.
    + intros (c & m & Hc & Hm & ->). exists c. split; [exact Hc|].
      apply in_map_iff. now exists m.
  - intros Hnone. unfold printReceiveMethodUnion.
    rewrite flat_map_nil; [reflexivity|].
    intros c Hc. now rewrite (Hnone c Hc).
Qed.

(** X17.  The names the emitters give and use agree.  For a method: the
    full value interface extends the arguments interface, the encode
    function takes the arguments interface, the decode function returns
    the full value interface, the received-message interface holds it as
    [args], and the dispatch case calls the decode function by its name.
    For a class: the header interface holds the properties interface as
    [props], the header encode function takes it, the header decode
    function returns the header interface, and the dispatch case calls the
    header decode function by its name. *)
Theorem emitted_names_agree (spec : Spec) (clazz : ClassDefinition) :
  (forall method ia iv e d,
     methodArgsInterface spec clazz method = Ok ia ->
     methodValueInterface spec clazz method = Ok iv ->
     encodeMethodFunction spec clazz method = Ok e ->
     decodeMethodFunction spec clazz method = Ok d ->
     iface_extends iv = Some (iface_name ia)
     /\ em_argsName e = iface_name ia
     /\ dm_returnName d = iface_name iv
     /\ ri_args (receiveMethodDefinition clazz method) = iface_name iv
     /\ mc_decoder (methodCase clazz method) = dm_name d
     /\ em_name e <> dm_name d)
  /\ (forall ip f,
        classPropertyInterface clazz = Ok ip ->
        decodeHeaderFunction clazz = Ok f ->
        hi_props (headerDefinition clazz) = iface_name ip
        /\ eh_argName (encodeHeaderFunction clazz) = iface_name ip
        /\ dh_returnName f = hi_name (headerDefinition clazz)
        /\ hc_decoder (headerCase clazz) = dh_name f
        /\ eh_name (encodeHeaderFunction clazz) <> dh_name f).
Proof.
  split.
  - intros method ia iv e d Hia Hiv He Hd.
    unfold methodArgsInterface in Hia. apply bind_Ok in Hia as (fa & _ & Hia).
    unfold methodValueInterface in Hiv. apply bind_Ok in Hiv as (fv & _ & Hiv).
    unfold encodeMethodFunction in He. apply bind_Ok in He as (fe & _ & He).
    unfold decodeMethodFunction in Hd. apply bind_Ok in Hd as (td & _ & Hd).
    apply bind_Ok in Hd as (ad & _ & Hd).
    injection Hia as <-. injection Hiv as <-. injection He as <-.
    injection Hd as <-.
    cbn -[String.append pascalCase]. rewrite ?append_assoc.
    repeat split. discriminate.
  - intros ip f Hip Hf.
    unfold classPropertyInterface in Hip. apply bind_Ok in Hip as (fp & _ & Hip).
    unfold decodeHeaderFunction in Hf. apply bind_Ok in Hf as (pf & _ & Hf).
    injection Hip as <-. injection Hf as <-.
    cbn -[String.append pascalCase]. repeat split. discriminate.
Qed.

Lemma emitted_names_agree_witness :
  exists ia iv e d,
    methodArgsInterface Sample.spec Sample.basic Sample.ack = Ok ia
    /\ methodValueInterface Sample.spec Sample.basic Sample.ack = Ok iv
    /\ encodeMethodFunction Sample.spec Sample.basic Sample.ack = Ok e
    /\ decodeMethodFunction Sample.spec Sample.basic Sample.ack = Ok d
    /\ iface_extends iv = Some (iface_name ia)
    /\ em_argsName e = iface_name ia
    /\ dm_returnName d = iface_name iv.
Proof.
  do 4 eexists.
  pose proof (proj1 (emitted_names_agree Sample.spec Sample.basic)
                Sample.ack _ _ _ _ eq_refl eq_refl eq_refl eq_refl)
    as (Hextends & Hargs & Hreturn & _).
  do 4 (split; [reflexivity|]).
  split; [exact Hextends|]. split; [exact Hargs | exact Hreturn].
Defined.
